(** * Task analytics: the edge function and the SQL aggregation routine

    A shallow embedding of
    - [supabase/functions/task-analytics/index.ts] (rate limiter, request
      handler and the in-memory fallback aggregation),
    - [supabase/migrations/002_create_analytics_rpc.sql]
      (the [get_task_analytics] routine), and
    - the client-side rate limiter and cache ([class RateLimiter],
      [class Cache], [withCache], [clearCacheByPattern]),
    followed by the properties of the analytics report, of the handler and
    of these utilities.

    Conventions of the embedding.
    - A JavaScript number that can hold a fraction is a binary64 value
      ([float], with the operations of IEEE 754 in the order the source
      applies them); a count is an integer ([Z]).  A decimal literal such as
      [0.4] denotes the nearest binary64 value, as it does in JavaScript.
    - A SQL [NUMERIC] value is the exact decimal fraction it denotes, kept
      as a rational; a [NUMERIC] quotient is rounded to the scale that
      PostgreSQL selects for it.
    - An instant (a due date, [p_now], [Date.now()]) is its number of
      milliseconds since the epoch.  A creation timestamp is kept as its UTC
      calendar fields, since the code only buckets it by calendar month and
      orders it.
    - The text ["YYYY-MM"] is represented by the pair (year, month); on
      zero-padded fields the order of the texts is the lexicographic order
      of the pairs.
    - A plain JavaScript object used as a dictionary is a [gmap] of its own
      members, read together with the members it inherits from
      [Object.prototype]; the insertion-ordered [Map] is an association
      list. *)

From Stdlib Require Import ZArith QArith Qround Qminmax Lqa Lia Ascii Floats.
From stdpp Require Import gmap strings list fin_maps sorting.

Set Warnings "-inexact-float".

Close Scope Q_scope.
Open Scope Z_scope.

(** ** Data model *)

(** [status text check (status in ('pending', 'in-progress', 'done'))] *)
Inductive Status := Pending | InProgress | Done.

#[global] Instance Status_eq_dec : EqDecision Status.
Proof. solve_decision. Defined.

(** Calendar fields of a timestamp (UTC): year, month 1..12, day of month,
    milliseconds since midnight. *)
Record Timestamp := mkTimestamp {
  ts_year : Z;
  ts_month : Z;
  ts_day : Z;
  ts_millis : Z
}.

(** The [extras] JSONB column: [{tags?, due_date?, priority?}]. *)
Module Extras.
Record t := mk {
  tags : option (list string);
  due_date : option Z;
  priority : option string
}.
End Extras.

(** A row of the [tasks] table. *)
Module Task.
Record t := mk {
  id : string;
  user_id : string;
  title : string;
  status : Status;
  extras : option Extras.t;
  inserted_at : Timestamp
}.
End Task.

(** [extras->>'due_date'], [task.extras?.due_date] *)
Definition due_date_of (t : Task.t) : option Z :=
  Task.extras t ≫= Extras.due_date.

(** [extras->>'priority'], [task.extras?.priority] *)
Definition priority_of (t : Task.t) : option string :=
  Task.extras t ≫= Extras.priority.

(** [extras->'tags'], [task.extras?.tags] *)
Definition tags_of (t : Task.t) : option (list string) :=
  Task.extras t ≫= Extras.tags.

(** ** Calendar arithmetic *)

Definition is_leap_year (y : Z) : bool :=
  ((y mod 4 =? 0) && negb (y mod 100 =? 0)) || (y mod 400 =? 0).

Definition days_in_month (y m : Z) : Z :=
  if m =? 2 then (if is_leap_year y then 29 else 28)
  else if (m =? 4) || (m =? 6) || (m =? 9) || (m =? 11) then 30
  else 31.

Definition ts_compare (a b : Timestamp) : comparison :=
  match ts_year a ?= ts_year b with
  | Eq =>
      match ts_month a ?= ts_month b with
      | Eq =>
          match ts_day a ?= ts_day b with
          | Eq => ts_millis a ?= ts_millis b
          | c => c
          end
      | c => c
      end
  | c => c
  end.

(** [a <= b] on timestamps *)
Definition ts_leb (a b : Timestamp) : bool :=
  match ts_compare a b with
  | Gt => false
  | _ => true
  end.

(** The month text of a timestamp: [to_char(ts, 'YYYY-MM')] in SQL,
    [iso.slice(0, 7)] in the edge function. *)
Definition month_of (ts : Timestamp) : Z * Z := (ts_year ts, ts_month ts).

(** Order of the month texts. *)
Definition month_leb (a b : Z * Z) : bool :=
  (a.1 <? b.1) || ((a.1 =? b.1) && (a.2 <=? b.2)).

(** Position of a month on the line of all months. *)
Definition month_index (k : Z * Z) : Z := k.1 * 12 + (k.2 - 1).

(** ** Report entries shared by both routines *)

(** [{month, completed, created}] *)
Record MonthEntry := mkMonthEntry {
  month : Z * Z;
  completed : Z;
  created : Z
}.

(** [{taskId, title, dueDate, priority}] *)
Module Deadline.
Record t := mk {
  taskId : string;
  title : string;
  dueDate : option Z;
  priority : string
}.
End Deadline.

(** Ascending order of due dates, rows without one last. *)
Definition due_leb (a b : Task.t) : bool :=
  match due_date_of a, due_date_of b with
  | Some x, Some y => x <=? y
  | _, None => true
  | None, Some _ => false
  end.

(** ** The SQL routine [get_task_analytics] (002_create_analytics_rpc.sql) *)

Module Sql.

(** What a statement, and the routine itself, comes to: a value, or an error
    ([SQLSTATE] and message) that aborts the routine. *)
Inductive Result (A : Type) :=
| Ok (a : A)
| Raise (sqlstate message : string).
Arguments Ok {A} a.
Arguments Raise {A} sqlstate message.

#[global] Instance Result_ret : MRet Result := λ A a, Ok a.
#[global] Instance Result_bind : MBind Result := λ A B k r,
  match r with
  | Ok a => k a
  | Raise sqlstate message => Raise sqlstate message
  end.

(** The document built by the final [json_build_object]. *)
Record Json := mkJson {
  totalTasks : Z;
  completedTasks : Z;
  pendingTasks : Z;
  inProgressTasks : Z;
  completionRate : Q;
  averageCompletionTime : Z;
  overdueTasks : Z;
  tasksByPriority : list (string * Z);
  tasksByTag : list (string * Z);
  productivityScore : Z;
  monthlyTrends : list MonthEntry;
  upcomingDeadlines : list Deadline.t
}.

(** [FROM tasks WHERE user_id = p_user_id] *)
Definition from_tasks (p_user_id : string) (tasks : list Task.t) : list Task.t :=
  List.filter (λ t, bool_decide (Task.user_id t = p_user_id)) tasks.

(** [COUNT( * ) FILTER (WHERE cond)] *)
Definition COUNT_FILTER (cond : Task.t → bool) (rows : list Task.t) : Z :=
  Z.of_nat (length (List.filter cond rows)).

(** [status = s], [status != s] *)
Definition status_is (s : Status) (t : Task.t) : bool := bool_decide (Task.status t = s).
Definition status_is_not (s : Status) (t : Task.t) : bool := negb (status_is s t).

(** [(extras->>'due_date')::timestamp < p_now]; a NULL due date is not true *)
Definition due_before (p_now : Z) (t : Task.t) : bool :=
  match due_date_of t with
  | Some d => d <? p_now
  | None => false
  end.

(** [COALESCE(x, d)] *)
Definition COALESCE {A} (x : option A) (d : A) : A := default d x.

(** A value of type [INTEGER]: outside the range of [int4] it is error
    22003. *)
Definition int4 (n : Z) : Result Z :=
  if (-2147483648 <=? n) && (n <=? 2147483647) then Ok n
  else Raise "22003" "integer out of range".

(** [ROUND(numeric)]: to the nearest integer, ties away from zero. *)
Definition ROUND (x : Q) : Z :=
  if Qle_bool 0 x then Qfloor (x + (1 # 2)) else Qceiling (x - (1 # 2)).

(** The quotient [a::NUMERIC / b] of two [INTEGER] values, [0 <= a] and
    [0 < b].  PostgreSQL rounds it to the scale [select_div_scale] picks:
    with the operands written in base 10000, [weight] the position of the
    leading digit and [first_digit] that digit (both 0 for the value 0), the
    quotient's weight is estimated as [weight a - weight b], one less when
    [first_digit a <= first_digit b], and the scale keeps 16 significant
    decimal digits below it. *)
Definition weight (n : Z) : Z :=
  if n <? 10000 then 0 else if n <? 100000000 then 1 else 2.

Definition first_digit (n : Z) : Z := n / 10000 ^ weight n.

Definition select_div_scale (a b : Z) : Z :=
  let qweight :=
    weight a - weight b - (if first_digit a <=? first_digit b then 1 else 0) in
  Z.max 0 (16 - qweight * 4).

Definition numeric_div (a b : Z) : Q :=
  let rscale := select_div_scale a b in
  (inject_Z (ROUND (inject_Z a / inject_Z b * inject_Z (10 ^ rscale))) /
   inject_Z (10 ^ rscale))%Q.

Definition GREATEST (x y : Q) : Q := Qmax x y.
Definition LEAST (x y : Z) : Z := Z.min x y.

(** Lines 39-41. *)
Definition completion_rate (total_tasks completed_tasks : Z) : Q :=
  if 0 <? total_tasks
  then (numeric_div completed_tasks total_tasks * 100)%Q
  else 0%Q.

(** Lines 44-53; the two products are [INTEGER] products. *)
Definition productivity_score
    (total_tasks in_progress_tasks overdue_tasks : Z) (completion_rate : Q) : Result Z :=
  if total_tasks =? 0 then int4 (ROUND 0)
  else
    volume ← int4 (total_tasks * 10);
    activity ← int4 (in_progress_tasks * 25);
    int4
      (ROUND
         ((completion_rate * 0.4) +
          (GREATEST 0 (100 - (numeric_div overdue_tasks total_tasks * 100)) * 0.3) +
          (inject_Z (LEAST 100 volume) * 0.2) +
          (inject_Z (LEAST 100 activity) * 0.1))%Q).

(** The select list of a query over a derived table can name the columns of
    that table only, which are the names of its own select list; any other
    column name is error 42703 (undefined column), raised when the statement
    is analysed, whatever the rows. *)
Definition column_refs (refs columns : list string) : Result () :=
  match List.filter (λ c, negb (bool_decide (c ∈ columns))) refs with
  | [] => Ok ()
  | c :: _ => Raise "42703" ("column " +:+ c +:+ " does not exist")
  end.

(** [SELECT key, COUNT( * ) ... GROUP BY key]: one row per distinct key. *)
Definition GROUP_BY_COUNT {K} `{EqDecision K} (keys : list K) : list (K * Z) :=
  (λ k, (k, Z.of_nat (length (List.filter (λ k', bool_decide (k' = k)) keys))))
    <$> remove_dups keys.

(** [json_object_agg] and [json_agg] yield NULL over no rows. *)
Definition json_agg {A} (rows : list A) : option (list A) :=
  match rows with
  | [] => None
  | _ => Some rows
  end.

(** Lines 56-67.  The derived table [pc] has the columns [priority] and
    [priority_count]; the select list over it names [extras] (line 57) and
    [priority_count]. *)
Definition priority_counts (tasks : list Task.t) (p_user_id : string)
    : Result (option (list (string * Z))) :=
  let pc :=
    GROUP_BY_COUNT
      ((λ t, COALESCE (priority_of t) "medium") <$> from_tasks p_user_id tasks) in
  _ ← column_refs ["extras"; "priority_count"] ["priority"; "priority_count"];
  Ok (json_agg pc).

(** [jsonb_array_elements_text(extras->'tags')] over the rows with
    [extras->'tags' IS NOT NULL]: one row per tag occurrence. *)
Definition tag_rows (rows : list Task.t) : list string :=
  rows ≫= (λ t, default [] (tags_of t)).

(** [ORDER BY COUNT( * ) DESC] *)
Definition count_desc (a b : string * Z) : Prop := b.2 <= a.2.

#[global] Instance count_desc_dec : RelDecision count_desc.
Proof. intros a b. unfold count_desc. apply _. Defined.

(** Lines 70-81. *)
Definition tag_counts (tasks : list Task.t) (p_user_id : string)
    : Result (option (list (string * Z))) :=
  let tc :=
    take 20
      (merge_sort count_desc (GROUP_BY_COUNT (tag_rows (from_tasks p_user_id tasks)))) in
  _ ← column_refs ["tag"; "tag_count"] ["tag"; "tag_count"];
  Ok (json_agg tc).

(** [d - INTERVAL 'n months']: the month moves back, the day of the month is
    kept unless the target month is shorter. *)
Definition minus_months (d : Timestamp) (n : Z) : Timestamp :=
  let i := ts_year d * 12 + (ts_month d - 1) - n in
  let y := i / 12 in
  let m := i mod 12 + 1 in
  mkTimestamp y m (Z.min (ts_day d) (days_in_month y m)) (ts_millis d).

(** [CURRENT_DATE], from the calendar reading of the clock: midnight. *)
Definition CURRENT_DATE (clock : Timestamp) : Timestamp :=
  mkTimestamp (ts_year clock) (ts_month clock) (ts_day clock) 0.

(** [ORDER BY month_year] *)
Definition month_order (a b : MonthEntry) : Prop := month_leb (month a) (month b).

#[global] Instance month_order_dec : RelDecision month_order.
Proof. intros a b. unfold month_order. apply _. Defined.

(** Lines 84-101. *)
Definition monthly_trends (tasks : list Task.t) (p_user_id : string) (clock : Timestamp)
    : Result (option (list MonthEntry)) :=
  let recent :=
    List.filter (λ t, ts_leb (minus_months (CURRENT_DATE clock) 6) (Task.inserted_at t))
                (from_tasks p_user_id tasks) in
  let mt :=
    (λ month_year,
       let in_month t := bool_decide (month_of (Task.inserted_at t) = month_year) in
       {| month := month_year;
          created := COUNT_FILTER in_month recent;
          completed := COUNT_FILTER (λ t, in_month t && status_is Done t) recent |})
      <$> merge_sort (λ a b, month_leb a b)
            (remove_dups (month_of ∘ Task.inserted_at <$> recent)) in
  _ ← column_refs ["month_year"; "created_count"; "completed_count"]
                  ["month_year"; "created_count"; "completed_count"];
  Ok (json_agg (merge_sort month_order mt)).

(** The [WHERE] clause of lines 115-119. *)
Definition upcoming (p_now p_next_week : Z) (t : Task.t) : bool :=
  status_is_not Done t &&
  match due_date_of t with
  | Some d => (p_now <=? d) && (d <=? p_next_week)
  | None => false
  end.

(** Lines 104-122. *)
Definition upcoming_deadlines (tasks : list Task.t) (p_user_id : string)
    (p_now p_next_week : Z) : Result (option (list Deadline.t)) :=
  let ud :=
    take 10
      (merge_sort (λ a b, due_leb a b)
         (List.filter (upcoming p_now p_next_week) (from_tasks p_user_id tasks))) in
  _ ← column_refs ["id"; "title"; "extras"] ["id"; "title"; "extras"];
  Ok (json_agg
        ((λ t, {| Deadline.taskId := Task.id t;
                  Deadline.title := Task.title t;
                  Deadline.dueDate := due_date_of t;
                  Deadline.priority := COALESCE (priority_of t) "medium" |})
           <$> merge_sort (λ a b, due_leb a b) ud)).

(** The body of the routine, statement by statement: the first error ends
    it. *)
Definition get_task_analytics (tasks : list Task.t)
    (p_user_id : string) (p_now p_next_week : Z) (clock : Timestamp) : Result Json :=
  let rows := from_tasks p_user_id tasks in
  total_tasks ← int4 (COUNT_FILTER (λ _, true) rows);
  completed_tasks ← int4 (COUNT_FILTER (status_is Done) rows);
  pending_tasks ← int4 (COUNT_FILTER (status_is Pending) rows);
  in_progress_tasks ← int4 (COUNT_FILTER (status_is InProgress) rows);
  overdue_tasks ←
    int4 (COUNT_FILTER (λ t, status_is_not Done t && due_before p_now t) rows);
  let completion_rate := completion_rate total_tasks completed_tasks in
  productivity_score ←
    productivity_score total_tasks in_progress_tasks overdue_tasks completion_rate;
  priority_counts ← priority_counts tasks p_user_id;
  tag_counts ← tag_counts tasks p_user_id;
  monthly_trends ← monthly_trends tasks p_user_id clock;
  upcoming_deadlines ← upcoming_deadlines tasks p_user_id p_now p_next_week;
  Ok {| totalTasks := total_tasks;
        completedTasks := completed_tasks;
        pendingTasks := pending_tasks;
        inProgressTasks := in_progress_tasks;
        completionRate := completion_rate;
        averageCompletionTime := 24;
        overdueTasks := overdue_tasks;
        tasksByPriority := COALESCE priority_counts [];
        tasksByTag := COALESCE tag_counts [];
        productivityScore := productivity_score;
        monthlyTrends := COALESCE monthly_trends [];
        upcomingDeadlines := COALESCE upcoming_deadlines [] |}.

End Sql.

(** ** The edge function (index.ts) *)

Module Edge.

(** A counter held in a JavaScript object: [obj[k]++] on a key that is not
    there yields [NaN]. *)
Inductive JsNumber := Num (n : Z) | NaN.

#[global] Instance JsNumber_eq_dec : EqDecision JsNumber.
Proof. solve_decision. Defined.

(** A member of the [tasksByTag] object: a count, or the text that [+ 1]
    makes of a value that is not a number. *)
Inductive JsValue := JsNum (n : Z) | JsStr (s : string).

#[global] Instance JsValue_eq_dec : EqDecision JsValue.
Proof. solve_decision. Defined.

(** [interface TaskAnalytics] *)
Record TaskAnalytics := mkTaskAnalytics {
  totalTasks : Z;
  completedTasks : Z;
  pendingTasks : Z;
  inProgressTasks : Z;
  completionRate : float;
  averageCompletionTime : Z;
  overdueTasks : Z;
  tasksByPriority : gmap string JsNumber;
  tasksByTag : gmap string JsValue;
  productivityScore : float;
  monthlyTrends : list MonthEntry;
  upcomingDeadlines : list Deadline.t
}.

(** *** The query builder: [.from("tasks")] followed by filters *)

Definition eq_user_id (v : string) (t : Task.t) : bool :=
  bool_decide (Task.user_id t = v).
Definition eq_status (v : Status) (t : Task.t) : bool :=
  bool_decide (Task.status t = v).
Definition neq_status (v : Status) (t : Task.t) : bool :=
  negb (bool_decide (Task.status t = v)).

(** A filter as the database takes it: a test of each row, or, for a
    comparison it cannot prepare, the error that rejects the whole query. *)
Inductive Filter :=
| Where (test : Task.t → bool)
| Rejected (code : string).

(** [.lt("extras->due_date", v)] and [.gte("extras->due_date", v)], where
    [v] is the text of an instant ([toISOString()], such as
    [2023-11-14T22:13:20.000Z]).  The single arrow selects the member as
    [jsonb] ([extras] is a [jsonb] column), so the database reads the operand
    as [jsonb] as well; the text of an instant is no JSON text, and the
    query is rejected when it is prepared, whatever the rows and whatever
    the instant: error 22P02, invalid input syntax for type json. *)
Definition lt_due_date (v : Z) : Filter := Rejected "22P02".
Definition gte_due_date (v : Z) : Filter := Rejected "22P02".

(** The tests of the filters of a query, or the error of the first filter
    that is rejected. *)
Fixpoint prepare (filters : list Filter) : string + list (Task.t → bool) :=
  match filters with
  | [] => inr []
  | Where test :: filters =>
      match prepare filters with
      | inr tests => inr (test :: tests)
      | inl code => inl code
      end
  | Rejected code :: _ => inl code
  end.

(** What a query resolves to: [{data, count, error}].  The client does not
    throw: a rejected query resolves to [data: null], [count: null] and the
    error. *)
Record Reply := mkReply {
  data : option (list Task.t);
  count : option Z;
  error : option string
}.

(** The rows that pass every test, in table order. *)
Definition select (filters : list (Task.t → bool)) (table : list Task.t) : list Task.t :=
  List.filter (λ t, forallb (λ f, f t) filters) table.

Definition count_exact (filters : list (Task.t → bool)) (table : list Task.t) : Z :=
  Z.of_nat (length (select filters table)).

(** [.select("*", {count: 'exact', head: true})] with filters: the count of
    the rows, and no rows. *)
Definition head_count (filters : list Filter) (table : list Task.t) : Reply :=
  match prepare filters with
  | inr tests => mkReply None (Some (count_exact tests table)) None
  | inl code => mkReply None None (Some code)
  end.

(** [.select(columns)] with filters, [.order] and [.limit]. *)
Definition rows (filters : list Filter) (order : relation Task.t)
    `{!RelDecision order} (limit : nat) (table : list Task.t) : Reply :=
  match prepare filters with
  | inr tests => mkReply (Some (take limit (merge_sort order (select tests table)))) None None
  | inl code => mkReply None None (Some code)
  end.

(** [.order("inserted_at", {ascending: false})] *)
Definition inserted_at_desc (a b : Task.t) : Prop :=
  ts_leb (Task.inserted_at b) (Task.inserted_at a).

#[global] Instance inserted_at_desc_dec : RelDecision inserted_at_desc.
Proof. intros a b. unfold inserted_at_desc. apply _. Defined.

(** [.order("extras->due_date", {ascending: true})] *)
Definition due_date_asc (a b : Task.t) : Prop := due_leb a b.

#[global] Instance due_date_asc_dec : RelDecision due_date_asc.
Proof. intros a b. unfold due_date_asc. apply _. Defined.

(** *** JavaScript helpers *)

(** An integer as a JavaScript number: the nearest binary64 value (the
    integer itself below 2^53). *)
Definition Number (n : Z) : float :=
  if n <? 0 then (- of_uint63 (Uint63.of_Z (- n)))%float
  else of_uint63 (Uint63.of_Z n).

(** [Math.round]: the nearest integer, a half going towards positive
    infinity; [NaN], the infinities and the zeros are returned as they are,
    and a result of zero keeps the sign of the argument.  The value of a
    finite binary64 number is [m * 2^e], negated when [s] is set. *)
Definition Math_round (x : float) : float :=
  match Prim2SF x with
  | S754_finite s m e =>
      if 0 <=? e then x
      else
        let v := if s then Z.neg m else Z.pos m in
        let n := (2 * v + 2 ^ (- e)) / 2 ^ (1 - e) in
        if n =? 0 then (if s then (-0)%float else 0%float) else Number n
  | _ => x
  end.

(** [Math.max] and [Math.min] of two numbers: [NaN] when either is [NaN];
    [+0] counts as larger than [-0]. *)
Definition Math_max (a b : float) : float :=
  if is_nan a || is_nan b then nan
  else if (a <? b)%float then b
  else if (b <? a)%float then a
  else if get_sign a then b else a.

Definition Math_min (a b : float) : float :=
  if is_nan a || is_nan b then nan
  else if (a <? b)%float then a
  else if (b <? a)%float then b
  else if get_sign a then a else b.

(** [count || 0] on a count that may be [null]. *)
Definition or_zero (count : option Z) : Z :=
  match count with
  | Some n => n
  | None => 0
  end.

(** [s || d] on an optional string: the empty string is falsy too. *)
Definition or_string (s : option string) (d : string) : string :=
  match s with
  | Some EmptyString | None => d
  | Some v => v
  end.

(** [obj[key] = value] on a plain object: an own member is made or
    replaced; under the key [__proto__] the assignment runs the inherited
    setter, which ignores a value that is neither an object nor [null]. *)
Definition assign {V} (obj : gmap string V) (key : string) (value : V) : gmap string V :=
  if bool_decide (key = "__proto__") then obj else <[key := value]> obj.

(** [obj[k]++]: what is read under [k] and is not a number (nothing, or an
    inherited member) makes [NaN]. *)
Definition increment (obj : gmap string JsNumber) (k : string) : gmap string JsNumber :=
  assign obj k
    match obj !! k with
    | Some (Num n) => Num (n + 1)
    | _ => NaN
    end.

(** [date.getMonth()]: months count from 0. *)
Definition getMonth (date : Timestamp) : Z := ts_month date - 1.

(** [date.setMonth(m)] on the calendar fields, for any integer [m]: the year
    absorbs whole dozens of months; the day of the month is kept, and a day
    past the end of the target month runs over into the month after it
    (a day of the month is at most 31 and no month is shorter than 28 days,
    so one month is as far as it runs). *)
Definition setMonth (date : Timestamp) (m : Z) : Timestamp :=
  let y := ts_year date + m / 12 in
  let mo := m mod 12 + 1 in
  let len := days_in_month y mo in
  if ts_day date <=? len then mkTimestamp y mo (ts_day date) (ts_millis date)
  else if mo =? 12 then mkTimestamp (y + 1) 1 (ts_day date - len) (ts_millis date)
  else mkTimestamp y (mo + 1) (ts_day date - len) (ts_millis date).

(** The insertion-ordered [Map]: [set] keeps the place of a key that is
    already there and appends a new one. *)
Fixpoint Map_set {K V} `{EqDecision K} (key : K) (value : V) (m : list (K * V))
    : list (K * V) :=
  match m with
  | [] => [(key, value)]
  | (k, v) :: m' =>
      if decide (k = key) then (key, value) :: m' else (k, v) :: Map_set key value m'
  end.

Fixpoint Map_get {K V} `{EqDecision K} (key : K) (m : list (K * V)) : option V :=
  match m with
  | [] => None
  | (k, v) :: m' => if decide (k = key) then Some v else Map_get key m'
  end.

(** The members that every plain object inherits from [Object.prototype],
    each with the text that [+] converts it to: the functions print as
    native code, and [__proto__] reads as the prototype object itself. *)
Definition Object_prototype : list (string * string) :=
  [("constructor", "function Object() { [native code] }");
   ("__defineGetter__", "function __defineGetter__() { [native code] }");
   ("__defineSetter__", "function __defineSetter__() { [native code] }");
   ("hasOwnProperty", "function hasOwnProperty() { [native code] }");
   ("__lookupGetter__", "function __lookupGetter__() { [native code] }");
   ("__lookupSetter__", "function __lookupSetter__() { [native code] }");
   ("isPrototypeOf", "function isPrototypeOf() { [native code] }");
   ("propertyIsEnumerable", "function propertyIsEnumerable() { [native code] }");
   ("toString", "function toString() { [native code] }");
   ("valueOf", "function valueOf() { [native code] }");
   ("__proto__", "[object Object]");
   ("toLocaleString", "function toLocaleString() { [native code] }")].

(** [(obj[key] || 0) + 1] on an object whose own members are [obj]: the own
    member is read when there is one, else the inherited one, else
    [undefined].  A number has 1 added; a text, and an inherited function or
    object (truthy, and converted to text by [+]), has ["1"] appended. *)
Definition or_zero_plus_one (obj : gmap string JsValue) (key : string) : JsValue :=
  match obj !! key with
  | Some (JsNum n) => JsNum (n + 1)
  | Some (JsStr EmptyString) => JsNum 1
  | Some (JsStr s) => JsStr (s +:+ "1")
  | None =>
      match Map_get key Object_prototype with
      | Some text => JsStr (text +:+ "1")
      | None => JsNum 1
      end
  end.

(** *** The fallback aggregation (index.ts 149-262) *)

(** Line 172, on the counts as the queries delivered them ([null > 0] is
    false). *)
Definition completionRate_of (totalTasks completedTasks : option Z) : float :=
  match totalTasks with
  | Some total =>
      if 0 <? total then (Number (or_zero completedTasks) / Number total * 100)%float
      else 0%float
  | None => 0%float
  end.

(** Lines 182-190, on the fields of [analytics]. *)
Definition productivityScore_of
    (totalTasks inProgressTasks overdueTasks : Z) (completionRate : float) : float :=
  let score := 0%float in
  let score :=
    if 0 <? totalTasks then
      let score := (score + completionRate * 0.4)%float in
      let score :=
        (score +
         Math_max 0 (100 - (Number overdueTasks / Number totalTasks) * 100) * 0.3)%float in
      let score := (score + Math_min 100 (Number totalTasks * 10) * 0.2)%float in
      let score := (score + Math_min 100 (Number inProgressTasks * 25) * 0.1)%float in
      score
    else score in
  Math_round score.

(** Lines 193-198: the 1000 most recently created tasks of the user. *)
Definition recentTasks (table : list Task.t) (userId : string) : list Task.t :=
  take 1000 (merge_sort inserted_at_desc (select [eq_user_id userId] table)).

(** Lines 202-205: the body of the loop, then the loop. *)
Definition count_priority (tasksByPriority : gmap string JsNumber) (task : Task.t)
    : gmap string JsNumber :=
  let priority := or_string (priority_of task) "medium" in
  increment tasksByPriority priority.

Definition count_priorities (recentTasks : list Task.t) : gmap string JsNumber :=
  foldl count_priority
        (<["high" := Num 0]> (<["medium" := Num 0]> (<["low" := Num 0]> ∅)))
        recentTasks.

(** Lines 208-213: the body of the inner loop, of the outer loop, then the
    loops. *)
Definition count_tag (tasksByTag : gmap string JsValue) (tag : string)
    : gmap string JsValue :=
  assign tasksByTag tag (or_zero_plus_one tasksByTag tag).

Definition count_task_tags (tasksByTag : gmap string JsValue) (task : Task.t)
    : gmap string JsValue :=
  let tags := default [] (tags_of task) in
  foldl count_tag tasksByTag tags.

Definition count_tags (recentTasks : list Task.t) : gmap string JsValue :=
  foldl count_task_tags ∅ recentTasks.

(** Lines 217-221. *)
Definition last6Months (clock : Timestamp) : list (Z * Z) :=
  reverse
    ((λ i, let date := setMonth clock (getMonth clock - i) in month_of date)
       <$> [0; 1; 2; 3; 4; 5]).

(** Lines 227-236, one task: the bucket of its creation month, when there is
    one, is updated in place. *)
Definition count_month (monthlyData : list (Z * Z * (Z * Z))) (task : Task.t)
    : list (Z * Z * (Z * Z)) :=
  let createdMonth := month_of (Task.inserted_at task) in
  match Map_get createdMonth monthlyData with
  | Some (completed, created) =>
      let created := created + 1 in
      let completed :=
        if bool_decide (Task.status task = Done) then completed + 1 else completed in
      Map_set createdMonth (completed, created) monthlyData
  | None => monthlyData
  end.

(** Lines 223-225, one month. *)
Definition add_month (monthlyData : list (Z * Z * (Z * Z))) (month : Z * Z)
    : list (Z * Z * (Z * Z)) :=
  Map_set month (0, 0) monthlyData.

(** Lines 238-240, one entry: [{month, ...data}]. *)
Definition to_entry (entry : Z * Z * (Z * Z)) : MonthEntry :=
  let '(month, (completed, created)) := entry in
  mkMonthEntry month completed created.

(** Lines 216-240; a bucket is the pair [(completed, created)]. *)
Definition monthly (recentTasks : list Task.t) (clock : Timestamp) : list MonthEntry :=
  let monthlyData := foldl add_month [] (last6Months clock) in
  let monthlyData := foldl count_month monthlyData recentTasks in
  to_entry <$> monthlyData.

(** Lines 244-259; [(upcomingTasks || [])] on the [data] of the reply. *)
Definition upcoming (table : list Task.t) (userId : string) (now nextWeekISO : Z)
    : list Deadline.t :=
  let upcomingTasks :=
    data (rows [Where (eq_user_id userId); Where (neq_status Done);
                gte_due_date now; lt_due_date nextWeekISO]
               due_date_asc 10 table) in
  (λ task, {| Deadline.taskId := Task.id task;
              Deadline.title := Task.title task;
              Deadline.dueDate := due_date_of task;
              Deadline.priority := or_string (priority_of task) "medium" |})
    <$> default [] upcomingTasks.

Definition fallback (table : list Task.t) (userId : string)
    (now nextWeekISO : Z) (clock : Timestamp) : TaskAnalytics :=
  let user := Where (eq_user_id userId) in
  let totalTasks := count (head_count [user] table) in
  let completedTasks := count (head_count [user; Where (eq_status Done)] table) in
  let pendingTasks := count (head_count [user; Where (eq_status Pending)] table) in
  let inProgressTasks := count (head_count [user; Where (eq_status InProgress)] table) in
  let overdueTasks :=
    count (head_count [user; Where (neq_status Done); lt_due_date now] table) in
  let completionRate := completionRate_of totalTasks completedTasks in
  let recentTasks := recentTasks table userId in
  {| totalTasks := or_zero totalTasks;
     completedTasks := or_zero completedTasks;
     pendingTasks := or_zero pendingTasks;
     inProgressTasks := or_zero inProgressTasks;
     completionRate := completionRate;
     averageCompletionTime := 24;
     overdueTasks := or_zero overdueTasks;
     tasksByPriority := count_priorities recentTasks;
     tasksByTag := count_tags recentTasks;
     productivityScore :=
       productivityScore_of (or_zero totalTasks) (or_zero inProgressTasks)
                            (or_zero overdueTasks) completionRate;
     monthlyTrends := monthly recentTasks clock;
     upcomingDeadlines := upcoming table userId now nextWeekISO |}.

End Edge.

(** ** The rate limiter ([rateLimitCheck], index.ts 38-76) *)

Module RateLimit.

Definition windowMs : Z := 60000.
Definition maxRequests : nat := 5.

(** The list held for an identity: [rateLimitStore.get(userId) || []]. *)
Definition stored (store : gmap string (list Z)) (userId : string) : list Z :=
  default [] (store !! userId).

(** [time => time > bound] *)
Definition newer_than (bound : Z) (time : Z) : bool := bound <? time.

(** The periodic sweep of the whole store (index.ts 63-73). *)
Definition sweep (cutoff : Z) (store : gmap string (list Z)) : gmap string (list Z) :=
  omap (λ requests,
          let activeRequests := List.filter (newer_than cutoff) requests in
          match activeRequests with
          | [] => None
          | _ => Some activeRequests
          end) store.

(** [rateLimitCheck(userId)] with [Date.now()] read as [now]: the verdict
    and the store afterwards. *)
Definition rateLimitCheck (now : Z) (userId : string)
    (rateLimitStore : gmap string (list Z)) : bool * gmap string (list Z) :=
  let userRequests := stored rateLimitStore userId in
  let recentRequests := List.filter (newer_than (now - windowMs)) userRequests in
  if (maxRequests <=? length recentRequests)%nat then (false, rateLimitStore)
  else
    let recentRequests := recentRequests ++ [now] in
    let rateLimitStore := <[userId := recentRequests]> rateLimitStore in
    if 10000 <? Z.of_nat (size rateLimitStore)
    then (true, sweep (now - windowMs * 2) rateLimitStore)
    else (true, rateLimitStore).

(** A run of the limiter over a sequence of calls [(now, userId)], oldest
    first.  Next to the store it keeps, per call, the verdict, and builds
    the log of admitted calls (a ghost value: the code does not hold it). *)
Fixpoint run (calls : list (Z * string)) (store : gmap string (list Z))
    (admitted : list (Z * string)) : gmap string (list Z) * list (Z * string) :=
  match calls with
  | [] => (store, admitted)
  | (now, userId) :: rest =>
      let '(ok, store') := rateLimitCheck now userId store in
      run rest store' (if ok then admitted ++ [(now, userId)] else admitted)
  end.

(** The admitted timestamps of one identity, oldest first. *)
Definition admitted_of (userId : string) (admitted : list (Z * string)) : list Z :=
  map fst (List.filter (λ c, bool_decide (c.2 = userId)) admitted).

(** The admitted timestamps of one identity that lie in the trailing
    window of a call at [now]. *)
Definition admitted_in_window (now : Z) (userId : string)
    (admitted : list (Z * string)) : list Z :=
  List.filter (newer_than (now - windowMs)) (admitted_of userId admitted).

(** Calls arrive in clock order ([Date.now()] does not go back). *)
Fixpoint ordered_from (last : Z) (calls : list (Z * string)) : Prop :=
  match calls with
  | [] => True
  | c :: rest => last <= c.1 ∧ ordered_from c.1 rest
  end.

Definition chronological (calls : list (Z * string)) : Prop :=
  match calls with
  | [] => True
  | c :: rest => ordered_from c.1 rest
  end.

(** What ties the store to the log of admitted calls once the clock has
    reached [last]: inside any window that is still open, an identity holds
    exactly its admitted timestamps; and nothing was admitted after [last]. *)
Definition consistent (last : Z) (store : gmap string (list Z))
    (admitted : list (Z * string)) : Prop :=
  (∀ userId bound, last - windowMs <= bound →
     List.filter (newer_than bound) (stored store userId) =
     List.filter (newer_than bound) (admitted_of userId admitted)) ∧
  Forall (λ c, c.1 <= last) admitted.

End RateLimit.

(** ** The request handler ([serve], index.ts 78-289) *)

Module Handler.

(** A thrown JavaScript error; the handler reads its [message] only. *)
Record JsError := mkJsError {
  message : string
}.

(** The result of a call that may throw. *)
Inductive Outcome (A : Type) :=
| Returns (a : A)
| Throws (e : JsError).
Arguments Returns {A} a.
Arguments Throws {A} e.

(** [const corsHeaders] *)
Definition corsHeaders : list (string * string) :=
  [("Access-Control-Allow-Origin", "*");
   ("Access-Control-Allow-Headers", "authorization, x-client-info, apikey, content-type")].

(** The text handed to [new Response]: a literal, [JSON.stringify({error})]
    or [JSON.stringify(analytics)]. *)
Inductive Body :=
| Text (s : string)
| ErrorJson (error : string)
| AnalyticsJson (analytics : Edge.TaskAnalytics).

Module Response.
Record t := mk {
  status : Z;
  headers : list (string * string);
  body : Body
}.
End Response.

(** [{...corsHeaders, "Content-Type": "application/json"}] *)
Definition jsonHeaders : list (string * string) :=
  corsHeaders ++ [("Content-Type", "application/json")].

(** What the handler hands back to [serve]: a [Response], or, on line 261,
    the bare report object. *)
Inductive Returned :=
| Responded (r : Response.t)
| Object (analytics : Edge.TaskAnalytics).

Record Request := mkRequest {
  method : string;
  Authorization : option string
}.

(** [{data: {user}, error}] of [auth.getUser()]; a user is its [id]. *)
Record UserReply := mkUserReply {
  user : option string;
  userError : option string
}.

(** [{data, error}] of [rpc('get_task_analytics', ...)] *)
Record RpcReply := mkRpcReply {
  taskCounts : option (list Edge.TaskAnalytics);
  countsError : option string
}.

(** What the handler reads from outside during one request. *)
Record World := mkWorld {
  Deno_env_get : string → option string;
  auth_getUser : option string → Outcome UserReply;
  Date_now : Z;
  clock : Timestamp;
  rpc_get_task_analytics : string → Z → Z → Outcome RpcReply;
  tasks : list Task.t
}.

(** [!s] on an optional string *)
Definition falsy (s : option string) : bool :=
  match s with
  | Some EmptyString | None => true
  | Some _ => false
  end.

Definition is_hex (c : ascii) : bool :=
  let n := nat_of_ascii c in
  ((48 <=? n) && (n <=? 57) || (97 <=? n) && (n <=? 102) || (65 <=? n) && (n <=? 70))%nat.

Definition is_char (x c : ascii) : bool := bool_decide (c = x).

(** [[89ab]] under the [i] flag *)
Definition is_variant (c : ascii) : bool :=
  existsb (λ x, is_char x c) ["8"; "9"; "a"; "b"; "A"; "B"]%char.

(** [/^[0-9a-f]{8}-[0-9a-f]{4}-4[0-9a-f]{3}-[89ab][0-9a-f]{3}-[0-9a-f]{12}$/i],
    one class per position. *)
Definition uuidRegex : list (ascii → bool) :=
  replicate 8 is_hex ++ [is_char "-"%char] ++
  replicate 4 is_hex ++ [is_char "-"%char] ++
  [is_char "4"%char] ++ replicate 3 is_hex ++ [is_char "-"%char] ++
  [is_variant] ++ replicate 3 is_hex ++ [is_char "-"%char] ++
  replicate 12 is_hex.

Fixpoint test (regex : list (ascii → bool)) (s : string) : bool :=
  match regex, s with
  | [], EmptyString => true
  | class :: regex', String c s' => class c && test regex' s'
  | _, _ => false
  end.

Definition isValidUUID (uuid : string) : bool := test uuidRegex uuid.

(** [nextWeek.setDate(nextWeek.getDate() + 7)] on an instant *)
Definition nextWeek (now : Z) : Z := now + 7 * 86400000.

Definition json (status : Z) (body : Body) : Response.t :=
  {| Response.status := status; Response.headers := jsonHeaders; Response.body := body |}.

(** [taskCounts[0] || {...}], lines 265-278 *)
Definition emptyAnalytics : Edge.TaskAnalytics :=
  {| Edge.totalTasks := 0;
     Edge.completedTasks := 0;
     Edge.pendingTasks := 0;
     Edge.inProgressTasks := 0;
     Edge.completionRate := 0%float;
     Edge.averageCompletionTime := 0;
     Edge.overdueTasks := 0;
     Edge.tasksByPriority :=
       <["high" := Edge.Num 0]> (<["medium" := Edge.Num 0]> (<["low" := Edge.Num 0]> ∅));
     Edge.tasksByTag := ∅;
     Edge.productivityScore := 0%float;
     Edge.monthlyTrends := [];
     Edge.upcomingDeadlines := [] |}.

(** Lines 135-282: the report for a user who has passed the checks.  When
    the routine call comes back with an error, the fallback path computes
    the report. *)
Definition report (w : World) (user_id : string) : Outcome Returned :=
  let now := Date_now w in
  let nextWeekISO := nextWeek (Date_now w) in
  match rpc_get_task_analytics w user_id now nextWeekISO with
  | Throws e => Throws e
  | Returns reply =>
      match countsError reply, taskCounts reply with
      | Some _, _ =>
          Returns (Object (Edge.fallback (tasks w) user_id now nextWeekISO (clock w)))
      | None, None =>
          Throws (mkJsError "Cannot read properties of null (reading '0')")
      | None, Some rows =>
          let analytics := default emptyAnalytics (head rows) in
          Returns (Responded (json 200 (AnalyticsJson analytics)))
      end
  end.

(** The body of the [try] block, lines 93-282: what it returns or throws,
    and the rate-limit store afterwards. *)
Definition try_block (w : World) (req : Request) (rateLimitStore : gmap string (list Z))
    : Outcome Returned * gmap string (list Z) :=
  let supabaseUrl := Deno_env_get w "SUPABASE_URL" in
  let supabaseKey := Deno_env_get w "SUPABASE_ANON_KEY" in
  if falsy supabaseUrl || falsy supabaseKey
  then (Throws (mkJsError "Missing required environment variables"), rateLimitStore)
  else
    match auth_getUser w (Authorization req) with
    | Throws e => (Throws e, rateLimitStore)
    | Returns reply =>
        match userError reply, user reply with
        | None, Some user_id =>
            if negb (isValidUUID user_id)
            then (Returns (Responded (json 400 (ErrorJson "Invalid user ID"))),
                  rateLimitStore)
            else
              let '(allowed, rateLimitStore) :=
                RateLimit.rateLimitCheck (Date_now w) user_id rateLimitStore in
              if negb allowed
              then (Returns (Responded (json 429 (ErrorJson "Rate limit exceeded"))),
                    rateLimitStore)
              else (report w user_id, rateLimitStore)
        | _, _ =>
            (Returns (Responded (json 401 (ErrorJson "Unauthorized"))), rateLimitStore)
        end
    end.

(** The value of a response header, if it is set. *)
Definition header (name : string) (r : Response.t) : option string :=
  (λ found, found.2.2) <$> list_find (λ h, h.1 = name) (Response.headers r).

(** A request that gets past every check before the rate limiter: a GET on
    a configured deployment, from a signed-in user with a well-formed id. *)
Definition accepted (w : World) (req : Request) (user_id : string) : Prop :=
  method req = "GET" ∧
  falsy (Deno_env_get w "SUPABASE_URL") = false ∧
  falsy (Deno_env_get w "SUPABASE_ANON_KEY") = false ∧
  auth_getUser w (Authorization req) = Returns (mkUserReply (Some user_id) None) ∧
  isValidUUID user_id = true.

Definition handler (w : World) (req : Request) (rateLimitStore : gmap string (list Z))
    : Returned * gmap string (list Z) :=
  if bool_decide (method req = "OPTIONS")
  then (Responded {| Response.status := 200;
                     Response.headers := corsHeaders;
                     Response.body := Text "ok" |},
        rateLimitStore)
  else if negb (bool_decide (method req = "GET"))
  then (Responded (json 405 (ErrorJson "Method not allowed")), rateLimitStore)
  else
    match try_block w req rateLimitStore with
    | (Returns r, rateLimitStore) => (r, rateLimitStore)
    | (Throws error, rateLimitStore) =>
        (Responded (json 500 (ErrorJson (message error))), rateLimitStore)
    end.

End Handler.

(** ** The report, in the words of the specification *)

Module Spec.

(** The tasks of one owner. *)
Definition owned (userId : string) (tasks : list Task.t) : list Task.t :=
  filter (λ t, Task.user_id t = userId) tasks.

Definition count (P : Task.t → Prop) `{∀ t, Decision (P t)} (tasks : list Task.t) : Z :=
  Z.of_nat (length (filter P tasks)).

(** [status != done] and a due date that is present and before [now] *)
Definition overdue (now : Z) (t : Task.t) : Prop :=
  Task.status t ≠ Done ∧
  match due_date_of t with
  | Some d => d < now
  | None => False
  end.

#[global] Instance overdue_dec now t : Decision (overdue now t).
Proof. unfold overdue. destruct (due_date_of t); apply _. Defined.

Definition total (userId : string) (tasks : list Task.t) : Z :=
  Z.of_nat (length (owned userId tasks)).
Definition completed (userId : string) (tasks : list Task.t) : Z :=
  count (λ t, Task.status t = Done) (owned userId tasks).
Definition pending (userId : string) (tasks : list Task.t) : Z :=
  count (λ t, Task.status t = Pending) (owned userId tasks).
Definition inProgress (userId : string) (tasks : list Task.t) : Z :=
  count (λ t, Task.status t = InProgress) (owned userId tasks).
Definition overdueCount (userId : string) (now : Z) (tasks : list Task.t) : Z :=
  count (overdue now) (owned userId tasks).



(** The priority a task is counted under: the stored one, [medium] when
    there is none. *)
Definition effective_priority (t : Task.t) : string := default "medium" (priority_of t).

Definition priority_count (p : string) (tasks : list Task.t) : Z :=
  count (λ t, effective_priority t = p) tasks.

(** The stored priority is absent or one of the three values. *)
Definition priority_valid (t : Task.t) : Prop :=
  priority_of t ∈ [None; Some "low"; Some "medium"; Some "high"].

(** [sample] holds the [n] most recently created of the tasks [owned], or
    all of them when there are fewer. *)
Definition most_recent (n : nat) (owned sample : list Task.t) : Prop :=
  sample ⊆+ owned ∧
  length sample = (n `min` length owned)%nat ∧
  ∀ t t', t ∈ sample → t' ∈ owned → t' ∉ sample →
          ts_leb (Task.inserted_at t') (Task.inserted_at t).

(** A task that is not done and is due within [lo, hi]. *)
Definition due_within (lo hi : Z) (t : Task.t) : Prop :=
  Task.status t ≠ Done ∧
  match due_date_of t with
  | Some d => lo <= d <= hi
  | None => False
  end.

#[global] Instance due_within_dec lo hi t : Decision (due_within lo hi t).
Proof. unfold due_within. destruct (due_date_of t); apply _. Defined.

(** The month at a position on the line of all months. *)
Definition month_at (n : Z) : Z * Z := (n / 12, n mod 12 + 1).

(** The tasks created in a month, and those of them that are done. *)
Definition created_in (k : Z * Z) (tasks : list Task.t) : Z :=
  count (λ t, month_of (Task.inserted_at t) = k) tasks.
Definition completed_in (k : Z * Z) (tasks : list Task.t) : Z :=
  count (λ t, month_of (Task.inserted_at t) = k ∧ Task.status t = Done) tasks.

(** How often a tag occurs in the tag lists of the tasks, every occurrence
    counted, tags compared as exact strings. *)
Definition occurrences (tag : string) (tasks : list Task.t) : Z :=
  foldr (λ t n, Z.of_nat (length (filter (λ x, x = tag) (default [] (tags_of t)))) + n)
        0 tasks.

(** The scenario of the specification: 10 tasks, 4 done, 2 in progress,
    4 pending of which 2 are past their due date; [now] is 100. *)
Definition scenario : list Task.t :=
  let task id status due :=
    Task.mk id "owner" id status (Some (Extras.mk None due None))
            (mkTimestamp 2024 3 1 0) in
  [task "1" Done None; task "2" Done None; task "3" Done (Some 50); task "4" Done None;
   task "5" InProgress None; task "6" InProgress (Some 500);
   task "7" Pending (Some 50); task "8" Pending (Some 99);
   task "9" Pending None; task "10" Pending (Some 100)].

End Spec.

(** ** Concrete requests *)

Module Example.

Definition userId : string := "123e4567-e89b-42d3-a456-426614174000".

(** 2023-11-14T22:13:20Z *)
Definition now : Z := 1700000000000.
Definition clock : Timestamp := mkTimestamp 2023 11 14 80000000.

(** A pending task due exactly seven days after [now], and a finished one. *)
Definition dueInAWeek : Task.t :=
  Task.mk "t1" userId "Renew the certificate" Pending
    (Some (Extras.mk (Some ["ops"]) (Some (Handler.nextWeek now)) (Some "high")))
    (mkTimestamp 2023 11 2 0).
Definition finished : Task.t :=
  Task.mk "t2" userId "Write the report" Done None (mkTimestamp 2023 10 30 0).
Definition tasks : list Task.t := [dueInAWeek; finished].

(** A pending task due three days after [now]. *)
Definition dueSoon : Task.t :=
  Task.mk "t6" userId "Send the invoice" Pending
    (Some (Extras.mk None (Some (now + 3 * 86400000)) None))
    (mkTimestamp 2023 11 12 0).

(** A task tagged twice with the name of a member of [Object.prototype]. *)
Definition inheritedTag : Task.t :=
  Task.mk "t7" userId "Review the constructor" Pending
    (Some (Extras.mk (Some ["constructor"; "constructor"; "__proto__"]) None None))
    (mkTimestamp 2023 11 13 0).

Definition env (name : string) : option string :=
  if bool_decide (name = "SUPABASE_URL") then Some "https://project.supabase.co"
  else if bool_decide (name = "SUPABASE_ANON_KEY") then Some "anon-key"
  else None.

Definition request : Handler.Request := Handler.mkRequest "GET" (Some "Bearer token").

(** A configured deployment with a signed-in user; the two remote calls are
    left open. *)
Definition world (getUser : Handler.Outcome Handler.UserReply)
    (rpc : Handler.Outcome Handler.RpcReply) : Handler.World :=
  Handler.mkWorld env (λ _, getUser) now clock (λ _ _ _, rpc) tasks.

Definition signedIn : Handler.Outcome Handler.UserReply :=
  Handler.Returns (Handler.mkUserReply (Some userId) None).

(** The routine is not deployed: the call comes back with an error. *)
Definition rpcMissing : Handler.Outcome Handler.RpcReply :=
  Handler.Returns (Handler.mkRpcReply None (Some "function get_task_analytics does not exist")).

(** A deployment without its environment variables. *)
Definition unconfigured : Handler.World :=
  Handler.mkWorld (λ _, None) (λ _, signedIn) now clock (λ _ _ _, rpcMissing) tasks.

(** Tags that differ in case only, and a tag twice on one task. *)
Definition tagged : list Task.t :=
  [Task.mk "t3" userId "Plan the week" Pending
     (Some (Extras.mk (Some ["Work"; "work"; "work"]) None None)) (mkTimestamp 2023 11 3 0);
   Task.mk "t4" userId "Book the room" InProgress
     (Some (Extras.mk (Some ["work"]) None None)) (mkTimestamp 2023 11 4 0)].

(** 1001 tasks of the user: one from September 2023 tagged [archive], then
    1000 from November 2023; none has a priority. *)
Definition archived : Task.t :=
  Task.mk "t0" userId "Close the old project" Done
    (Some (Extras.mk (Some ["archive"]) None None)) (mkTimestamp 2023 9 10 0).
Definition routine : Task.t :=
  Task.mk "t5" userId "Daily check" Pending None (mkTimestamp 2023 11 10 0).
Definition manyTasks : list Task.t := archived :: replicate 1000 routine.

(** Five requests of the user in the last few seconds. *)
Definition busyStore : gmap string (list Z) :=
  <[userId := [now - 5000; now - 4000; now - 3000; now - 2000; now - 1000]]> ∅.

End Example.

(** ** Auxiliary notions for the rate limiter and the handler *)

(** A call of the identity [u] with its timestamp in the 60 seconds that
    end at [t]. *)
Definition in_window (t : Z) (u : string) (c : Z * string) : bool :=
  bool_decide (c.2 = u) && (t - 60000 <? c.1) && (c.1 <=? t).

(** The count that the [tasksByTag] object holds for a key: what it holds
    as a number, 0 when the key is not there. *)
Definition held_count (m : gmap string Edge.JsValue) (tag : string) : Z :=
  match m !! tag with
  | Some (Edge.JsNum n) => n
  | _ => 0
  end.

(** The key holds a number or is not there. *)
Definition holds_no_text (m : gmap string Edge.JsValue) (tag : string) : Prop :=
  ∀ s, m !! tag ≠ Some (Edge.JsStr s).

(** The arithmetic of lines 172-190 for an owner with [n] tasks, all done:
    whether the rate is 100 and the score [70 + 2 * min(10, n)]. *)
Definition all_done_check (n : Z) : bool :=
  let completionRate := Edge.completionRate_of (Some n) (Some n) in
  Leibniz.eqb completionRate 100 &&
  Leibniz.eqb (Edge.productivityScore_of n 0 0 completionRate)
              (Edge.Number (70 + 2 * Z.min 10 n)).

(** The check for [count] numbers of tasks in a row, from [n] on. *)
Fixpoint all_done_checks (n : Z) (count : nat) : bool :=
  match count with
  | O => true
  | S count => all_done_check n && all_done_checks (n + 1) count
  end.

(** The environment of the deployment holds both variables. *)
Definition configured (w : Handler.World) : Prop :=
  Handler.falsy (Handler.Deno_env_get w "SUPABASE_URL") = false ∧
  Handler.falsy (Handler.Deno_env_get w "SUPABASE_ANON_KEY") = false.

(** 10001 identities, each last seen at the instant 0. *)
Module Crowded.
Definition identity (n : nat) : string :=
  String (ascii_of_nat (n / 256)) (String (ascii_of_nat (n mod 256)) EmptyString).
Definition store : gmap string (list Z) :=
  list_to_map ((λ n, (identity n, [0])) <$> seq 0 (Z.to_nat 10001)).
End Crowded.

(** ** The client-side rate limiter ([class RateLimiter],
    utils/security.ts 119-157) *)

Module RateLimiter.

(** The fields of an instance. *)
Record t := mk {
  requests : gmap string (list Z);
  maxRequests : Z;
  windowMs : Z
}.

(** [new RateLimiter(maxRequests = 10, windowMs = 60000)] *)
Definition new (maxRequests windowMs : option Z) : t :=
  {| requests := ∅;
     maxRequests := default 10 maxRequests;
     windowMs := default 60000 windowMs |}.

(** [isAllowed(identifier)] with [Date.now()] read as [now]: the verdict and
    the instance afterwards. *)
Definition isAllowed (now : Z) (identifier : string) (this : t) : bool * t :=
  let windowStart := now - windowMs this in
  let userRequests := default [] (requests this !! identifier) in
  let userRequests := List.filter (λ time, windowStart <? time) userRequests in
  if maxRequests this <=? Z.of_nat (length userRequests) then (false, this)
  else
    let userRequests := userRequests ++ [now] in
    (true,
     {| requests := <[identifier := userRequests]> (requests this);
        maxRequests := maxRequests this;
        windowMs := windowMs this |}).

(** [Math.ceil] *)
Definition Math_ceil (x : Q) : Z := Qceiling x.

(** [getRetryAfter(identifier)]: seconds; [Math.min(...userRequests)] is
    taken of a list that is not empty. *)
Definition getRetryAfter (now : Z) (identifier : string) (this : t) : Z :=
  let userRequests := default [] (requests this !! identifier) in
  match userRequests with
  | [] => 0
  | time :: times =>
      let oldestRequest := foldr Z.min time times in
      let retryAfter := oldestRequest + windowMs this - now in
      Z.max 0 (Math_ceil (inject_Z retryAfter / 1000))
  end.

(** The instance after a sequence of [isAllowed] calls [(now, identifier)],
    oldest first. *)
Definition run (calls : list (Z * string)) (this : t) : t :=
  foldl (λ this call, (isAllowed call.1 call.2 this).2) this calls.

End RateLimiter.

(** ** The client-side cache ([class Cache], [withCache],
    [clearCacheByPattern]; utils/security.ts 209-353) *)

Module Cache.

(** [interface CacheItem<T>] *)
Record CacheItem (T : Type) := mkItem {
  data : T;
  timestamp : Z;
  ttl : Z
}.
Arguments mkItem {T} data timestamp ttl.
Arguments data {T} c.
Arguments timestamp {T} c.
Arguments ttl {T} c.

(** The fields of an instance; the [Map] keeps its entries in the order in
    which their keys were first set. *)
Record t (T : Type) := mk {
  cache : list (string * CacheItem T);
  maxSize : Z
}.
Arguments mk {T} cache maxSize.
Arguments cache {T} t.
Arguments maxSize {T} t.

(** [new Cache(maxSize = 100)] *)
Definition new {T} (maxSize : option Z) : t T :=
  {| cache := []; maxSize := default 100 maxSize |}.

(** [this.cache.size] *)
Definition size {T} (this : t T) : Z := Z.of_nat (length (cache this)).

(** [Map.prototype.delete] *)
Definition Map_delete {V} (key : string) (m : list (string * V)) : list (string * V) :=
  List.filter (λ entry, negb (bool_decide (entry.1 = key))) m.

(** [now - item.timestamp > item.ttl] *)
Definition expired {T} (now : Z) (item : CacheItem T) : bool :=
  ttl item <? now - timestamp item.

(** [cleanup()] with [Date.now()] read as [now] *)
Definition cleanup {T} (now : Z) (this : t T) : t T :=
  {| cache := List.filter (λ entry, negb (expired now entry.2)) (cache this);
     maxSize := maxSize this |}.

(** [set(key, data, ttl = 5 * 60 * 1000)]; [cleanup] reads the clock as
    [now_cleanup], the new item is stamped [now].  The oldest key is deleted
    only if it is truthy, that is, not the empty string. *)
Definition set {T} (now_cleanup now : Z) (key : string) (data : T) (ttl : option Z)
    (this : t T) : t T :=
  let ttl := default (5 * 60 * 1000) ttl in
  let this := if maxSize this <=? size this then cleanup now_cleanup this else this in
  let this :=
    if maxSize this <=? size this then
      match cache this with
      | (firstKey, _) :: _ =>
          if bool_decide (firstKey = "") then this
          else {| cache := Map_delete firstKey (cache this); maxSize := maxSize this |}
      | [] => this
      end
    else this in
  {| cache := Edge.Map_set key (mkItem data now ttl) (cache this);
     maxSize := maxSize this |}.

(** [get(key)]: the data or [null], and the instance afterwards. *)
Definition get {T} (now : Z) (key : string) (this : t T) : option T * t T :=
  match Edge.Map_get key (cache this) with
  | None => (None, this)
  | Some item =>
      if expired now item
      then (None, {| cache := Map_delete key (cache this); maxSize := maxSize this |})
      else (Some (data item), this)
  end.

(** [has(key)] *)
Definition has {T} (now : Z) (key : string) (this : t T) : bool * t T :=
  match Edge.Map_get key (cache this) with
  | None => (false, this)
  | Some item =>
      if expired now item
      then (false, {| cache := Map_delete key (cache this); maxSize := maxSize this |})
      else (true, this)
  end.

(** [delete(key)] *)
Definition delete {T} (key : string) (this : t T) : bool * t T :=
  (bool_decide (is_Some (Edge.Map_get key (cache this))),
   {| cache := Map_delete key (cache this); maxSize := maxSize this |}).

(** [clear()] *)
Definition clear {T} (this : t T) : t T :=
  {| cache := []; maxSize := maxSize this |}.

(** [getStats().keys] *)
Definition keys {T} (this : t T) : list string := (cache this).*1.

(** [withCache(cacheKey, fetchFn, cache, ttl)]; [fetchFn] is given by the
    outcome of calling it.  The data is a JavaScript value that may be
    [null], written [None]: [get] answers [null] for a key it does not hold
    and for an entry that holds [null], and the test [cached !== null] takes
    both for a miss. *)
Definition withCache {A} (now_get now_cleanup now_set : Z) (cacheKey : string)
    (fetchFn : Handler.Outcome (option A)) (cache : t (option A)) (ttl : option Z)
    : Handler.Outcome (option A) * t (option A) :=
  let '(cached, cache) := get now_get cacheKey cache in
  match cached with
  | Some (Some cached) => (Handler.Returns (Some cached), cache)
  | Some None | None =>
      match fetchFn with
      | Handler.Returns data =>
          (Handler.Returns data, set now_cleanup now_set cacheKey data ttl cache)
      | Handler.Throws error => (Handler.Throws error, cache)
      end
  end.

(** [key.includes(pattern)] *)
Fixpoint includes (pattern key : string) : bool :=
  String.prefix pattern key ||
  match key with
  | String _ rest => includes pattern rest
  | EmptyString => false
  end.

(** [clearCacheByPattern(pattern, cache)]: the number of entries cleared and
    the instance afterwards. *)
Definition clearCacheByPattern {T} (pattern : string) (cache : t T) : Z * t T :=
  foldl (λ '(cleared, cache) key,
           if includes pattern key then
             let '(deleted, cache) := delete key cache in
             if deleted then (cleared + 1, cache) else (cleared, cache)
           else (cleared, cache))
        (0, cache) (keys cache).

(** The calls that change an instance. *)
Inductive Call (T : Type) :=
| CallSet (now_cleanup now : Z) (key : string) (data : T) (ttl : option Z)
| CallGet (now : Z) (key : string)
| CallHas (now : Z) (key : string)
| CallDelete (key : string)
| CallClear.
Arguments CallSet {T}.
Arguments CallGet {T}.
Arguments CallHas {T}.
Arguments CallDelete {T}.
Arguments CallClear {T}.

Definition call {T} (this : t T) (c : Call T) : t T :=
  match c with
  | CallSet now_cleanup now key data ttl => set now_cleanup now key data ttl this
  | CallGet now key => (get now key this).2
  | CallHas now key => (has now key this).2
  | CallDelete key => (delete key this).2
  | CallClear => clear this
  end.

(** The key that a call sets, if it sets one. *)
Definition set_key {T} (c : Call T) : option string :=
  match c with
  | CallSet _ _ key _ _ => Some key
  | _ => None
  end.

(** What every call keeps when no empty key is set: distinct keys, none of
    them empty, and no more entries than [bound]. *)
Definition within {T} (bound : Z) (this : t T) : Prop :=
  maxSize this = bound ∧ NoDup (keys this) ∧ ("" ∉ keys this) ∧ (size this <= bound).

End Cache.

(** A cache of two entries that is full, and a longer history of calls. *)
Module CacheExample.

Definition full : Cache.t string :=
  {| Cache.cache := [("tasks:u1:0:50:false", Cache.mkItem "page 0" 1000 120000);
                     ("analytics:u1", Cache.mkItem "report" 2000 300000)];
     Cache.maxSize := 2 |}.

Definition calls : list (Cache.Call string) :=
  [Cache.CallSet 1000 1000 "tasks:u1:0:50:false" "page 0" (Some 120000);
   Cache.CallSet 2000 2000 "analytics:u1" "report" None;
   Cache.CallGet 2500 "analytics:u1";
   Cache.CallSet 3000 3000 "tasks:u2:0:50:false" "other page" (Some 120000);
   Cache.CallDelete "analytics:u1";
   Cache.CallHas 200000 "tasks:u2:0:50:false"].

(** The cache of the analytics reports, whose data may be [null]. *)
Definition reports : Cache.t (option string) :=
  {| Cache.cache := [("analytics:u1", Cache.mkItem (Some "report") 2000 300000)];
     Cache.maxSize := 10 |}.

End CacheExample.

(** * Properties *)

(** ** Properties of the rate limiter *)

Section RateLimitProps.
Import RateLimit.

Lemma newer_than_mono (c b t : Z) :
  c <= b → newer_than b t = true → newer_than c t = true.
Proof. unfold newer_than. rewrite !Z.ltb_lt. lia. Qed.

Lemma filter_newer_filter (b c : Z) (l : list Z) :
  c <= b →
  List.filter (newer_than b) (List.filter (newer_than c) l) = List.filter (newer_than b) l.
Proof.
  intros Hcb. induction l as [|t l IH]; simpl; [done|].
  destruct (newer_than b t) eqn:Hb.
  - rewrite (newer_than_mono c b t Hcb Hb). simpl. by rewrite Hb, IH.
  - destruct (newer_than c t); simpl; by rewrite ?Hb, IH.
Qed.

Lemma filter_older_filter (b c : Z) (l : list Z) :
  c <= b →
  List.filter (newer_than c) (List.filter (newer_than b) l) = List.filter (newer_than b) l.
Proof.
  intros Hcb. induction l as [|t l IH]; simpl; [done|].
  destruct (newer_than b t) eqn:Hb; simpl; [|done].
  by rewrite (newer_than_mono c b t Hcb Hb), IH.
Qed.

Lemma stored_insert_eq store u l : stored (<[u := l]> store) u = l.
Proof. unfold stored. by rewrite lookup_insert_eq. Qed.

Lemma stored_insert_ne store u v l :
  u ≠ v → stored (<[u := l]> store) v = stored store v.
Proof. intros. unfold stored. by rewrite lookup_insert_ne. Qed.

Lemma stored_sweep cutoff store u :
  stored (sweep cutoff store) u = List.filter (newer_than cutoff) (stored store u).
Proof.
  unfold stored, sweep. rewrite lookup_omap.
  destruct (store !! u) as [l|]; simpl; [|done].
  by destruct (List.filter (newer_than cutoff) l).
Qed.

(** One call, on any store: the verdict is decided by the held list. *)
Lemma rateLimitCheck_verdict now u store :
  (rateLimitCheck now u store).1 = false ↔
  (5 ≤ length (List.filter (newer_than (now - windowMs)) (stored store u)))%nat.
Proof.
  unfold rateLimitCheck, maxRequests.
  destruct (5 <=? _)%nat eqn:E.
  - apply Nat.leb_le in E. simpl. tauto.
  - apply Nat.leb_gt in E.
    destruct (10000 <? _); simpl; split; (discriminate || lia).
Qed.

Lemma rateLimitCheck_rejected now u store :
  (rateLimitCheck now u store).1 = false → (rateLimitCheck now u store).2 = store.
Proof.
  unfold rateLimitCheck. destruct (maxRequests <=? _)%nat; [done|].
  destruct (10000 <? _); simpl; discriminate.
Qed.

(** After an admitted call the identity holds its recent requests and the
    new one, whether or not the sweep ran. *)
Lemma rateLimitCheck_admitted_stored now u store :
  (rateLimitCheck now u store).1 = true →
  stored (rateLimitCheck now u store).2 u =
    List.filter (newer_than (now - windowMs)) (stored store u) ++ [now]
  ∧ (length (List.filter (newer_than (now - windowMs)) (stored store u)) < 5)%nat.
Proof.
  unfold rateLimitCheck, maxRequests.
  destruct (5 <=? _)%nat eqn:E; [discriminate|]. apply Nat.leb_gt in E.
  intros _. split; [|done].
  destruct (10000 <? _); simpl.
  - rewrite stored_sweep, stored_insert_eq, List.filter_app.
    rewrite filter_older_filter by (unfold windowMs; lia).
    simpl. replace (newer_than (now - windowMs * 2) now) with true; [done|].
    symmetry. apply Z.ltb_lt. unfold windowMs. lia.
  - by rewrite stored_insert_eq.
Qed.

Lemma rateLimitCheck_admitted_other now u v store :
  u ≠ v → ∀ b, now - windowMs <= b →
  List.filter (newer_than b) (stored (rateLimitCheck now u store).2 v) =
  List.filter (newer_than b) (stored store v).
Proof.
  intros Huv b Hb. unfold rateLimitCheck.
  destruct (maxRequests <=? _)%nat; [done|].
  destruct (10000 <? _); simpl.
  - rewrite stored_sweep, stored_insert_ne by done.
    apply filter_newer_filter. unfold windowMs in *. lia.
  - by rewrite stored_insert_ne.
Qed.

Lemma admitted_of_app u adm adm' :
  admitted_of u (adm ++ adm') = admitted_of u adm ++ admitted_of u adm'.
Proof. unfold admitted_of. by rewrite List.filter_app, map_app. Qed.

Lemma consistent_empty last : consistent last ∅ [].
Proof. split; [|by constructor]. intros u b _. unfold stored. by rewrite lookup_empty. Qed.

(** One call keeps the store and the log tied together. *)
Lemma consistent_step last now u store adm :
  consistent last store adm → last <= now →
  consistent now (rateLimitCheck now u store).2
    (if (rateLimitCheck now u store).1 then adm ++ [(now, u)] else adm).
Proof.
  intros [Hwin Hlast] Hle.
  destruct (rateLimitCheck now u store).1 eqn:Hv.
  - destruct (rateLimitCheck_admitted_stored now u store Hv) as [Hst _].
    split.
    + intros v b Hb. rewrite admitted_of_app, List.filter_app.
      destruct (decide (u = v)) as [<-|Hne].
      * rewrite Hst, List.filter_app, filter_newer_filter by done.
        rewrite Hwin by lia. f_equal.
        unfold admitted_of. simpl. by rewrite bool_decide_true.
      * rewrite rateLimitCheck_admitted_other by done.
        rewrite Hwin by lia.
        unfold admitted_of at 3. simpl.
        rewrite bool_decide_false by (simpl; congruence).
        simpl. by rewrite app_nil_r.
    + apply Forall_app. split.
      * eapply Forall_impl; [exact Hlast|]. simpl. intros; lia.
      * repeat constructor. simpl. lia.
  - rewrite (rateLimitCheck_rejected now u store Hv). split.
    + intros v b Hb. apply Hwin. lia.
    + eapply Forall_impl; [exact Hlast|]. simpl. intros; lia.
Qed.

Lemma run_consistent calls : ∀ store adm last now u,
  consistent last store adm →
  ordered_from last (calls ++ [(now, u)]) →
  ∃ last', last' <= now ∧ consistent last' (run calls store adm).1 (run calls store adm).2.
Proof.
  induction calls as [|[t v] calls IH]; intros store adm last now u Hc Hord.
  - simpl in *. exists last. split; [lia|done].
  - simpl in Hord. destruct Hord as [Hle Hord]. simpl.
    pose proof (consistent_step last t v store adm Hc Hle) as Hstep.
    destruct (rateLimitCheck t v store) as [ok store']. simpl in Hstep.
    by apply (IH store' _ t now u).
Qed.

Lemma chronological_ordered calls now u :
  chronological (calls ++ [(now, u)]) →
  ∃ last, ordered_from last (calls ++ [(now, u)]).
Proof.
  destruct calls as [|c calls]; simpl.
  - intros _. exists now. lia.
  - intros H. exists c.1. split; [lia|done].
Qed.

Lemma Forall_filter_newer (P : Z → Prop) b l :
  Forall P l → Forall (λ t, b < t ∧ P t) (List.filter (newer_than b) l).
Proof.
  induction 1 as [|t l Ht _ IH]; simpl; [constructor|].
  destruct (newer_than b t) eqn:E; [|done].
  constructor; [|done]. split; [|done]. by apply Z.ltb_lt.
Qed.

Lemma admitted_in_window_spec last now u adm :
  last <= now → Forall (λ c : Z * string, c.1 <= last) adm →
  admitted_in_window now u adm = (List.filter (in_window now u) adm).*1.
Proof.
  intros Hle H. unfold admitted_in_window, admitted_of, windowMs.
  induction H as [|[t v] adm Ht _ IH]; simpl; [done|].
  simpl in Ht. unfold in_window at 1. simpl.
  destruct (bool_decide (v = u)); simpl; [|exact IH].
  unfold newer_than at 1.
  replace (t <=? now) with true by (symmetry; apply Z.leb_le; lia).
  rewrite andb_true_r.
  destruct (now - 60000 <? t); simpl; by rewrite IH.
Qed.

(** C10. Over any run of calls in clock order from the empty store, with
    [admitted] the calls admitted so far: a call at [now] is rejected
    exactly when at least 5 admitted calls of its identity have their
    timestamp in the 60 seconds that end at [now] (after [now - 60000], not
    after [now]); a rejected call leaves the store as it was; after an
    admitted call the identity holds exactly the timestamps of its admitted
    calls, this one included, that lie in those 60 seconds, which are at
    most 5. *)
Theorem rateLimitCheck_sliding_window
    (calls : list (Z * string)) (now : Z) (userId : string) :
  chronological (calls ++ [(now, userId)]) →
  let store := (run calls ∅ []).1 in
  let admitted := (run calls ∅ []).2 in
  let verdict := (rateLimitCheck now userId store).1 in
  let store' := (rateLimitCheck now userId store).2 in
  (verdict = false ↔ (5 ≤ length (List.filter (in_window now userId) admitted))%nat) ∧
  (verdict = false → store' = store) ∧
  (verdict = true →
     stored store' userId =
       (List.filter (in_window now userId) (admitted ++ [(now, userId)])).*1 ∧
     (length (stored store' userId) ≤ 5)%nat ∧
     Forall (λ t, now - 60000 < t <= now) (stored store' userId)).
Proof.
  intros Hchr. destruct (chronological_ordered _ _ _ Hchr) as [last0 Hord].
  destruct (run_consistent calls ∅ [] last0 now userId (consistent_empty last0) Hord)
    as (last & Hle & Hwin & Hlast).
  cbv zeta. set (store := (run calls ∅ []).1) in *.
  set (admitted := (run calls ∅ []).2) in *.
  assert (Hrecent :
    List.filter (newer_than (now - windowMs)) (stored store userId) =
    (List.filter (in_window now userId) admitted).*1).
  { rewrite <- (admitted_in_window_spec last) by done.
    unfold admitted_in_window. apply Hwin. lia. }
  split; [|split].
  - rewrite rateLimitCheck_verdict, Hrecent. by rewrite length_fmap.
  - apply rateLimitCheck_rejected.
  - intros Hv. destruct (rateLimitCheck_admitted_stored now userId store Hv) as [-> Hlen].
    assert (List.filter (in_window now userId) [(now, userId)] = [(now, userId)]) as Hself.
    { simpl. unfold in_window. simpl. rewrite bool_decide_eq_true_2 by done.
      replace (now - 60000 <? now) with true by (symmetry; apply Z.ltb_lt; lia).
      by rewrite Z.leb_refl. }
    split; [|split].
    + by rewrite List.filter_app, fmap_app, Hself, Hrecent.
    + rewrite length_app. simpl. lia.
    + apply Forall_app. split.
      * rewrite Hrecent. apply Forall_fmap, Forall_forall.
        intros c Hc. apply list_elem_of_In, List.filter_In in Hc as [_ Hc].
        unfold in_window in Hc. simpl.
        apply andb_prop in Hc as [Hc Hc2]. apply andb_prop in Hc as [_ Hc1].
        apply Z.ltb_lt in Hc1. apply Z.leb_le in Hc2. lia.
      * repeat constructor; lia.
Qed.

(** Five calls of one identity within a minute, then a sixth. *)
Lemma rateLimitCheck_sliding_window_witness :
  let calls := [(1000, "u"); (2000, "u"); (3000, "u"); (4000, "u"); (5000, "u")] in
  chronological (calls ++ [(6000, "u")]) ∧
  let store := (run calls ∅ []).1 in
  let admitted := (run calls ∅ []).2 in
  let verdict := (rateLimitCheck 6000 "u" store).1 in
  let store' := (rateLimitCheck 6000 "u" store).2 in
  (verdict = false ↔ (5 ≤ length (List.filter (in_window 6000 "u") admitted))%nat) ∧
  (verdict = false → store' = store) ∧
  (verdict = true →
     stored store' "u" =
       (List.filter (in_window 6000 "u") (admitted ++ [(6000, "u")])).*1 ∧
     (length (stored store' "u") ≤ 5)%nat ∧
     Forall (λ t, 6000 - 60000 < t <= 6000) (stored store' "u")).
Proof.
  assert (H : chronological
            ([(1000, "u"); (2000, "u"); (3000, "u"); (4000, "u"); (5000, "u")]
               ++ [(6000, "u")])) by (simpl; lia).
  split; [exact H|].
  exact (rateLimitCheck_sliding_window _ 6000 "u" H).
Defined.

End RateLimitProps.
(** ** Counts: one scan with filters against one query per count *)

Section Counts.

Lemma filter_filter_andb {A} (f g : A → bool) (l : list A) :
  List.filter f (List.filter g l) = List.filter (λ x, g x && f x) l.
Proof.
  induction l as [|x l IH]; simpl; [done|].
  destruct (g x); simpl; [destruct (f x)|]; by rewrite IH.
Qed.

(** A count taken over the rows of the user is the count of the query that
    carries the user filter first. *)
Lemma count_scan_query (cond : Task.t → bool) (filters : list (Task.t → bool))
    (userId : string) (tasks : list Task.t) :
  (∀ t, cond t = forallb (λ f, f t) filters) →
  Sql.COUNT_FILTER cond (Sql.from_tasks userId tasks) =
  Edge.count_exact (Edge.eq_user_id userId :: filters) tasks.
Proof.
  intros Hcond. unfold Sql.COUNT_FILTER, Sql.from_tasks, Edge.count_exact, Edge.select.
  rewrite filter_filter_andb. do 2 f_equal.
  apply List.filter_ext. intros t. simpl. unfold Edge.eq_user_id. by rewrite Hcond.
Qed.

Lemma filter_length_mono {A} (f g : A → bool) (l : list A) :
  (∀ x, f x = true → g x = true) →
  (length (List.filter f l) ≤ length (List.filter g l))%nat.
Proof.
  intros Hfg. induction l as [|x l IH]; simpl; [done|].
  destruct (f x) eqn:Hf.
  - rewrite (Hfg x Hf). simpl. lia.
  - destruct (g x); simpl; lia.
Qed.

End Counts.

(** ** The arithmetic of the SQL routine *)

Section Score.

Lemma inject_Z_div_unit (c t : Z) :
  0 <= c <= t → 0 < t → (0 <= inject_Z c / inject_Z t <= 1)%Q.
Proof.
  intros Hc Ht.
  assert (0 < inject_Z t)%Q as Htq.
  { change 0%Q with (inject_Z 0). by rewrite <- Zlt_Qlt. }
  split.
  - apply Qle_shift_div_l; [done|]. rewrite Qmult_0_l.
    change 0%Q with (inject_Z 0). rewrite <- Zle_Qle. lia.
  - apply Qle_shift_div_r; [done|]. rewrite Qmult_1_l.
    rewrite <- Zle_Qle. lia.
Qed.

Lemma inject_Z_min_bounds (x : Z) :
  0 <= x → (0 <= inject_Z (Z.min 100 x) <= 100)%Q.
Proof.
  intros Hx. split.
  - change 0%Q with (inject_Z 0). rewrite <- Zle_Qle. lia.
  - change 100%Q with (inject_Z 100). rewrite <- Zle_Qle. lia.
Qed.

Lemma Qmax_0_bounds (x : Q) : (0 <= x)%Q → (0 <= Qmax 0 (100 - x) <= 100)%Q.
Proof.
  intros Hx. split; [apply Q.le_max_l|].
  apply Q.max_lub; lra.
Qed.

(** The weighted sum of the four parts lies between 0 and 100. *)
Lemma weighted_sum_bounds (r x v a : Q) :
  (0 <= r <= 1)%Q → (0 <= x <= 100)%Q → (0 <= v <= 100)%Q → (0 <= a <= 100)%Q →
  (0 <= r * 100 * 0.4 + x * 0.3 + v * 0.2 + a * 0.1 <= 100)%Q.
Proof. intros. split; lra. Qed.

Lemma ROUND_bounds (x : Q) (lo hi : Z) :
  0 <= lo → (inject_Z lo <= x <= inject_Z hi)%Q → lo <= Sql.ROUND x <= hi.
Proof.
  intros H0 [Hlo Hhi]. unfold Sql.ROUND.
  assert (0 <= x)%Q as Hx.
  { eapply Qle_trans; [|exact Hlo]. change 0%Q with (inject_Z 0). rewrite <- Zle_Qle. lia. }
  rewrite (proj2 (Qle_bool_iff 0 x) Hx). split.
  - rewrite <- (Qfloor_Z lo). apply Qfloor_resp_le. lra.
  - assert (Qfloor (x + (1 # 2)) < hi + 1); [|lia].
    rewrite Zlt_Qlt. eapply Qle_lt_trans; [apply Qfloor_le|].
    rewrite inject_Z_plus. change (inject_Z 1) with 1%Q. lra.
Qed.

(** A [NUMERIC] quotient of a part by the whole lies between 0 and 1. *)
Lemma numeric_div_unit (a b : Z) :
  0 <= a <= b → 0 < b → (0 <= Sql.numeric_div a b <= 1)%Q.
Proof.
  intros Ha Hb. unfold Sql.numeric_div.
  set (rscale := Sql.select_div_scale a b).
  assert (0 <= rscale) as Hr by (unfold rscale, Sql.select_div_scale; lia).
  assert (0 < 10 ^ rscale) as Hp by (apply Z.pow_pos_nonneg; lia).
  assert (0 < inject_Z (10 ^ rscale))%Q as Hpq.
  { change 0%Q with (inject_Z 0). by rewrite <- Zlt_Qlt. }
  destruct (inject_Z_div_unit a b Ha Hb) as [Hq0 Hq1].
  assert (0 <= Sql.ROUND (inject_Z a / inject_Z b * inject_Z (10 ^ rscale)) <= 10 ^ rscale)
    as [Hn0 Hn1].
  { apply ROUND_bounds; [lia|]. change (inject_Z 0) with 0%Q. split.
    - apply Qmult_le_0_compat; [done|]. by apply Qlt_le_weak.
    - rewrite <- (Qmult_1_l (inject_Z (10 ^ rscale))) at 2.
      apply Qmult_le_compat_r; [done|]. by apply Qlt_le_weak. }
  split.
  - apply Qle_shift_div_l; [done|]. rewrite Qmult_0_l.
    change 0%Q with (inject_Z 0). by rewrite <- Zle_Qle.
  - apply Qle_shift_div_r; [done|]. rewrite Qmult_1_l. by rewrite <- Zle_Qle.
Qed.

End Score.

(** ** The scalar fields *)

Section Scalars.

Lemma filter_bool_decide {A} (P : A → Prop) `{∀ x, Decision (P x)} (l : list A) :
  List.filter (λ x, bool_decide (P x)) l = filter P l.
Proof.
  induction l as [|x l IH]; simpl; [done|].
  rewrite filter_cons. destruct (decide (P x)).
  - by rewrite bool_decide_true, IH.
  - by rewrite bool_decide_false, IH.
Qed.

Lemma from_tasks_owned userId tasks : Sql.from_tasks userId tasks = Spec.owned userId tasks.
Proof. apply filter_bool_decide. Qed.

Lemma COUNT_FILTER_count (cond : Task.t → bool) (P : Task.t → Prop)
    `{∀ t, Decision (P t)} rows :
  (∀ t, cond t = bool_decide (P t)) → Sql.COUNT_FILTER cond rows = Spec.count P rows.
Proof.
  intros Hc. unfold Sql.COUNT_FILTER, Spec.count.
  by rewrite (List.filter_ext _ _ Hc), filter_bool_decide.
Qed.

Lemma overdue_cond now t :
  Sql.status_is_not Done t && Sql.due_before now t = bool_decide (Spec.overdue now t).
Proof.
  unfold Sql.status_is_not, Sql.status_is, Sql.due_before.
  destruct (decide (Spec.overdue now t)) as [H|H].
  - rewrite (bool_decide_true _ H). destruct H as [Hs Hd].
    rewrite (bool_decide_false _ Hs). simpl.
    destruct (due_date_of t); [by apply Z.ltb_lt|done].
  - rewrite (bool_decide_false _ H). apply not_true_is_false. intros Hb.
    apply andb_true_iff in Hb as [Hs Hd]. apply H. split.
    + intros Heq. by rewrite (bool_decide_true _ Heq) in Hs.
    + destruct (due_date_of t); [by apply Z.ltb_lt|done].
Qed.

Lemma total_count userId tasks :
  Sql.COUNT_FILTER (λ _, true) (Sql.from_tasks userId tasks) = Spec.total userId tasks.
Proof.
  unfold Sql.COUNT_FILTER, Spec.total. rewrite from_tasks_owned.
  do 2 f_equal. induction (Spec.owned userId tasks); simpl; congruence.
Qed.

Lemma sql_count_status userId tasks st :
  Sql.COUNT_FILTER (Sql.status_is st) (Sql.from_tasks userId tasks) =
  Spec.count (λ t, Task.status t = st) (Spec.owned userId tasks).
Proof. rewrite from_tasks_owned. by apply COUNT_FILTER_count. Qed.

Lemma sql_count_overdue userId now tasks :
  Sql.COUNT_FILTER (λ t, Sql.status_is_not Done t && Sql.due_before now t)
    (Sql.from_tasks userId tasks) = Spec.overdueCount userId now tasks.
Proof. rewrite from_tasks_owned. apply COUNT_FILTER_count, overdue_cond. Qed.

Lemma edge_count_total userId tasks :
  Edge.count_exact [Edge.eq_user_id userId] tasks = Spec.total userId tasks.
Proof. rewrite <- total_count. symmetry. by apply count_scan_query. Qed.

Lemma edge_count_status userId tasks st :
  Edge.count_exact [Edge.eq_user_id userId; Edge.eq_status st] tasks =
  Spec.count (λ t, Task.status t = st) (Spec.owned userId tasks).
Proof.
  rewrite <- sql_count_status. symmetry. apply count_scan_query.
  intros t. simpl. unfold Sql.status_is, Edge.eq_status. by rewrite andb_true_r.
Qed.

Lemma count_bounds (P : Task.t → Prop) `{∀ t, Decision (P t)} rows :
  0 <= Spec.count P rows <= Z.of_nat (length rows).
Proof. unfold Spec.count. pose proof (length_filter P rows). lia. Qed.


(** The scalar fields of the fallback path.  The four counts by owner and
    status are the counts over all of the owner's tasks; the query for the
    overdue count is rejected, and [|| 0] makes the field 0. *)
Lemma edge_scalars tasks userId now nextWeekISO clock :
  let e := Edge.fallback tasks userId now nextWeekISO clock in
  Edge.totalTasks e = Spec.total userId tasks ∧
  Edge.completedTasks e = Spec.completed userId tasks ∧
  Edge.pendingTasks e = Spec.pending userId tasks ∧
  Edge.inProgressTasks e = Spec.inProgress userId tasks ∧
  Edge.overdueTasks e = 0 ∧
  Edge.completionRate e =
    Edge.completionRate_of (Some (Spec.total userId tasks))
                           (Some (Spec.completed userId tasks)) ∧
  Edge.productivityScore e =
    Edge.productivityScore_of (Spec.total userId tasks) (Spec.inProgress userId tasks) 0
      (Edge.completionRate_of (Some (Spec.total userId tasks))
                              (Some (Spec.completed userId tasks))).
Proof.
  unfold Edge.fallback, Edge.head_count.
  cbn [Edge.prepare Edge.lt_due_date Edge.count Edge.or_zero
       Edge.totalTasks Edge.completedTasks Edge.pendingTasks Edge.inProgressTasks
       Edge.overdueTasks Edge.completionRate Edge.productivityScore].
  rewrite edge_count_total, !edge_count_status.
  repeat split; reflexivity.
Qed.

Lemma spec_counts_bounds userId now tasks :
  0 <= Spec.completed userId tasks <= Spec.total userId tasks ∧
  0 <= Spec.overdueCount userId now tasks <= Spec.total userId tasks ∧
  0 <= Spec.inProgress userId tasks <= Spec.total userId tasks.
Proof.
  unfold Spec.total, Spec.completed, Spec.overdueCount, Spec.inProgress.
  repeat split; apply count_bounds.
Qed.

Lemma owned_length userId tasks :
  Spec.total userId tasks <= Z.of_nat (length tasks).
Proof. unfold Spec.total, Spec.owned. pose proof (length_filter (λ t, Task.user_id t = userId) tasks). lia. Qed.

(** *** The SQL routine *)

Lemma int4_Ok (n : Z) : -2147483648 <= n <= 2147483647 → Sql.int4 n = Sql.Ok n.
Proof.
  intros [H1 H2]. unfold Sql.int4.
  by rewrite (proj2 (Z.leb_le _ _) H1), (proj2 (Z.leb_le _ _) H2).
Qed.

(** The priority statement is rejected whatever the table holds. *)
Lemma priority_counts_raises tasks userId :
  Sql.priority_counts tasks userId = Sql.Raise "42703" "column extras does not exist".
Proof. reflexivity. Qed.

(** The score statement goes through on the counts of a table of at most
    85 899 345 rows (the largest [n] with [n * 25] an [INTEGER]). *)
Lemma productivity_score_Ok (t c o ip : Z) :
  t <= 85899345 → 0 <= c <= t → 0 <= o <= t → 0 <= ip <= t →
  ∃ n, Sql.productivity_score t ip o (Sql.completion_rate t c) = Sql.Ok n.
Proof.
  intros Hmax Hc Ho Hip. unfold Sql.productivity_score.
  destruct (Z.eqb_spec t 0) as [->|Hne]; [by eexists|].
  assert (0 < t) as Ht by lia.
  rewrite (int4_Ok (t * 10)), (int4_Ok (ip * 25)) by lia. cbn [mbind Sql.Result_bind].
  eexists. apply int4_Ok.
  assert (0 <= Sql.ROUND
            (Sql.completion_rate t c * 0.4 +
             Sql.GREATEST 0 (100 - Sql.numeric_div o t * 100) * 0.3 +
             inject_Z (Sql.LEAST 100 (t * 10)) * 0.2 +
             inject_Z (Sql.LEAST 100 (ip * 25)) * 0.1)%Q <= 100); [|lia].
  apply ROUND_bounds; [lia|]. change (inject_Z 0) with 0%Q. change (inject_Z 100) with 100%Q.
  unfold Sql.completion_rate. rewrite (proj2 (Z.ltb_lt 0 t) Ht).
  pose proof (numeric_div_unit c t Hc Ht) as Hr.
  pose proof (numeric_div_unit o t Ho Ht) as Hx.
  apply weighted_sum_bounds; [done| |apply inject_Z_min_bounds; lia..].
  apply Qmax_0_bounds. lra.
Qed.

(** C1. The SQL routine ends in an error on every call: the statement for
    the priority distribution (lines 56-67) names the column [extras] over
    a derived table that has the columns [priority] and [priority_count]
    only.  On a table of at most 85 899 345 rows the routine runs up to
    that statement and raises 42703 there (on a larger table it has raised
    before).  The bulk strategy therefore yields no report, and no scalar
    field that could be equal to the one of the fallback path. *)
Theorem bulk_routine_raises
    (tasks : list Task.t) (userId : string) (now nextWeekISO : Z) (clock : Timestamp) :
  (∃ sqlstate message,
     Sql.get_task_analytics tasks userId now nextWeekISO clock =
     Sql.Raise sqlstate message) ∧
  (Z.of_nat (length tasks) <= 85899345 →
   Sql.get_task_analytics tasks userId now nextWeekISO clock =
   Sql.Raise "42703" "column extras does not exist").
Proof.
  pose proof (owned_length userId tasks) as Hlen.
  destruct (spec_counts_bounds userId now tasks) as (Hc & Ho & Hi).
  unfold Spec.completed, Spec.inProgress, Spec.pending in *.
  pose proof (count_bounds (λ t, Task.status t = Pending) (Spec.owned userId tasks)) as Hp.
  fold (Spec.total userId tasks) in Hp.
  unfold Sql.get_task_analytics.
  rewrite total_count, !sql_count_status, sql_count_overdue.
  split.
  - repeat (match goal with
            | |- context [Sql.int4 ?n] =>
                destruct (Sql.int4 n); cbn [mbind Sql.Result_bind]; [|by eauto]
            end).
    match goal with
    | |- context [Sql.productivity_score ?t ?ip ?o ?r] =>
        destruct (Sql.productivity_score t ip o r); cbn [mbind Sql.Result_bind]; [|by eauto]
    end.
    rewrite priority_counts_raises. cbn [mbind Sql.Result_bind]. eauto.
  - intros Hmax. rewrite !int4_Ok by lia. cbn [mbind Sql.Result_bind].
    destruct (productivity_score_Ok (Spec.total userId tasks)
                (Spec.count (λ t, Task.status t = Done) (Spec.owned userId tasks))
                (Spec.overdueCount userId now tasks)
                (Spec.count (λ t, Task.status t = InProgress) (Spec.owned userId tasks)))
      as [n ->]; [lia..|].
    cbn [mbind Sql.Result_bind]. by rewrite priority_counts_raises.
Qed.

(** *** The score of the fallback path *)


(** On the tasks of the scenario (10 tasks, 4 done, 2 overdue, 2 in
    progress) the fallback path reports no overdue task, since its query
    for them is rejected, and with it the score 71. *)
Lemma fallback_scenario_score :
  let e := Edge.fallback Spec.scenario "owner" 100 (Handler.nextWeek 100)
             (mkTimestamp 2024 3 2 0) in
  Spec.overdueCount "owner" 100 Spec.scenario = 2 ∧
  (Edge.totalTasks e, Edge.completedTasks e, Edge.inProgressTasks e) = (10, 4, 2) ∧
  Edge.overdueTasks e = 0 ∧
  Edge.completionRate e = 40%float ∧
  Edge.productivityScore e = 71%float.
Proof. cbv zeta. repeat split; by vm_compute. Qed.


End Scalars.

(** ** The request handler *)

Section HandlerProps.
Import Handler.

Lemma handler_get w req store :
  method req = "GET" →
  handler w req store =
    match try_block w req store with
    | (Returns r, store') => (r, store')
    | (Throws error, store') => (Responded (json 500 (ErrorJson (message error))), store')
    end.
Proof. intros Hm. unfold handler. rewrite Hm. reflexivity. Qed.

Lemma try_block_accepted w req user_id store :
  accepted w req user_id →
  try_block w req store =
    let '(allowed, store') := RateLimit.rateLimitCheck (Date_now w) user_id store in
    if negb allowed
    then (Returns (Responded (json 429 (ErrorJson "Rate limit exceeded"))), store')
    else (report w user_id, store').
Proof.
  intros (_ & Hu & Hk & Hauth & Hid). unfold try_block.
  rewrite Hu, Hk, Hauth. simpl. rewrite Hid. simpl.
  by destruct (RateLimit.rateLimitCheck (Date_now w) user_id store).
Qed.

(** When the routine call fails, the handler returns the report object
    itself (index.ts 261), not a [Response]. *)
Lemma fallback_returns_object w req user_id store reply err :
  accepted w req user_id →
  (RateLimit.rateLimitCheck (Date_now w) user_id store).1 = true →
  rpc_get_task_analytics w user_id (Date_now w) (nextWeek (Date_now w)) = Returns reply →
  countsError reply = Some err →
  (handler w req store).1 =
    Object (Edge.fallback (tasks w) user_id (Date_now w) (nextWeek (Date_now w)) (clock w)).
Proof.
  intros Hacc Hrl Hrpc Herr.
  rewrite handler_get by apply Hacc.
  rewrite (try_block_accepted w req user_id store Hacc).
  destruct (RateLimit.rateLimitCheck (Date_now w) user_id store) as [allowed store'].
  simpl in Hrl. subst allowed. simpl. unfold report. by rewrite Hrpc, Herr.
Qed.

Lemma example_accepted getUser rpc :
  getUser = Example.signedIn →
  accepted (Example.world getUser rpc) Example.request Example.userId.
Proof. intros ->. by repeat split. Qed.

(** C7. A signed-in user, the routine not deployed: the handler hands the
    report object to [serve], and no [Response] at all. *)
Theorem fallback_path_yields_no_response :
  let w := Example.world Example.signedIn Example.rpcMissing in
  let returned := (handler w Example.request ∅).1 in
  returned =
    Object (Edge.fallback Example.tasks Example.userId Example.now
              (nextWeek Example.now) Example.clock) ∧
  ∀ r : Response.t, returned ≠ Responded r.
Proof.
  intros w returned.
  assert (returned =
    Object (Edge.fallback Example.tasks Example.userId Example.now
              (nextWeek Example.now) Example.clock)) as H.
  { subst returned w.
    by apply (fallback_returns_object
                (Example.world Example.signedIn Example.rpcMissing)
                Example.request Example.userId ∅
                (mkRpcReply None (Some "function get_task_analytics does not exist"))
                "function get_task_analytics does not exist");
      [apply example_accepted|..]. }
  split; [exact H|]. intros r. rewrite H. discriminate.
Qed.

(** C8, as stated, fails: a deployment without its environment variables
    and one whose sign-in service cannot be reached both end in an internal
    failure, the two responses differ, and each carries the text of the
    error. *)
Lemma internal_failure_discloses_message :
  let w1 := Example.unconfigured in
  let w2 := Example.world (Throws (mkJsError "connect ECONNREFUSED 10.0.0.5:5432"))
              Example.rpcMissing in
  (∃ e s, try_block w1 Example.request ∅ = (Throws e, s)) ∧
  (∃ e s, try_block w2 Example.request ∅ = (Throws e, s)) ∧
  (handler w1 Example.request ∅).1 ≠ (handler w2 Example.request ∅).1 ∧
  (handler w1 Example.request ∅).1 =
    Responded (json 500 (ErrorJson "Missing required environment variables")) ∧
  (handler w2 Example.request ∅).1 =
    Responded (json 500 (ErrorJson "connect ECONNREFUSED 10.0.0.5:5432")).
Proof.
  cbv zeta. split; [|split; [|split; [|split]]].
  - by eexists _, _.
  - by eexists _, _.
  - discriminate.
  - reflexivity.
  - reflexivity.
Qed.

(** C8, amended. A request that ends in an internal failure is answered
    with status 500 and the body [{error: m}], [m] being the message of the
    error that was thrown; two failures are answered alike exactly when
    their messages are the same. *)
Theorem internal_failure_response
    (w1 w2 : World) (req1 req2 : Request) (store1 store2 s1 s2 : gmap string (list Z))
    (e1 e2 : JsError) :
  method req1 = "GET" → method req2 = "GET" →
  try_block w1 req1 store1 = (Throws e1, s1) →
  try_block w2 req2 store2 = (Throws e2, s2) →
  (handler w1 req1 store1).1 = Responded (json 500 (ErrorJson (message e1))) ∧
  (handler w2 req2 store2).1 = Responded (json 500 (ErrorJson (message e2))) ∧
  ((handler w1 req1 store1).1 = (handler w2 req2 store2).1 ↔ message e1 = message e2).
Proof.
  intros Hm1 Hm2 Ht1 Ht2.
  rewrite (handler_get w1 req1 store1 Hm1), (handler_get w2 req2 store2 Hm2), Ht1, Ht2.
  simpl. split; [done|]. split; [done|]. split.
  - intros H. by injection H.
  - by intros ->.
Qed.

Lemma internal_failure_response_witness :
  let w1 := Example.unconfigured in
  let w2 := Example.world (Throws (mkJsError "connect ECONNREFUSED 10.0.0.5:5432"))
              Example.rpcMissing in
  let e1 := mkJsError "Missing required environment variables" in
  let e2 := mkJsError "connect ECONNREFUSED 10.0.0.5:5432" in
  (method Example.request = "GET" ∧
   try_block w1 Example.request ∅ = (Throws e1, ∅) ∧
   try_block w2 Example.request ∅ = (Throws e2, ∅)) ∧
  (handler w1 Example.request ∅).1 = Responded (json 500 (ErrorJson (message e1))) ∧
  (handler w2 Example.request ∅).1 = Responded (json 500 (ErrorJson (message e2))) ∧
  ((handler w1 Example.request ∅).1 = (handler w2 Example.request ∅).1
   ↔ message e1 = message e2).
Proof.
  cbv zeta. split; [by repeat split|].
  exact (internal_failure_response Example.unconfigured
           (Example.world (Throws (mkJsError "connect ECONNREFUSED 10.0.0.5:5432"))
              Example.rpcMissing)
           Example.request Example.request ∅ ∅ ∅ ∅
           (mkJsError "Missing required environment variables")
           (mkJsError "connect ECONNREFUSED 10.0.0.5:5432")
           eq_refl eq_refl eq_refl eq_refl).
Defined.

Lemma busyStore_full :
  (5 ≤ length (List.filter (RateLimit.newer_than (Example.now - 60000))
                 (RateLimit.stored Example.busyStore Example.userId)))%nat.
Proof. vm_compute. lia. Qed.

(** C9, as stated, fails: the user has five requests in the last minute,
    the request is rejected with status 429, and the response names no
    time to wait, neither in a header nor in its body. *)
Lemma rate_limit_rejection_without_retry_after :
  let w := Example.world Example.signedIn Example.rpcMissing in
  (5 ≤ length (List.filter (RateLimit.newer_than (Date_now w - 60000))
                 (RateLimit.stored Example.busyStore Example.userId)))%nat ∧
  ∃ r, (handler w Example.request Example.busyStore).1 = Responded r ∧
       Response.status r = 429 ∧
       header "Retry-After" r = None ∧
       Response.body r = ErrorJson "Rate limit exceeded".
Proof.
  cbv zeta. split; [exact busyStore_full|].
  eexists. split; [by vm_compute|]. by repeat split.
Qed.

(** C9, amended. A request of an identity that has 5 requests within the
    trailing 60 seconds is answered with status 429 and the body
    [{error: "Rate limit exceeded"}]; the response sets no retry-after
    header; the store of the limiter is left as it was, and neither the
    routine nor the task table is read, whatever they hold. *)
Theorem rate_limited_request_rejected
    (w : World) (req : Request) (user_id : string) (store : gmap string (list Z)) :
  accepted w req user_id →
  (5 ≤ length (List.filter (RateLimit.newer_than (Date_now w - 60000))
                 (RateLimit.stored store user_id)))%nat →
  handler w req store =
    (Responded (json 429 (ErrorJson "Rate limit exceeded")), store) ∧
  header "Retry-After" (json 429 (ErrorJson "Rate limit exceeded")) = None ∧
  ∀ rpc tasks',
    handler (mkWorld (Deno_env_get w) (auth_getUser w) (Date_now w) (clock w) rpc tasks')
      req store = handler w req store.
Proof.
  intros Hacc Hfull.
  assert (∀ w', accepted w' req user_id → Date_now w' = Date_now w →
            handler w' req store =
              (Responded (json 429 (ErrorJson "Rate limit exceeded")), store)) as Hany.
  { intros w' Hacc' Hnow.
    rewrite handler_get by apply Hacc'.
    rewrite (try_block_accepted w' req user_id store Hacc'), Hnow.
    pose proof (proj2 (rateLimitCheck_verdict (Date_now w) user_id store) Hfull) as Hv.
    pose proof (rateLimitCheck_rejected (Date_now w) user_id store Hv) as Hs.
    destruct (RateLimit.rateLimitCheck (Date_now w) user_id store) as [allowed store'].
    simpl in Hv, Hs. by subst. }
  split; [by apply Hany|]. split; [reflexivity|].
  intros rpc tasks'. rewrite (Hany w Hacc eq_refl). by apply Hany.
Qed.

Lemma rate_limited_request_rejected_witness :
  let w := Example.world Example.signedIn Example.rpcMissing in
  (accepted w Example.request Example.userId ∧
   (5 ≤ length (List.filter (RateLimit.newer_than (Date_now w - 60000))
                  (RateLimit.stored Example.busyStore Example.userId)))%nat) ∧
  handler w Example.request Example.busyStore =
    (Responded (json 429 (ErrorJson "Rate limit exceeded")), Example.busyStore) ∧
  header "Retry-After" (json 429 (ErrorJson "Rate limit exceeded")) = None ∧
  ∀ rpc tasks',
    handler (mkWorld (Deno_env_get w) (auth_getUser w) (Date_now w) (clock w) rpc tasks')
      Example.request Example.busyStore = handler w Example.request Example.busyStore.
Proof.
  cbv zeta.
  assert (accepted (Example.world Example.signedIn Example.rpcMissing)
            Example.request Example.userId) as Hacc by (by repeat split).
  split; [split; [exact Hacc|exact busyStore_full]|].
  exact (rate_limited_request_rejected _ _ _ _ Hacc busyStore_full).
Defined.

End HandlerProps.

(** ** The first [k] rows of a sorted result *)

Section TopK.
Context {A : Type} (R : relation A) `{!RelDecision R, !Transitive R, !Total R}.

(** A row that was cut off does not come before a row that was kept. *)
Lemma take_sorted_top (k : nat) (l : list A) (x y : A) :
  x ∈ take k (merge_sort R l) → y ∈ l → y ∉ take k (merge_sort R l) → R x y.
Proof.
  intros Hx Hy Hny.
  rewrite <- (merge_sort_Permutation R l), <- (take_drop k (merge_sort R l)) in Hy.
  apply elem_of_app in Hy as [Hy|Hy]; [done|].
  eapply StronglySorted_app_1_elem_of; [|exact Hx|exact Hy].
  rewrite take_drop. by apply StronglySorted_merge_sort.
Qed.

End TopK.

(** ** Upcoming deadlines *)

Section Deadlines.

(** C4. On the fallback path [upcomingDeadlines] is empty whatever the
    tasks are: the query of lines 244-252 compares the [jsonb] member
    [extras->due_date] with the text of an instant, the database rejects
    it, and [(upcomingTasks || [])] makes an empty list of the missing
    rows.  A pending task of the owner that is due three days after [now]
    is not listed. *)
Theorem fallback_lists_no_deadline
    (tasks : list Task.t) (userId : string) (now nextWeekISO : Z) (clock : Timestamp) :
  Edge.upcomingDeadlines (Edge.fallback tasks userId now nextWeekISO clock) = [] ∧
  (let now := Example.now in
   let nextWeekISO := Handler.nextWeek now in
   Example.dueSoon ∈ Spec.owned Example.userId [Example.dueSoon] ∧
   Spec.due_within now nextWeekISO Example.dueSoon ∧
   Edge.upcomingDeadlines
     (Edge.fallback [Example.dueSoon] Example.userId now nextWeekISO Example.clock) = []).
Proof.
  split; [reflexivity|]. cbv zeta. split; [|split; [|reflexivity]].
  - unfold Spec.owned. apply list_elem_of_filter. split; [done|left].
  - by vm_compute.
Qed.

End Deadlines.

(** ** Tags *)

Section Tags.

(** The count of the specification is the number of rows that the
    unnesting of the tag arrays yields for the tag. *)
Lemma occurrences_tag_rows (tag : string) (rows : list Task.t) :
  Spec.occurrences tag rows =
  Z.of_nat (length (List.filter (λ k', bool_decide (k' = tag)) (Sql.tag_rows rows))).
Proof.
  unfold Sql.tag_rows. induction rows as [|t rows IH]; [done|].
  rewrite bind_cons, List.filter_app, length_app, Nat2Z.inj_add, <- IH.
  simpl. by rewrite filter_bool_decide.
Qed.

Lemma occurrences_nonneg tag rows : 0 <= Spec.occurrences tag rows.
Proof. rewrite occurrences_tag_rows. lia. Qed.

Lemma Map_get_None {V} (key : string) (m : list (string * V)) :
  Edge.Map_get key m = None ↔ key ∉ m.*1.
Proof.
  induction m as [|[k v] m IH]; simpl.
  - split; [intros _; apply not_elem_of_nil|done].
  - rewrite not_elem_of_cons. destruct (decide (k = key)) as [->|Hne].
    + split; [done|]. by intros [? _].
    + rewrite IH. split; [by split|by intros [_ ?]].
Qed.

(** A tag that is not the name of an inherited member is not [__proto__]. *)
Lemma own_name_not_proto (tag : string) :
  tag ∉ Edge.Object_prototype.*1 → tag ≠ "__proto__".
Proof.
  intros Hown ->. apply Hown. unfold Edge.Object_prototype. simpl.
  do 10 right. left.
Qed.

(** One step of the inner loop, seen from a key that is no inherited name
    and holds no text. *)
Lemma count_tag_same (m : gmap string Edge.JsValue) (tag : string) :
  tag ∉ Edge.Object_prototype.*1 → holds_no_text m tag →
  Edge.count_tag m tag !! tag = Some (Edge.JsNum (held_count m tag + 1)).
Proof.
  intros Hown Hnum. unfold Edge.count_tag, Edge.assign, Edge.or_zero_plus_one, held_count.
  rewrite bool_decide_false by by apply own_name_not_proto.
  rewrite lookup_insert_eq.
  destruct (m !! tag) as [[n|s]|] eqn:E.
  - done.
  - by destruct (Hnum s).
  - apply Map_get_None in Hown. by rewrite Hown.
Qed.

Lemma count_tag_other (m : gmap string Edge.JsValue) (tag x : string) :
  x ≠ tag → Edge.count_tag m x !! tag = m !! tag.
Proof.
  intros Hne. unfold Edge.count_tag, Edge.assign.
  case_bool_decide; [done|]. by rewrite lookup_insert_ne.
Qed.

(** The inner loop adds, for each tag, the number of its occurrences in the
    array. *)
Lemma count_tag_foldl (tag : string) (tags : list string) :
  tag ∉ Edge.Object_prototype.*1 →
  ∀ m : gmap string Edge.JsValue, holds_no_text m tag →
  let c := Z.of_nat (length (filter (λ x, x = tag) tags)) in
  foldl Edge.count_tag m tags !! tag =
    if c =? 0 then m !! tag else Some (Edge.JsNum (held_count m tag + c)).
Proof.
  intros Hown. induction tags as [|x tags IH]; intros m Hnum; simpl; [done|].
  rewrite filter_cons. destruct (decide (x = tag)) as [->|Hne].
  - pose proof (count_tag_same m tag Hown Hnum) as Hstep.
    rewrite IH.
    + unfold held_count at 1. rewrite Hstep. simpl length.
      set (c := length (filter (λ x, x = tag) tags)).
      destruct (Z.eqb_spec (Z.of_nat c) 0), (Z.eqb_spec (Z.of_nat (S c)) 0);
        try lia; do 2 f_equal; lia.
    + intros s. by rewrite Hstep.
  - rewrite IH.
    + unfold held_count. by rewrite (count_tag_other m tag x Hne).
    + intros s. by rewrite (count_tag_other m tag x Hne).
Qed.

Lemma count_tag_foldl_numeric (tag : string) (tags : list string)
    (m : gmap string Edge.JsValue) :
  tag ∉ Edge.Object_prototype.*1 → holds_no_text m tag →
  holds_no_text (foldl Edge.count_tag m tags) tag.
Proof.
  intros Hown Hnum s. rewrite (count_tag_foldl tag tags Hown m Hnum). cbv zeta.
  destruct (_ =? 0); [apply Hnum|done].
Qed.

Lemma count_task_tags_foldl (tag : string) (tasks : list Task.t) :
  tag ∉ Edge.Object_prototype.*1 →
  ∀ m : gmap string Edge.JsValue, holds_no_text m tag →
  foldl Edge.count_task_tags m tasks !! tag =
    if Spec.occurrences tag tasks =? 0 then m !! tag
    else Some (Edge.JsNum (held_count m tag + Spec.occurrences tag tasks)).
Proof.
  intros Hown. induction tasks as [|t tasks IH]; intros m Hnum; simpl; [done|].
  rewrite IH by by apply count_tag_foldl_numeric.
  unfold Edge.count_task_tags, held_count.
  rewrite (count_tag_foldl tag _ Hown m Hnum). cbv zeta.
  pose proof (occurrences_nonneg tag tasks).
  set (c := Z.of_nat (length (filter (λ x, x = tag) (default [] (tags_of t))))).
  assert (0 <= c) by (subst c; lia). clearbody c.
  set (n := Spec.occurrences tag tasks) in *. clearbody n.
  unfold held_count.
  destruct (Z.eqb_spec n 0), (Z.eqb_spec c 0), (Z.eqb_spec (c + n) 0);
    simpl; try lia; try done; do 2 f_equal; lia.
Qed.

Lemma count_tags_lookup (tasks : list Task.t) (tag : string) :
  tag ∉ Edge.Object_prototype.*1 →
  Edge.count_tags tasks !! tag =
    if Spec.occurrences tag tasks =? 0 then None
    else Some (Edge.JsNum (Spec.occurrences tag tasks)).
Proof.
  intros Hown. unfold Edge.count_tags.
  rewrite (count_task_tags_foldl tag tasks Hown ∅) by (intros s; by rewrite lookup_empty).
  unfold held_count. rewrite lookup_empty. by destruct (_ =? 0).
Qed.

Lemma select_user_owned userId tasks :
  Edge.select [Edge.eq_user_id userId] tasks = Spec.owned userId tasks.
Proof.
  unfold Edge.select, Spec.owned. rewrite <- filter_bool_decide.
  apply List.filter_ext. intros t. simpl. by rewrite andb_true_r.
Qed.

(** The sample of the fallback path: a part of the owner's tasks, and all of
    them when there are at most 1000. *)
Lemma recentTasks_all userId tasks :
  (length (Spec.owned userId tasks) ≤ 1000)%nat →
  Edge.recentTasks tasks userId ≡ₚ Spec.owned userId tasks.
Proof.
  intros Hlen. unfold Edge.recentTasks. rewrite select_user_owned.
  rewrite take_ge.
  - apply merge_sort_Permutation.
  - by rewrite (Permutation_length (merge_sort_Permutation _ _)).
Qed.

Lemma recentTasks_length userId tasks :
  length (Edge.recentTasks tasks userId) = (1000 `min` length (Spec.owned userId tasks))%nat.
Proof.
  unfold Edge.recentTasks. rewrite select_user_owned, length_take.
  by rewrite (Permutation_length (merge_sort_Permutation _ _)).
Qed.

Lemma ts_leb_spec (a b : Timestamp) :
  ts_leb a b ↔
  ts_year a < ts_year b ∨ ts_year a = ts_year b ∧
  (ts_month a < ts_month b ∨ ts_month a = ts_month b ∧
   (ts_day a < ts_day b ∨ ts_day a = ts_day b ∧ ts_millis a <= ts_millis b)).
Proof.
  unfold ts_leb, ts_compare.
  destruct (Z.compare_spec (ts_year a) (ts_year b));
    destruct (Z.compare_spec (ts_month a) (ts_month b));
    destruct (Z.compare_spec (ts_day a) (ts_day b));
    destruct (Z.compare_spec (ts_millis a) (ts_millis b)); simpl; lia.
Qed.

#[local] Instance inserted_at_desc_trans : Transitive Edge.inserted_at_desc.
Proof. intros a b c. unfold Edge.inserted_at_desc. rewrite !ts_leb_spec. lia. Qed.

#[local] Instance inserted_at_desc_total : Total Edge.inserted_at_desc.
Proof. intros a b. unfold Edge.inserted_at_desc. rewrite !ts_leb_spec. lia. Qed.

(** The tasks that the fallback path reads for the distributions and the
    trends. *)
Lemma recentTasks_most_recent userId tasks :
  Spec.most_recent 1000 (Spec.owned userId tasks) (Edge.recentTasks tasks userId).
Proof.
  split; [|split].
  - unfold Edge.recentTasks. rewrite select_user_owned.
    rewrite <- (merge_sort_Permutation Edge.inserted_at_desc (Spec.owned userId tasks)) at 2.
    apply submseteq_take.
  - apply recentTasks_length.
  - unfold Edge.recentTasks. rewrite select_user_owned. intros t t' Ht Ht' Hout.
    by apply (take_sorted_top Edge.inserted_at_desc 1000 (Spec.owned userId tasks) t t').
Qed.

Lemma occurrences_Permutation tag (l l' : list Task.t) :
  l ≡ₚ l' → Spec.occurrences tag l = Spec.occurrences tag l'.
Proof. induction 1; simpl; lia. Qed.

(** A tag that is the name of a member of [Object.prototype] is not
    counted: under [constructor] the object ends up with a text, and
    nothing is stored under [__proto__]. *)
Lemma fallback_tags_inherited_names :
  let e := Edge.fallback [Example.inheritedTag] Example.userId Example.now
             (Handler.nextWeek Example.now) Example.clock in
  Spec.occurrences "constructor" [Example.inheritedTag] = 2 ∧
  Edge.tasksByTag e !! "constructor" =
    Some (Edge.JsStr "function Object() { [native code] }11") ∧
  Spec.occurrences "__proto__" [Example.inheritedTag] = 1 ∧
  Edge.tasksByTag e !! "__proto__" = None.
Proof. cbv zeta. repeat split; by vm_compute. Qed.

(** C6, as stated, fails on the fallback path: of 1001 tasks the oldest is
    not among the 1000 that are read, and the occurrence of its tag adds
    nothing. *)
Lemma fallback_tags_sampled :
  let e := Edge.fallback Example.manyTasks Example.userId Example.now
             (Handler.nextWeek Example.now) Example.clock in
  Example.archived ∈ Spec.owned Example.userId Example.manyTasks ∧
  tags_of Example.archived = Some ["archive"] ∧
  Spec.occurrences "archive" (Spec.owned Example.userId Example.manyTasks) = 1 ∧
  Edge.tasksByTag e !! "archive" = None.
Proof.
  cbv zeta. split; [|repeat split; by vm_compute].
  unfold Spec.owned, Example.manyTasks. apply list_elem_of_filter. split; [done|left].
Qed.

(** C6, amended.  On the fallback path the processed tasks are the
    owner's at most 1000 most recently created ones (all of the owner's
    tasks when there are at most 1000).  For every tag that is not the name
    of a member of [Object.prototype], [tasksByTag] holds the number of
    occurrences of that exact string in the tag lists of the processed
    tasks, one for each occurrence, and no key when there is none.  Tags
    that differ in case are counted apart, and a tag that is twice on one
    task is counted twice. *)
Theorem tags_counted_per_occurrence
    (tasks : list Task.t) (userId : string) (now nextWeekISO : Z) (clock : Timestamp) :
  let owned := Spec.owned userId tasks in
  let sample := Edge.recentTasks tasks userId in
  let e := Edge.fallback tasks userId now nextWeekISO clock in
  (∀ tag, tag ∉ Edge.Object_prototype.*1 →
          Edge.tasksByTag e !! tag =
            if Spec.occurrences tag sample =? 0 then None
            else Some (Edge.JsNum (Spec.occurrences tag sample))) ∧
  Spec.most_recent 1000 owned sample ∧
  ((length owned ≤ 1000)%nat →
     ∀ tag, Spec.occurrences tag sample = Spec.occurrences tag owned) ∧
  Edge.tasksByTag (Edge.fallback Example.tagged Example.userId now nextWeekISO clock) =
    <["Work" := Edge.JsNum 1]> (<["work" := Edge.JsNum 3]> ∅).
Proof.
  intros owned sample e.
  split; [|split; [|split]].
  - intros tag Hown. subst e. unfold Edge.fallback. cbn [Edge.tasksByTag].
    by apply count_tags_lookup.
  - apply recentTasks_most_recent.
  - intros Hlen tag. apply occurrences_Permutation. by apply recentTasks_all.
  - by vm_compute.
Qed.

End Tags.

(** ** Priorities *)

Section Priorities.

(** The loop over the tasks, from any object: a counter that holds a number
    grows by the tasks of its priority; a key that was not there, or held
    [NaN], holds [NaN] once a task has its priority.  Nothing is ever
    stored under [__proto__]. *)
Lemma count_priority_foldl (tasks : list Task.t) : ∀ (m : gmap string Edge.JsNumber) (p : string),
  p ≠ "__proto__" →
  foldl Edge.count_priority m tasks !! p =
    let c := Z.of_nat (length (filter (λ t, Edge.or_string (priority_of t) "medium" = p) tasks)) in
    match m !! p with
    | Some (Edge.Num n) => Some (Edge.Num (n + c))
    | Some Edge.NaN => Some Edge.NaN
    | None => if c =? 0 then None else Some Edge.NaN
    end.
Proof.
  induction tasks as [|t tasks IH]; intros m p Hp.
  - simpl. destruct (m !! p) as [[n|]|]; try done. do 2 f_equal. lia.
  - simpl foldl. rewrite IH by done. cbv zeta. rewrite filter_cons.
    unfold Edge.count_priority, Edge.increment, Edge.assign.
    set (c := length (filter (λ t, Edge.or_string (priority_of t) "medium" = p) tasks)).
    destruct (decide (Edge.or_string (priority_of t) "medium" = p)) as [->|Hne].
    + rewrite bool_decide_false by done. rewrite lookup_insert_eq. simpl length.
      destruct (m !! _) as [[n|]|]; try done.
      do 2 f_equal. lia.
    + case_bool_decide; [done|]. by rewrite lookup_insert_ne.
Qed.

Lemma count_priority_foldl_proto (tasks : list Task.t) :
  ∀ m : gmap string Edge.JsNumber,
  foldl Edge.count_priority m tasks !! "__proto__" = m !! "__proto__".
Proof.
  induction tasks as [|t tasks IH]; intros m; [done|].
  simpl foldl. rewrite IH. unfold Edge.count_priority, Edge.increment, Edge.assign.
  case_bool_decide as Hk; [done|]. by rewrite lookup_insert_ne.
Qed.

Lemma or_string_valid (t : Task.t) :
  Spec.priority_valid t →
  Edge.or_string (priority_of t) "medium" = Spec.effective_priority t ∧
  Spec.effective_priority t ∈ ["low"; "medium"; "high"].
Proof.
  unfold Spec.priority_valid, Spec.effective_priority. intros H.
  repeat (apply elem_of_cons in H as [->|H]); [..|by inv H]; simpl; split;
    try done; set_solver.
Qed.

Lemma priority_count_valid (p : string) (tasks : list Task.t) :
  Forall Spec.priority_valid tasks →
  Z.of_nat (length (filter (λ t, Edge.or_string (priority_of t) "medium" = p) tasks)) =
  Spec.priority_count p tasks.
Proof.
  unfold Spec.priority_count, Spec.count.
  induction 1 as [|t tasks Ht _ IH]; [done|].
  rewrite !filter_cons. destruct (or_string_valid t Ht) as [-> _].
  destruct (decide (Spec.effective_priority t = p)); simpl length; lia.
Qed.

Lemma priority_count_sum (tasks : list Task.t) :
  Forall Spec.priority_valid tasks →
  Spec.priority_count "low" tasks + Spec.priority_count "medium" tasks +
  Spec.priority_count "high" tasks = Z.of_nat (length tasks).
Proof.
  unfold Spec.priority_count, Spec.count.
  induction 1 as [|t tasks Ht _ IH]; [done|].
  rewrite !filter_cons. destruct (or_string_valid t Ht) as [_ Hin].
  repeat (apply elem_of_cons in Hin as [->|Hin]); [..|by inv Hin];
    repeat case_decide; try done; simpl length; lia.
Qed.

Lemma count_Permutation (P : Task.t → Prop) `{∀ t, Decision (P t)} (l l' : list Task.t) :
  l ≡ₚ l' → Spec.count P l = Spec.count P l'.
Proof. unfold Spec.count. by intros ->. Qed.

(** C5, as stated, fails on the fallback path: of 1001 tasks 1000 are read,
    and the three values add up to 1000. *)
Lemma fallback_priorities_sampled :
  let e := Edge.fallback Example.manyTasks Example.userId Example.now
             (Handler.nextWeek Example.now) Example.clock in
  Edge.totalTasks e = 1001 ∧
  Edge.tasksByPriority e =
    <["high" := Edge.Num 0]> (<["medium" := Edge.Num 1000]> (<["low" := Edge.Num 0]> ∅)).
Proof. cbv zeta. split; by vm_compute. Qed.

(** C5, amended.  On the fallback path, when every processed task has a
    stored priority that is absent or one of the three values:
    [tasksByPriority] has exactly the keys low, medium and high, each with
    the number of processed tasks of that effective priority, and these add
    up to the number of processed tasks, which are the owner's at most 1000
    most recently created tasks (all of them when there are at most
    1000). *)
Theorem priority_distribution
    (tasks : list Task.t) (userId : string) (now nextWeekISO : Z) (clock : Timestamp) :
  let owned := Spec.owned userId tasks in
  let sample := Edge.recentTasks tasks userId in
  let e := Edge.fallback tasks userId now nextWeekISO clock in
  Forall Spec.priority_valid sample →
  (∀ p, is_Some (Edge.tasksByPriority e !! p) ↔ p ∈ ["low"; "medium"; "high"]) ∧
  (∀ p, p ∈ ["low"; "medium"; "high"] →
        Edge.tasksByPriority e !! p = Some (Edge.Num (Spec.priority_count p sample))) ∧
  Spec.priority_count "low" sample + Spec.priority_count "medium" sample +
    Spec.priority_count "high" sample = Z.of_nat (length sample) ∧
  Spec.most_recent 1000 owned sample ∧
  ((length owned ≤ 1000)%nat →
     Z.of_nat (length sample) = Spec.total userId tasks ∧
     ∀ p, Spec.priority_count p sample = Spec.priority_count p owned).
Proof.
  intros owned sample e Hvalid.
  assert (∀ p, Edge.tasksByPriority e !! p =
               if bool_decide (p ∈ ["low"; "medium"; "high"])
               then Some (Edge.Num (Spec.priority_count p sample))
               else None) as Hlookup.
  { intros p. subst e. unfold Edge.fallback. cbn [Edge.tasksByPriority].
    fold sample. unfold Edge.count_priorities.
    destruct (decide (p = "__proto__")) as [->|Hp].
    { rewrite count_priority_foldl_proto. by vm_compute. }
    rewrite count_priority_foldl by done. cbv zeta.
    rewrite (priority_count_valid p sample Hvalid).
    destruct (decide (p ∈ ["low"; "medium"; "high"])) as [Hin|Hnin].
    - rewrite (bool_decide_true _ Hin).
      repeat (apply elem_of_cons in Hin as [->|Hin]); [..|by inv Hin];
        by vm_compute (_ !! _).
    - rewrite (bool_decide_false _ Hnin).
      rewrite !lookup_insert_ne, lookup_empty by set_solver.
      assert (Spec.priority_count p sample = 0) as ->; [|done].
      unfold Spec.priority_count, Spec.count.
      clear -Hvalid Hnin. induction Hvalid as [|t l Ht _ IH]; [done|].
      rewrite filter_cons. destruct (or_string_valid t Ht) as [_ Hin].
      destruct (decide (Spec.effective_priority t = p)) as [<-|]; done. }
  split; [|split; [|split; [|split]]].
  - intros p. rewrite Hlookup. case_bool_decide; split; try done.
  - intros p Hin. by rewrite Hlookup, bool_decide_true.
  - by apply priority_count_sum.
  - apply recentTasks_most_recent.
  - intros Hlen. pose proof (recentTasks_all userId tasks Hlen) as Hperm. split.
    + unfold Spec.total. subst sample. by rewrite Hperm.
    + intros p. by apply count_Permutation.
Qed.

Lemma priority_distribution_witness :
  let tasks := Example.tasks in
  let userId := Example.userId in
  let owned := Spec.owned userId tasks in
  let sample := Edge.recentTasks tasks userId in
  let e := Edge.fallback tasks userId Example.now (Handler.nextWeek Example.now) Example.clock in
  Forall Spec.priority_valid sample ∧
  (∀ p, is_Some (Edge.tasksByPriority e !! p) ↔ p ∈ ["low"; "medium"; "high"]) ∧
  (∀ p, p ∈ ["low"; "medium"; "high"] →
        Edge.tasksByPriority e !! p = Some (Edge.Num (Spec.priority_count p sample))) ∧
  Spec.priority_count "low" sample + Spec.priority_count "medium" sample +
    Spec.priority_count "high" sample = Z.of_nat (length sample) ∧
  Spec.most_recent 1000 owned sample ∧
  ((length owned ≤ 1000)%nat →
     Z.of_nat (length sample) = Spec.total userId tasks ∧
     ∀ p, Spec.priority_count p sample = Spec.priority_count p owned).
Proof.
  cbv zeta.
  assert (Forall Spec.priority_valid (Edge.recentTasks Example.tasks Example.userId)) as H.
  { vm_compute. repeat constructor. }
  split; [exact H|].
  exact (priority_distribution Example.tasks Example.userId Example.now
           (Handler.nextWeek Example.now) Example.clock H).
Defined.

End Priorities.

(** ** Monthly trends *)

Section Months.

Lemma days_in_month_min (y m : Z) : 28 <= days_in_month y m.
Proof.
  unfold days_in_month.
  destruct (m =? 2); [by destruct (is_leap_year y)|].
  by destruct ((m =? 4) || (m =? 6) || (m =? 9) || (m =? 11)).
Qed.

(** Up to the 28th, [setMonth] only moves the month. *)
Lemma setMonth_month (date : Timestamp) (m : Z) :
  ts_day date <= 28 →
  month_of (Edge.setMonth date m) = Spec.month_at (ts_year date * 12 + m).
Proof.
  intros Hday. unfold Edge.setMonth, Spec.month_at.
  pose proof (days_in_month_min (ts_year date + m / 12) (m mod 12 + 1)) as Hmin.
  rewrite (proj2 (Z.leb_le _ _)) by lia.
  unfold month_of. simpl.
  f_equal; Z.div_mod_to_equations; lia.
Qed.

Lemma month_at_inj (a b : Z) : Spec.month_at a = Spec.month_at b → a = b.
Proof.
  unfold Spec.month_at. intros H. injection H as Hd Hm.
  Z.div_mod_to_equations. lia.
Qed.

Lemma month_at_index (k : Z * Z) :
  1 <= k.2 <= 12 → Spec.month_at (month_index k) = k.
Proof.
  destruct k as [y m]. unfold Spec.month_at, month_index. simpl. intros Hm.
  f_equal; Z.div_mod_to_equations; lia.
Qed.

Lemma last6Months_months (clock : Timestamp) :
  ts_day clock <= 28 →
  Edge.last6Months clock =
    (λ i, Spec.month_at (month_index (month_of clock) - 5 + i)) <$> [0; 1; 2; 3; 4; 5].
Proof.
  intros Hday. unfold Edge.last6Months, Edge.getMonth, month_index. simpl.
  rewrite !setMonth_month by done. unfold reverse. simpl.
  repeat match goal with
         | |- _ :: _ = _ :: _ =>
             apply (f_equal2 cons); [apply (f_equal Spec.month_at); lia|]
         end.
  reflexivity.
Qed.

(** *** The insertion-ordered map *)

Lemma Map_set_fresh {K V} `{EqDecision K} (k : K) (v : V) (m : list (K * V)) :
  k ∉ m.*1 → Edge.Map_set k v m = m ++ [(k, v)].
Proof.
  induction m as [|[k' v'] m IH]; intros Hk; simpl; [done|].
  rewrite fmap_cons in Hk. apply not_elem_of_cons in Hk as [Hne Hk]. simpl in Hne.
  destruct (decide (k' = k)); [congruence|]. by rewrite IH.
Qed.

Lemma add_month_foldl (months : list (Z * Z)) : ∀ acc : list (Z * Z * (Z * Z)),
  NoDup (acc.*1 ++ months) →
  foldl Edge.add_month acc months = acc ++ ((λ k, (k, (0, 0))) <$> months).
Proof.
  induction months as [|k months IH]; intros acc Hnd; simpl.
  - by rewrite app_nil_r.
  - unfold Edge.add_month at 2. rewrite Map_set_fresh.
    + rewrite IH.
      * by rewrite <- app_assoc.
      * rewrite fmap_app, <- app_assoc. exact Hnd.
    + apply NoDup_app in Hnd as (_ & Hdisj & _). intros Hin.
      apply (Hdisj k Hin). left.
Qed.

(** *** One task *)

Lemma created_in_one (k : Z * Z) (t : Task.t) :
  Spec.created_in k [t] = if decide (month_of (Task.inserted_at t) = k) then 1 else 0.
Proof.
  unfold Spec.created_in, Spec.count. rewrite filter_cons, filter_nil.
  by destruct (decide (month_of (Task.inserted_at t) = k)).
Qed.

Lemma completed_in_one (k : Z * Z) (t : Task.t) :
  Spec.completed_in k [t] =
    if decide (month_of (Task.inserted_at t) = k)
    then if decide (Task.status t = Done) then 1 else 0
    else 0.
Proof.
  unfold Spec.completed_in, Spec.count. rewrite filter_cons, filter_nil.
  destruct (decide (month_of (Task.inserted_at t) = k)),
    (decide (Task.status t = Done)); by case_decide; try tauto.
Qed.

Lemma created_in_cons (k : Z * Z) (t : Task.t) (l : list Task.t) :
  Spec.created_in k (t :: l) = Spec.created_in k [t] + Spec.created_in k l.
Proof.
  unfold Spec.created_in, Spec.count. rewrite !filter_cons, filter_nil.
  case_decide; simpl length; lia.
Qed.

Lemma completed_in_cons (k : Z * Z) (t : Task.t) (l : list Task.t) :
  Spec.completed_in k (t :: l) = Spec.completed_in k [t] + Spec.completed_in k l.
Proof.
  unfold Spec.completed_in, Spec.count. rewrite !filter_cons, filter_nil.
  case_decide; simpl length; lia.
Qed.

(** The loop body on a map with a bucket in front. *)
Lemma count_month_cons (k : Z * Z) (c r : Z) (md : list (Z * Z * (Z * Z))) (t : Task.t) :
  Edge.count_month ((k, (c, r)) :: md) t =
    if decide (k = month_of (Task.inserted_at t))
    then (k, (if bool_decide (Task.status t = Done) then c + 1 else c, r + 1)) :: md
    else (k, (c, r)) :: Edge.count_month md t.
Proof.
  unfold Edge.count_month. simpl.
  destruct (decide (k = month_of (Task.inserted_at t))) as [->|Hne]; simpl.
  - done.
  - by destruct (Edge.Map_get _ md) as [[c' r']|].
Qed.

Lemma count_month_step (md : list (Z * Z * (Z * Z))) (t : Task.t) :
  NoDup md.*1 →
  Edge.count_month md t =
    (λ e, (e.1, (e.2.1 + Spec.completed_in e.1 [t], e.2.2 + Spec.created_in e.1 [t]))) <$> md.
Proof.
  induction md as [|[k [c r]] md IH]; intros Hnd; [done|].
  rewrite fmap_cons in Hnd. apply NoDup_cons in Hnd as [Hk Hnd]. simpl in Hk.
  rewrite count_month_cons, fmap_cons. simpl.
  rewrite created_in_one, completed_in_one.
  destruct (decide (k = month_of (Task.inserted_at t))) as [Heq|Hne].
  - destruct (decide (month_of (Task.inserted_at t) = k)); [|congruence]. f_equal.
    + do 2 f_equal. case_bool_decide; case_decide; try done; lia.
    + clear IH Hnd. induction md as [|[k' [c' r']] md IH]; [done|].
      rewrite fmap_cons in Hk. apply not_elem_of_cons in Hk as [Hne Hk]. simpl in Hne.
      rewrite fmap_cons. simpl. rewrite created_in_one, completed_in_one.
      destruct (decide (month_of (Task.inserted_at t) = k')); [congruence|].
      rewrite !Z.add_0_r. f_equal. by apply IH.
  - destruct (decide (month_of (Task.inserted_at t) = k)); [congruence|].
    rewrite !Z.add_0_r. f_equal. by apply IH.
Qed.

(** The loop over the tasks, from a map whose keys are distinct: each bucket
    gains the tasks created in its month. *)
Lemma count_month_foldl (tasks : list Task.t) : ∀ md : list (Z * Z * (Z * Z)),
  NoDup md.*1 →
  foldl Edge.count_month md tasks =
    (λ e, (e.1, (e.2.1 + Spec.completed_in e.1 tasks, e.2.2 + Spec.created_in e.1 tasks)))
      <$> md.
Proof.
  induction tasks as [|t tasks IH]; intros md Hnd.
  - simpl. induction md as [|[k [c r]] md IHmd]; [done|].
    rewrite fmap_cons in Hnd. apply NoDup_cons in Hnd as [_ Hnd].
    rewrite fmap_cons, <- IHmd by done. simpl.
    unfold Spec.completed_in, Spec.created_in, Spec.count. simpl.
    by rewrite !Z.add_0_r.
  - simpl foldl. rewrite (count_month_step md t Hnd), IH.
    + rewrite <- list_fmap_compose. apply list_fmap_ext. intros _ [k [c r]] _. simpl.
      rewrite (created_in_cons k t tasks), (completed_in_cons k t tasks).
      do 2 f_equal; lia.
    + rewrite <- list_fmap_compose.
      by replace (fst ∘ _ <$> md) with (md.*1) by (by apply list_fmap_ext).
Qed.

(** *** The fallback path, up to the 28th of a month *)

Lemma fallback_monthly (sample : list Task.t) (clock : Timestamp) :
  ts_day clock <= 28 →
  Edge.monthly sample clock =
    (λ i, let k := Spec.month_at (month_index (month_of clock) - 5 + i) in
          mkMonthEntry k (Spec.completed_in k sample) (Spec.created_in k sample))
      <$> [0; 1; 2; 3; 4; 5].
Proof.
  intros Hday. unfold Edge.monthly.
  rewrite (last6Months_months clock Hday).
  set (months := (λ i, Spec.month_at (month_index (month_of clock) - 5 + i))
                   <$> [0; 1; 2; 3; 4; 5]).
  assert (NoDup months) as Hnd.
  { apply NoDup_fmap_2.
    - intros i j Heq. apply month_at_inj in Heq. lia.
    - by apply (bool_decide_unpack _). }
  rewrite (add_month_foldl months []) by done. rewrite app_nil_l.
  rewrite count_month_foldl.
  - subst months. rewrite <- !list_fmap_compose. by apply list_fmap_ext.
  - rewrite <- list_fmap_compose.
    by replace (fst ∘ _ <$> months) with months by (by rewrite list_fmap_id).
Qed.

(** On the 31st (and on the 29th and 30th of some months) [setMonth] runs
    over into the next month: two of the six texts repeat a month, and the
    map keeps four buckets. *)
Lemma fallback_months_on_the_31st :
  month <$> Edge.monthly [] (mkTimestamp 2024 3 31 0) =
    [(2023, 10); (2023, 12); (2024, 1); (2024, 3)].
Proof. by vm_compute. Qed.

(** C3, as stated, fails on the fallback path: of 1001 tasks the one created
    in September 2023 is not among the 1000 that are read, and the bucket
    of that month counts no task. *)
Lemma fallback_months_sampled :
  let e := Edge.fallback Example.manyTasks Example.userId Example.now
             (Handler.nextWeek Example.now) Example.clock in
  Spec.created_in (2023, 9) (Spec.owned Example.userId Example.manyTasks) = 1 ∧
  Edge.monthlyTrends e =
    [mkMonthEntry (2023, 6) 0 0; mkMonthEntry (2023, 7) 0 0; mkMonthEntry (2023, 8) 0 0;
     mkMonthEntry (2023, 9) 0 0; mkMonthEntry (2023, 10) 0 0;
     mkMonthEntry (2023, 11) 0 1000].
Proof. cbv zeta. split; by vm_compute. Qed.

(** C3, amended.  On the fallback path, up to the 28th of a month:
    [monthlyTrends] has exactly the 6 entries of the months from 5 months
    before the current month to the current month, in this order, each
    with the number of processed tasks created in that month and the
    number of those that are done, 0 where there are none; the processed
    tasks are the owner's at most 1000 most recently created tasks, all of
    them when there are at most 1000. *)
Theorem monthlyTrends_buckets
    (tasks : list Task.t) (userId : string) (now nextWeekISO : Z) (clock : Timestamp) :
  let owned := Spec.owned userId tasks in
  let sample := Edge.recentTasks tasks userId in
  let e := Edge.fallback tasks userId now nextWeekISO clock in
  1 <= ts_month clock <= 12 →
  ts_day clock <= 28 →
  Edge.monthlyTrends e =
    (λ i, let k := Spec.month_at (month_index (month_of clock) - 5 + i) in
          mkMonthEntry k (Spec.completed_in k sample) (Spec.created_in k sample))
      <$> [0; 1; 2; 3; 4; 5] ∧
  Spec.month_at (month_index (month_of clock)) = month_of clock ∧
  Spec.most_recent 1000 owned sample ∧
  ((length owned ≤ 1000)%nat →
     ∀ k, Spec.created_in k sample = Spec.created_in k owned ∧
          Spec.completed_in k sample = Spec.completed_in k owned).
Proof.
  intros owned sample e Hmonth Hday.
  split; [|split; [|split]].
  - subst e. unfold Edge.fallback. cbn [Edge.monthlyTrends]. by apply fallback_monthly.
  - by apply month_at_index.
  - apply recentTasks_most_recent.
  - intros Hlen k. pose proof (recentTasks_all userId tasks Hlen) as Hsample.
    split; by apply count_Permutation.
Qed.

Lemma monthlyTrends_buckets_witness :
  let tasks := Example.tasks in
  let userId := Example.userId in
  let clock := Example.clock in
  let owned := Spec.owned userId tasks in
  let sample := Edge.recentTasks tasks userId in
  let e := Edge.fallback tasks userId Example.now (Handler.nextWeek Example.now) clock in
  (1 <= ts_month clock <= 12 ∧ ts_day clock <= 28) ∧
  Edge.monthlyTrends e =
    (λ i, let k := Spec.month_at (month_index (month_of clock) - 5 + i) in
          mkMonthEntry k (Spec.completed_in k sample) (Spec.created_in k sample))
      <$> [0; 1; 2; 3; 4; 5] ∧
  Spec.month_at (month_index (month_of clock)) = month_of clock ∧
  Spec.most_recent 1000 owned sample ∧
  ((length owned ≤ 1000)%nat →
     ∀ k, Spec.created_in k sample = Spec.created_in k owned ∧
          Spec.completed_in k sample = Spec.completed_in k owned).
Proof.
  cbv zeta.
  assert (1 <= ts_month Example.clock <= 12) as Hm by (simpl; lia).
  assert (ts_day Example.clock <= 28) as Hd by (simpl; lia).
  split; [by split|].
  exact (monthlyTrends_buckets Example.tasks Example.userId Example.now
           (Handler.nextWeek Example.now) Example.clock Hm Hd).
Defined.

End Months.

(** * Further properties *)

(** ** The rate limiter over runs of calls *)

Section RateLimitRuns.
Import RateLimit.

Lemma consistent_mono last last' store adm :
  last <= last' → consistent last store adm → consistent last' store adm.
Proof.
  intros Hle [Hwin Hlast]. split.
  - intros u b Hb. apply Hwin. lia.
  - eapply Forall_impl; [exact Hlast|]. simpl. intros; lia.
Qed.

(** Once the store is tied to the log, the verdict can be read off the
    log. *)
Lemma verdict_of_log last now u store adm :
  consistent last store adm → last <= now →
  (rateLimitCheck now u store).1 = negb (5 <=? length (admitted_in_window now u adm))%nat.
Proof.
  intros [Hwin _] Hle. unfold admitted_in_window. rewrite <- Hwin by lia.
  pose proof (rateLimitCheck_verdict now u store) as Hv.
  destruct (rateLimitCheck now u store).1; destruct (Nat.leb_spec 5
    (length (List.filter (newer_than (now - windowMs)) (stored store u)))); simpl; try done.
  - destruct Hv as [_ Hv]. by rewrite Hv.
  - destruct Hv as [Hv _]. specialize (Hv eq_refl). lia.
Qed.

Lemma admitted_of_other u v t adm :
  v ≠ u → admitted_of u (adm ++ [(t, v)]) = admitted_of u adm.
Proof.
  intros Hne. rewrite admitted_of_app. unfold admitted_of at 2. simpl.
  rewrite bool_decide_false by done. simpl. by rewrite app_nil_r.
Qed.

(** Two runs, one over all calls and one over the calls of a single
    identity, admit the same calls of that identity. *)
Lemma run_own_calls calls : ∀ last store1 adm1 store2 adm2 now u,
  consistent last store1 adm1 → consistent last store2 adm2 →
  admitted_of u adm1 = admitted_of u adm2 →
  ordered_from last (calls ++ [(now, u)]) →
  let own := List.filter (λ c : Z * string, bool_decide (c.2 = u)) calls in
  ∃ last', last' <= now ∧
    consistent last' (run calls store1 adm1).1 (run calls store1 adm1).2 ∧
    consistent last' (run own store2 adm2).1 (run own store2 adm2).2 ∧
    admitted_of u (run calls store1 adm1).2 = admitted_of u (run own store2 adm2).2.
Proof.
  induction calls as [|[t v] calls IH]; intros last store1 adm1 store2 adm2 now u H1 H2 Heq Hord.
  - simpl in *. exists last. repeat split; try done; try apply H1; try apply H2. lia.
  - simpl in Hord. destruct Hord as [Hle Hord]. simpl.
    pose proof (consistent_step last t v store1 adm1 H1 Hle) as Hstep1.
    pose proof (verdict_of_log last t v store1 adm1 H1 Hle) as Hv1.
    destruct (decide (v = u)) as [->|Hne].
    + rewrite bool_decide_true by done. simpl.
      pose proof (consistent_step last t u store2 adm2 H2 Hle) as Hstep2.
      pose proof (verdict_of_log last t u store2 adm2 H2 Hle) as Hv2.
      assert ((rateLimitCheck t u store1).1 = (rateLimitCheck t u store2).1) as Hsame.
      { rewrite Hv1, Hv2. unfold admitted_in_window. by rewrite Heq. }
      clear Hv1 Hv2.
      destruct (rateLimitCheck t u store1) as [ok1 s1], (rateLimitCheck t u store2) as [ok2 s2].
      simpl in Hsame, Hstep1, Hstep2 |- *. subst ok2.
      apply (IH t); try done.
      destruct ok1; [|done]. by rewrite !admitted_of_app, Heq.
    + rewrite bool_decide_false by done. clear Hv1.
      destruct (rateLimitCheck t v store1) as [ok1 s1]. simpl in Hstep1 |- *.
      apply (IH t); try done.
      * by apply (consistent_mono last).
      * destruct ok1; [|done]. by rewrite admitted_of_other.
Qed.

(** The log of admitted calls is a part of the calls. *)
Lemma run_admitted_sublist calls : ∀ store adm,
  ∃ extra, (run calls store adm).2 = adm ++ extra ∧ sublist extra calls.
Proof.
  induction calls as [|[t v] calls IH]; intros store adm; simpl.
  - exists []. by rewrite app_nil_r.
  - destruct (rateLimitCheck t v store) as [ok s].
    destruct (IH s (if ok then adm ++ [(t, v)] else adm)) as (extra & -> & Hsub).
    destruct ok.
    + exists ((t, v) :: extra). rewrite <- app_assoc. split; [done|]. by constructor.
    + exists extra. split; [done|]. by constructor.
Qed.

Lemma sublist_filter_length {A} (f : A → bool) (l1 l2 : list A) :
  sublist l1 l2 → (length (List.filter f l1) ≤ length (List.filter f l2))%nat.
Proof.
  induction 1 as [|x l1 l2 _ IH|x l1 l2 _ IH]; simpl; [done|..];
    destruct (f x); simpl; lia.
Qed.

Lemma admitted_in_window_filter now u log :
  admitted_in_window now u log =
  map fst (List.filter (λ c : Z * string,
             bool_decide (c.2 = u) && newer_than (now - windowMs) c.1) log).
Proof.
  unfold admitted_in_window, admitted_of.
  induction log as [|[t v] log IH]; simpl; [done|].
  destruct (bool_decide (v = u)); simpl; [|done].
  destruct (newer_than (now - windowMs) t); simpl; by rewrite IH.
Qed.

(** X3. Over any run of calls in clock order from the empty store: the
    verdict on a call is the one it would get had the other identities
    made no calls at all. *)
Theorem rateLimitCheck_per_identity (calls : list (Z * string)) (now : Z) (userId : string) :
  chronological (calls ++ [(now, userId)]) →
  let own := List.filter (λ c : Z * string, bool_decide (c.2 = userId)) calls in
  (rateLimitCheck now userId (run calls ∅ []).1).1 =
  (rateLimitCheck now userId (run own ∅ []).1).1.
Proof.
  intros Hchr own. destruct (chronological_ordered _ _ _ Hchr) as [last0 Hord].
  destruct (run_own_calls calls last0 ∅ [] ∅ [] now userId
              (consistent_empty last0) (consistent_empty last0) eq_refl Hord)
    as (last & Hle & H1 & H2 & Heq).
  fold own in H2, Heq.
  rewrite (verdict_of_log last now userId _ _ H1 Hle).
  rewrite (verdict_of_log last now userId _ _ H2 Hle).
  unfold admitted_in_window. by rewrite Heq.
Qed.

Lemma rateLimitCheck_per_identity_witness :
  let calls := [(1000, "u"); (1500, "v"); (2000, "u"); (2500, "v"); (3000, "u")] in
  chronological (calls ++ [(4000, "u")]) ∧
  let own := List.filter (λ c : Z * string, bool_decide (c.2 = "u")) calls in
  (rateLimitCheck 4000 "u" (run calls ∅ []).1).1 =
  (rateLimitCheck 4000 "u" (run own ∅ []).1).1.
Proof.
  assert (H : chronological
            ([(1000, "u"); (1500, "v"); (2000, "u"); (2500, "v"); (3000, "u")]
               ++ [(4000, "u")])) by (simpl; lia).
  split; [exact H|].
  exact (rateLimitCheck_per_identity _ 4000 "u" H).
Defined.

(** X2. Over any run of calls in clock order from the empty store: a call
    is rejected only if the identity made at least 5 calls, admitted or
    not, within the 60 seconds before it.  So the first five calls of an
    identity are admitted, and so is a call after 60 seconds of silence. *)
Theorem rateLimitCheck_rejects_only_bursts
    (calls : list (Z * string)) (now : Z) (userId : string) :
  chronological (calls ++ [(now, userId)]) →
  (rateLimitCheck now userId (run calls ∅ []).1).1 = false →
  (5 ≤ length (List.filter
                 (λ c : Z * string,
                    bool_decide (c.2 = userId) && newer_than (now - windowMs) c.1)
                 calls))%nat.
Proof.
  intros Hchr Hv. destruct (chronological_ordered _ _ _ Hchr) as [last0 Hord].
  destruct (run_consistent calls ∅ [] last0 now userId (consistent_empty last0) Hord)
    as (last & Hle & Hcons).
  rewrite (verdict_of_log last now userId _ _ Hcons Hle) in Hv.
  apply negb_false_iff, Nat.leb_le in Hv.
  destruct (run_admitted_sublist calls ∅ []) as (extra & Hlog & Hsub).
  rewrite Hlog, app_nil_l, admitted_in_window_filter, length_map in Hv.
  etrans; [exact Hv|]. by apply sublist_filter_length.
Qed.

Lemma rateLimitCheck_rejects_only_bursts_witness :
  let calls := [(1000, "u"); (2000, "u"); (3000, "u"); (4000, "u"); (5000, "u")] in
  (chronological (calls ++ [(6000, "u")]) ∧
   (rateLimitCheck 6000 "u" (run calls ∅ []).1).1 = false) ∧
  (5 ≤ length (List.filter
                 (λ c : Z * string,
                    bool_decide (c.2 = "u") && newer_than (6000 - windowMs) c.1)
                 calls))%nat.
Proof.
  assert (H : chronological
            ([(1000, "u"); (2000, "u"); (3000, "u"); (4000, "u"); (5000, "u")]
               ++ [(6000, "u")])) by (simpl; lia).
  assert (Hv : (rateLimitCheck 6000 "u"
                  (run [(1000, "u"); (2000, "u"); (3000, "u"); (4000, "u"); (5000, "u")]
                     ∅ []).1).1 = false) by (by vm_compute).
  split; [by split|].
  exact (rateLimitCheck_rejects_only_bursts _ 6000 "u" H Hv).
Defined.

(** One call keeps every held list between 1 and 5 entries long. *)
Lemma rateLimitCheck_lists_bounded now u store :
  map_Forall (λ _ requests, (1 ≤ length requests ≤ 5)%nat) store →
  map_Forall (λ _ requests, (1 ≤ length requests ≤ 5)%nat) (rateLimitCheck now u store).2.
Proof.
  intros Hinv. unfold rateLimitCheck, maxRequests.
  destruct (5 <=? _)%nat eqn:E; [done|]. apply Nat.leb_gt in E.
  set (recent := List.filter (newer_than (now - windowMs)) (stored store u)) in *.
  assert (map_Forall (λ _ requests, (1 ≤ length requests ≤ 5)%nat)
            (<[u := recent ++ [now]]> store)) as Hins.
  { apply map_Forall_insert_2; [|done]. rewrite length_app. simpl. lia. }
  destruct (10000 <? _); simpl; [|done].
  intros v l. unfold sweep. rewrite lookup_omap.
  destruct (<[u := recent ++ [now]]> store !! v) as [l0|] eqn:Hl0; simpl; [|done].
  specialize (Hins v l0 Hl0). simpl in Hins.
  pose proof (List.filter_length_le (newer_than (now - windowMs * 2)) l0) as Hlen.
  destruct (List.filter (newer_than (now - windowMs * 2)) l0) as [|x l1] eqn:Hf; [done|].
  intros [= <-]. simpl in *. lia.
Qed.

(** X4. After any run of calls from the empty store, in any order of
    timestamps, every list that the store holds has at least 1 and at most
    5 timestamps. *)
Theorem rateLimitStore_lists_bounded (calls : list (Z * string)) :
  map_Forall (λ _ requests, (1 ≤ length requests ≤ 5)%nat) (run calls ∅ []).1.
Proof.
  assert (∀ store adm,
    map_Forall (λ _ requests, (1 ≤ length requests ≤ 5)%nat) store →
    map_Forall (λ _ requests, (1 ≤ length requests ≤ 5)%nat) (run calls store adm).1) as H.
  { induction calls as [|[t v] calls IH]; intros store adm Hinv; [done|]. simpl.
    pose proof (rateLimitCheck_lists_bounded t v store Hinv) as Hstep.
    destruct (rateLimitCheck t v store) as [ok s]. by apply IH. }
  apply H, map_Forall_empty.
Qed.

End RateLimitRuns.

Section RateLimitSweep.
Import RateLimit.

(** X5. An admitted call on a store of more than 10000 identities sweeps
    it: every list that is left is not empty and holds only timestamps of
    the last 120 seconds, the list of another identity keeps exactly its
    timestamps of the last 120 seconds, and another identity is removed
    exactly when it has none. *)
Theorem rateLimitCheck_sweeps_idle (now : Z) (userId : string) (store : gmap string (list Z)) :
  (rateLimitCheck now userId store).1 = true →
  10000 < Z.of_nat (size store) →
  let store' := (rateLimitCheck now userId store).2 in
  (∀ v requests, store' !! v = Some requests →
     requests ≠ [] ∧ Forall (λ t, now - 120000 < t) requests) ∧
  (∀ v, v ≠ userId →
     stored store' v = List.filter (newer_than (now - 120000)) (stored store v) ∧
     (store' !! v = None ↔ Forall (λ t, t <= now - 120000) (stored store v))).
Proof.
  intros Hv Hsize store'. subst store'. revert Hv.
  unfold rateLimitCheck, maxRequests.
  destruct (5 <=? _)%nat; [discriminate|]. intros _.
  set (recent := List.filter (newer_than (now - windowMs)) (stored store userId) ++ [now]).
  assert ((10000 <? Z.of_nat (size (<[userId := recent]> store))) = true) as ->.
  { apply Z.ltb_lt. rewrite map_size_insert. destruct (store !! userId); unfold id; lia. }
  simpl. change (now - windowMs * 2) with (now - 120000).
  assert (∀ l, List.filter (newer_than (now - 120000)) l = [] ↔
               Forall (λ t, t <= now - 120000) l) as Hidle.
  { induction l as [|t l IH]; simpl.
    - split; [constructor|done].
    - rewrite Forall_cons, <- IH. unfold newer_than at 1.
      destruct (Z.ltb_spec (now - 120000) t); split; try discriminate; try tauto; try lia. }
  split.
  - intros v requests. unfold sweep. rewrite lookup_omap.
    destruct (<[userId := recent]> store !! v) as [l|]; simpl; [|done].
    destruct (List.filter (newer_than (now - 120000)) l) as [|x l'] eqn:Hf; [done|].
    intros [= <-]. split; [done|]. rewrite <- Hf.
    eapply Forall_impl; [apply (Forall_filter_newer (λ _, True)), Forall_true; done|].
    simpl. tauto.
  - intros v Hne. split.
    + by rewrite stored_sweep, stored_insert_ne.
    + rewrite <- Hidle. unfold sweep, stored. rewrite lookup_omap, lookup_insert_ne by done.
      destruct (store !! v) as [l|]; simpl; [|done].
      destruct (List.filter (newer_than (now - 120000)) l); split; done.
Qed.

Lemma rateLimitCheck_sweeps_idle_witness :
  let now := 200000 in
  let store := Crowded.store in
  ((rateLimitCheck now "u" store).1 = true ∧ 10000 < Z.of_nat (size store)) ∧
  let store' := (rateLimitCheck now "u" store).2 in
  (∀ v requests, store' !! v = Some requests →
     requests ≠ [] ∧ Forall (λ t, now - 120000 < t) requests) ∧
  (∀ v, v ≠ "u" →
     stored store' v = List.filter (newer_than (now - 120000)) (stored store v) ∧
     (store' !! v = None ↔ Forall (λ t, t <= now - 120000) (stored store v))).
Proof.
  assert (H1 : (rateLimitCheck 200000 "u" Crowded.store).1 = true)
    by (by vm_compute).
  assert (H2 : 10000 < Z.of_nat (size Crowded.store)) by (by vm_compute).
  split; [by split|].
  exact (rateLimitCheck_sweeps_idle 200000 "u" Crowded.store H1 H2).
Defined.

End RateLimitSweep.

Section RateLimitGuarantee.
Import RateLimit.

Lemma in_window_bound (t now : Z) (u : string) (adm : list (Z * string)) :
  now <= t → Forall (λ c, c.1 <= now) adm →
  (length (List.filter (in_window t u) adm) ≤ length (admitted_in_window now u adm))%nat.
Proof.
  intros Hle Hadm. rewrite admitted_in_window_filter, length_map.
  induction Hadm as [|c adm Hc _ IH]; simpl; [done|].
  unfold in_window at 1. unfold newer_than at 1.
  destruct (bool_decide (c.2 = u)); simpl; [|done].
  unfold windowMs in *.
  destruct (Z.ltb_spec (t - 60000) c.1), (Z.ltb_spec (now - 60000) c.1),
    (Z.leb_spec c.1 t); simpl; lia.
Qed.

Lemma run_within_limit calls : ∀ last store adm,
  consistent last store adm → ordered_from last calls →
  (∀ t u, (length (List.filter (in_window t u) adm) ≤ 5)%nat) →
  ∀ t u, (length (List.filter (in_window t u) (run calls store adm).2) ≤ 5)%nat.
Proof.
  induction calls as [|[now v] calls IH]; intros last store adm Hc Hord Hinv; [done|].
  simpl in Hord. destruct Hord as [Hle Hord]. simpl.
  pose proof (consistent_step last now v store adm Hc Hle) as Hstep.
  pose proof (verdict_of_log last now v store adm Hc Hle) as Hv.
  destruct (rateLimitCheck now v store) as [ok store']. simpl in Hstep. cbn [fst] in Hv.
  apply (IH now); try done.
  destruct ok; [|done]. intros t u.
  rewrite List.filter_app, length_app. simpl.
  destruct (in_window t u (now, v)) eqn:Hin; simpl; [|specialize (Hinv t u); lia].
  unfold in_window in Hin. simpl in Hin.
  apply andb_true_iff in Hin as [Hin Hnt]. apply andb_true_iff in Hin as [Hu _].
  apply bool_decide_eq_true in Hu. subst v. apply Z.leb_le in Hnt.
  symmetry in Hv. apply negb_true_iff, Nat.leb_gt in Hv.
  destruct Hc as [_ Hlast].
  assert (Forall (λ c : Z * string, c.1 <= now) adm) as Hadm.
  { eapply Forall_impl; [exact Hlast|]. simpl. intros; lia. }
  pose proof (in_window_bound t now u adm Hnt Hadm). lia.
Qed.

(** X1. Over any run of calls in clock order from the empty store, and for
    every instant [t] and identity: at most 5 of the identity's calls with a
    timestamp in the 60 seconds that end at [t] were admitted. *)
Theorem rateLimitCheck_at_most_five_per_window
    (calls : list (Z * string)) (t : Z) (userId : string) :
  chronological calls →
  (length (List.filter (in_window t userId) (run calls ∅ []).2) ≤ 5)%nat.
Proof.
  intros Hchr.
  assert (∃ last, ordered_from last calls) as [last Hord].
  { destruct calls as [|c calls]; [by exists 0|]. exists c.1. simpl in *. split; [lia|done]. }
  apply (run_within_limit calls last ∅ [] (consistent_empty last) Hord).
  intros t' u. simpl. lia.
Qed.

Lemma rateLimitCheck_at_most_five_per_window_witness :
  let calls :=
    [(1000, "u"); (2000, "u"); (3000, "u"); (4000, "u"); (5000, "u"); (6000, "u");
     (62000, "u")] in
  chronological calls ∧
  (length (List.filter (in_window 62000 "u") (run calls ∅ []).2) ≤ 5)%nat.
Proof.
  assert (H : chronological
            [(1000, "u"); (2000, "u"); (3000, "u"); (4000, "u"); (5000, "u"); (6000, "u");
             (62000, "u")]) by (simpl; lia).
  split; [exact H|].
  exact (rateLimitCheck_at_most_five_per_window _ 62000 "u" H).
Defined.

End RateLimitGuarantee.

(** ** The identifier check *)

Section Uuid.
Import Handler.

Lemma is_hex_spec (c : ascii) :
  is_hex c = bool_decide (c ∈ String.list_ascii_of_string "0123456789abcdefABCDEF").
Proof. destruct c as [[] [] [] [] [] [] [] []]; by vm_compute. Qed.

Lemma is_variant_spec (c : ascii) :
  is_variant c = bool_decide (c ∈ String.list_ascii_of_string "89abAB").
Proof. destruct c as [[] [] [] [] [] [] [] []]; by vm_compute. Qed.

(** A text matches two classes in a row when it splits into a text for
    each. *)
Lemma test_app (r1 r2 : list (ascii → bool)) (s : string) :
  test (r1 ++ r2) s = true ↔
  ∃ s1 s2, s = s1 +:+ s2 ∧ String.length s1 = length r1 ∧
           test r1 s1 = true ∧ test r2 s2 = true.
Proof.
  revert s. induction r1 as [|cls r1 IH]; intros s; simpl.
  - split.
    + intros H. by exists "", s.
    + intros (s1 & s2 & -> & Hlen & _ & H). by destruct s1.
  - destruct s as [|c s].
    + split; [done|]. intros (s1 & s2 & Heq & Hlen & _). by destruct s1.
    + rewrite andb_true_iff, IH. split.
      * intros (Hc & s1 & s2 & -> & Hlen & H1 & H2).
        exists (String c s1), s2. simpl. rewrite Hc, H1, Hlen. by repeat split.
      * intros (s1 & s2 & Heq & Hlen & H1 & H2).
        destruct s1 as [|c1 s1]; [done|]. simpl in *.
        injection Heq as -> ->. apply andb_true_iff in H1 as [Hc H1].
        split; [done|]. exists s1, s2. repeat split; try done. lia.
Qed.

Lemma test_replicate (n : nat) (cls : ascii → bool) (s : string) :
  test (replicate n cls) s = true ↔
  String.length s = n ∧ ∀ x, x ∈ String.list_ascii_of_string s → cls x = true.
Proof.
  revert s. induction n as [|n IH]; intros [|c s]; simpl.
  - split; [|done]. intros _. split; [done|]. intros x Hx. by apply elem_of_nil in Hx.
  - split; [done|]. intros [? _]. done.
  - split; [done|]. intros [? _]. done.
  - rewrite andb_true_iff, IH. split.
    + intros (Hc & Hlen & Hs). split; [by rewrite Hlen|].
      intros x Hx. apply elem_of_cons in Hx as [->|Hx]; [done|by apply Hs].
    + intros [Hlen Hs]. split; [apply Hs; left|]. split; [lia|].
      intros x Hx. apply Hs. by right.
Qed.

Lemma test_one (cls : ascii → bool) (s : string) :
  test [cls] s = true ↔ ∃ c, s = String c "" ∧ cls c = true.
Proof.
  destruct s as [|c [|c' s]]; simpl.
  - split; [done|]. by intros (c & ? & _).
  - rewrite andb_true_r. split.
    + intros H. by exists c.
    + by intros (c' & [= ->] & H).
  - rewrite andb_false_r. split; [done|]. by intros (c0 & ? & _).
Qed.


Lemma list_ascii_of_string_app (s1 s2 : string) :
  String.list_ascii_of_string (s1 +:+ s2) =
  String.list_ascii_of_string s1 ++ String.list_ascii_of_string s2.
Proof. induction s1 as [|c s1 IH]; simpl; [done|]. by rewrite IH. Qed.

(** X6. [isValidUUID] accepts exactly the texts of the form
    [a-b-4c-vd-e] in which [a], [b], [c], [d], [e] have 8, 4, 3, 3 and 12
    hexadecimal digits of either case and [v] is one of 8, 9, a, b, A, B:
    36 characters, version 4, variant 10. *)
Theorem isValidUUID_shape (uuid : string) :
  isValidUUID uuid = true ↔
  ∃ (a b c d e : string) (v : ascii),
    uuid = a +:+ "-" +:+ b +:+ "-4" +:+ c +:+ "-" +:+ String v d +:+ "-" +:+ e ∧
    String.length a = 8%nat ∧ String.length b = 4%nat ∧ String.length c = 3%nat ∧
    String.length d = 3%nat ∧ String.length e = 12%nat ∧
    v ∈ String.list_ascii_of_string "89abAB" ∧
    ∀ x, x ∈ String.list_ascii_of_string (a +:+ b +:+ c +:+ d +:+ e) →
         x ∈ String.list_ascii_of_string "0123456789abcdefABCDEF".
Proof.
  unfold isValidUUID, uuidRegex. split.
  - intros H.
    apply test_app in H as (a & t1 & -> & _ & Ha & H).
    apply test_app in H as (s1 & t2 & -> & _ & H1 & H).
    apply test_app in H as (b & t3 & -> & _ & Hb & H).
    apply test_app in H as (s2 & t4 & -> & _ & H2 & H).
    apply test_app in H as (s3 & t5 & -> & _ & H3 & H).
    apply test_app in H as (c & t6 & -> & _ & Hc & H).
    apply test_app in H as (s4 & t7 & -> & _ & H4 & H).
    apply test_app in H as (sv & t8 & -> & _ & Hv & H).
    apply test_app in H as (d & t9 & -> & _ & Hd & H).
    apply test_app in H as (s5 & e & -> & _ & H5 & He).
    apply test_one in H1 as (c1 & -> & ->%bool_decide_eq_true).
    apply test_one in H2 as (c2 & -> & ->%bool_decide_eq_true).
    apply test_one in H3 as (c3 & -> & ->%bool_decide_eq_true).
    apply test_one in H4 as (c4 & -> & ->%bool_decide_eq_true).
    apply test_one in H5 as (c5 & -> & ->%bool_decide_eq_true).
    apply test_one in Hv as (v & -> & Hv).
    rewrite is_variant_spec in Hv. apply bool_decide_eq_true in Hv.
    apply test_replicate in Ha as [Hla Ha], Hb as [Hlb Hb], Hc as [Hlc Hc],
      Hd as [Hld Hd], He as [Hle He].
    exists a, b, c, d, e, v. repeat split; try done.
    intros x Hx. rewrite !list_ascii_of_string_app, !elem_of_app in Hx.
    apply (bool_decide_eq_true _). rewrite <- is_hex_spec.
    destruct Hx as [?|[?|[?|[?|?]]]]; auto.
  - intros (a & b & c & d & e & v & -> & Hla & Hlb & Hlc & Hld & Hle & Hv & Hhex).
    assert (∀ s, (∀ x, x ∈ String.list_ascii_of_string s →
                       x ∈ String.list_ascii_of_string (a +:+ b +:+ c +:+ d +:+ e)) →
                 ∀ x, x ∈ String.list_ascii_of_string s → is_hex x = true) as Hpart.
    { intros s Hs x Hx. rewrite is_hex_spec. apply bool_decide_eq_true. by apply Hhex, Hs. }
    assert (∀ x, x ∈ String.list_ascii_of_string (a +:+ b +:+ c +:+ d +:+ e) ↔
                 x ∈ String.list_ascii_of_string a ∨ x ∈ String.list_ascii_of_string b ∨
                 x ∈ String.list_ascii_of_string c ∨ x ∈ String.list_ascii_of_string d ∨
                 x ∈ String.list_ascii_of_string e) as Hall.
    { intros x. by rewrite !list_ascii_of_string_app, !elem_of_app. }
    apply test_app. exists a, ("-" +:+ b +:+ "-4" +:+ c +:+ "-" +:+ String v d +:+ "-" +:+ e).
    split; [done|]. split; [by rewrite Hla|]. split.
    { apply test_replicate. split; [done|]. apply Hpart. intros x ?. apply Hall. tauto. }
    apply test_app. exists "-", (b +:+ "-4" +:+ c +:+ "-" +:+ String v d +:+ "-" +:+ e).
    repeat split; try done.
    apply test_app. exists b, ("-4" +:+ c +:+ "-" +:+ String v d +:+ "-" +:+ e).
    split; [done|]. split; [by rewrite Hlb|]. split.
    { apply test_replicate. split; [done|]. apply Hpart. intros x ?. apply Hall. tauto. }
    apply test_app. exists "-", ("4" +:+ c +:+ "-" +:+ String v d +:+ "-" +:+ e).
    repeat split; try done.
    apply test_app. exists "4", (c +:+ "-" +:+ String v d +:+ "-" +:+ e).
    repeat split; try done.
    apply test_app. exists c, ("-" +:+ String v d +:+ "-" +:+ e).
    split; [done|]. split; [by rewrite Hlc|]. split.
    { apply test_replicate. split; [done|]. apply Hpart. intros x ?. apply Hall. tauto. }
    apply test_app. exists "-", (String v d +:+ "-" +:+ e).
    repeat split; try done.
    apply test_app. exists (String v ""), (d +:+ "-" +:+ e).
    split; [done|]. split; [done|]. split.
    { apply test_one. exists v. split; [done|].
      rewrite is_variant_spec. by apply bool_decide_eq_true. }
    apply test_app. exists d, ("-" +:+ e).
    split; [done|]. split; [by rewrite Hld|]. split.
    { apply test_replicate. split; [done|]. apply Hpart. intros x ?. apply Hall. tauto. }
    apply test_app. exists "-", e.
    repeat split; try done.
    apply test_replicate. split; [done|]. apply Hpart. intros x ?. apply Hall. tauto.
Qed.

End Uuid.

(** ** The checks of the handler *)

Section HandlerTable.
Import Handler.

(** What the handler does with a request for which the checks before the
    rate limiter have passed and the limiter has said yes. *)
Lemma handler_accepted w req user_id store :
  accepted w req user_id →
  handler w req store =
    let '(allowed, store') := RateLimit.rateLimitCheck (Date_now w) user_id store in
    if allowed then
      match report w user_id with
      | Returns r => (r, store')
      | Throws e => (Responded (json 500 (ErrorJson (message e))), store')
      end
    else (Responded (json 429 (ErrorJson "Rate limit exceeded")), store').
Proof.
  intros Hacc. rewrite handler_get by apply Hacc.
  rewrite (try_block_accepted w req user_id store Hacc).
  destruct (RateLimit.rateLimitCheck (Date_now w) user_id store) as [[] store']; simpl; [|done].
  by destruct (report w user_id).
Qed.

(** The checks of the handler, in the order in which they are made. *)
Lemma handler_cases w req store :
  (method req = "OPTIONS" ∧
   handler w req store = (Responded (Response.mk 200 corsHeaders (Text "ok")), store)) ∨
  (method req ≠ "OPTIONS" ∧ method req ≠ "GET" ∧
   handler w req store = (Responded (json 405 (ErrorJson "Method not allowed")), store)) ∨
  (method req = "GET" ∧ ¬ configured w ∧
   handler w req store =
     (Responded (json 500 (ErrorJson "Missing required environment variables")), store)) ∨
  (method req = "GET" ∧ configured w ∧
   ∃ e, auth_getUser w (Authorization req) = Throws e ∧
        handler w req store = (Responded (json 500 (ErrorJson (message e))), store)) ∨
  (method req = "GET" ∧ configured w ∧
   ∃ reply, auth_getUser w (Authorization req) = Returns reply ∧
            (is_Some (userError reply) ∨ user reply = None) ∧
            handler w req store = (Responded (json 401 (ErrorJson "Unauthorized")), store)) ∨
  (method req = "GET" ∧ configured w ∧
   ∃ user_id, auth_getUser w (Authorization req) = Returns (mkUserReply (Some user_id) None) ∧
              isValidUUID user_id = false ∧
              handler w req store =
                (Responded (json 400 (ErrorJson "Invalid user ID")), store)) ∨
  (∃ user_id, accepted w req user_id).
Proof.
  unfold handler.
  destruct (decide (method req = "OPTIONS")) as [Ho|Ho].
  { left. by rewrite bool_decide_true. }
  rewrite (bool_decide_false _ Ho). right.
  destruct (decide (method req = "GET")) as [Hg|Hg].
  2: { left. by rewrite bool_decide_false. }
  rewrite (bool_decide_true _ Hg). simpl. right.
  unfold try_block.
  destruct (falsy (Deno_env_get w "SUPABASE_URL")) eqn:Hu.
  { left. simpl. repeat split; try done. intros [? _]. congruence. }
  destruct (falsy (Deno_env_get w "SUPABASE_ANON_KEY")) eqn:Hk.
  { left. simpl. repeat split; try done. intros [_ ?]. congruence. }
  simpl. right.
  destruct (auth_getUser w (Authorization req)) as [[u err]|e] eqn:Hauth.
  2: { left. repeat split; try done. by exists e. }
  right. simpl.
  destruct err as [err|].
  { left. repeat split; try done. eexists. split; [done|]. split; [left; by eexists|done]. }
  destruct u as [user_id|].
  2: { left. repeat split; try done. eexists. split; [done|]. split; [by right|done]. }
  right.
  destruct (isValidUUID user_id) eqn:Hid.
  - right. exists user_id. by repeat split.
  - left. repeat split; try done. by exists user_id.
Qed.


(** The three ways in which the report step ends. *)
Lemma report_cases w user_id :
  let rpc := rpc_get_task_analytics w user_id (Date_now w) (nextWeek (Date_now w)) in
  (∃ e, report w user_id = Throws e ∧
        (rpc = Throws e ∨
         rpc = Returns (mkRpcReply None None) ∧
         e = mkJsError "Cannot read properties of null (reading '0')")) ∨
  (∃ reply, rpc = Returns reply ∧ is_Some (countsError reply) ∧
     report w user_id =
       Returns (Object (Edge.fallback (tasks w) user_id (Date_now w)
                          (nextWeek (Date_now w)) (clock w)))) ∨
  (∃ rows, rpc = Returns (mkRpcReply (Some rows) None) ∧
     report w user_id =
       Returns (Responded (json 200 (AnalyticsJson (default emptyAnalytics (head rows)))))).
Proof.
  unfold report. cbv zeta.
  destruct (rpc_get_task_analytics w user_id (Date_now w) (nextWeek (Date_now w)))
    as [[data err]|e]; simpl.
  - destruct err as [err|].
    + right. left. eexists. split; [done|]. split; [by eexists|done].
    + destruct data as [rows|].
      * right. right. by exists rows.
      * left. eexists. split; [done|]. by right.
  - left. exists e. split; [done|]. by left.
Qed.

(** X9. Every [Response] of the handler has one of the statuses 200, 400,
    401, 405, 429, 500 and is built with both CORS headers; every one but
    the answer to OPTIONS is built with the content type
    [application/json]. *)
Theorem handler_response_headers
    (w : World) (req : Request) (store : gmap string (list Z)) (r : Response.t) :
  (handler w req store).1 = Responded r →
  Response.status r ∈ [200; 400; 401; 405; 429; 500] ∧
  header "Access-Control-Allow-Origin" r = Some "*" ∧
  header "Access-Control-Allow-Headers" r =
    Some "authorization, x-client-info, apikey, content-type" ∧
  (method req ≠ "OPTIONS" → header "Content-Type" r = Some "application/json").
Proof.
  assert (∀ st b, st ∈ [200; 400; 401; 405; 429; 500] →
            Response.status (json st b) ∈ [200; 400; 401; 405; 429; 500] ∧
            header "Access-Control-Allow-Origin" (json st b) = Some "*" ∧
            header "Access-Control-Allow-Headers" (json st b) =
              Some "authorization, x-client-info, apikey, content-type" ∧
            (method req ≠ "OPTIONS" →
             header "Content-Type" (json st b) = Some "application/json")) as Hjson.
  { intros st b Hst. by repeat split. }
  assert (∀ st : Z, st ∈ [200; 400; 401; 405; 429; 500] ↔
            st = 200 ∨ st = 400 ∨ st = 401 ∨ st = 405 ∨ st = 429 ∨ st = 500) as Hin.
  { intros st. rewrite !elem_of_cons, elem_of_nil. tauto. }
  intros Hr.
  destruct (handler_cases w req store)
    as [[Hm H]|[(Hm & Hg & H)|[(Hm & _ & H)|[(Hm & _ & e & _ & H)|
         [(Hm & _ & reply & _ & _ & H)|[(Hm & _ & id & _ & _ & H)|[id Hacc]]]]]]];
    try (rewrite H in Hr; simpl in Hr; injection Hr as <-).
  - repeat split; try done. apply Hin; tauto.
  - apply Hjson, Hin; tauto.
  - apply Hjson, Hin; tauto.
  - apply Hjson, Hin; tauto.
  - apply Hjson, Hin; tauto.
  - apply Hjson, Hin; tauto.
  - rewrite (handler_accepted w req id store Hacc) in Hr.
    destruct (RateLimit.rateLimitCheck (Date_now w) id store) as [[] store'].
    + destruct (report_cases w id) as [(e & He & _)|[(reply & _ & _ & He)|(rows & _ & He)]];
        cbv zeta in He; rewrite He in Hr; simpl in Hr; try discriminate;
        injection Hr as <-; apply Hjson, Hin; tauto.
    + simpl in Hr. injection Hr as <-. apply Hjson, Hin; tauto.
Qed.

(** A request without its environment variables: the handler throws inside
    and answers with status 500. *)
Lemma handler_response_headers_witness :
  let w := Example.unconfigured in
  let req := Example.request in
  let r := json 500 (ErrorJson "Missing required environment variables") in
  (handler w req ∅).1 = Responded r ∧
  Response.status r ∈ [200; 400; 401; 405; 429; 500] ∧
  header "Access-Control-Allow-Origin" r = Some "*" ∧
  header "Access-Control-Allow-Headers" r =
    Some "authorization, x-client-info, apikey, content-type" ∧
  (method req ≠ "OPTIONS" → header "Content-Type" r = Some "application/json").
Proof.
  cbv zeta. split; [reflexivity|].
  exact (handler_response_headers Example.unconfigured Example.request ∅
           (json 500 (ErrorJson "Missing required environment variables")) eq_refl).
Defined.

(** X10. The handler leaves the store of the rate limiter as it was,
    unless the request passed every check before the limiter and was
    admitted, in which case the store is the one that [rateLimitCheck]
    returned, whatever happens to the request afterwards. *)
Theorem handler_store_frame (w : World) (req : Request) (store : gmap string (list Z)) :
  (handler w req store).2 = store ∨
  ∃ user_id, accepted w req user_id ∧
             RateLimit.rateLimitCheck (Date_now w) user_id store =
               (true, (handler w req store).2).
Proof.
  destruct (handler_cases w req store)
    as [[Hm H]|[(Hm & Hg & H)|[(Hm & _ & H)|[(Hm & _ & e & _ & H)|
         [(Hm & _ & reply & _ & _ & H)|[(Hm & _ & id & _ & _ & H)|[id Hacc]]]]]]];
    try (left; by rewrite H).
  rewrite (handler_accepted w req id store Hacc).
  destruct (RateLimit.rateLimitCheck (Date_now w) id store) as [[] store'] eqn:Hrl.
  - right. exists id. split; [done|]. by destruct (report w id).
  - left. pose proof (rateLimitCheck_rejected (Date_now w) id store) as Hrej.
    rewrite Hrl in Hrej. by apply Hrej.
Qed.

(** X7. The answers that blame the request.  405 is the answer exactly
    to the methods other than OPTIONS and GET; 401 exactly to a GET on a
    configured deployment for which [auth.getUser()] comes back with an
    error or without a user; 400 exactly to a GET on a configured
    deployment from a signed-in user whose id is not a version-4 UUID. *)
Theorem handler_client_errors (w : World) (req : Request) (store : gmap string (list Z)) :
  ((handler w req store).1 = Responded (json 405 (ErrorJson "Method not allowed")) ↔
     method req ≠ "OPTIONS" ∧ method req ≠ "GET") ∧
  ((handler w req store).1 = Responded (json 401 (ErrorJson "Unauthorized")) ↔
     method req = "GET" ∧ configured w ∧
     ∃ reply, auth_getUser w (Authorization req) = Returns reply ∧
              (is_Some (userError reply) ∨ user reply = None)) ∧
  ((handler w req store).1 = Responded (json 400 (ErrorJson "Invalid user ID")) ↔
     method req = "GET" ∧ configured w ∧
     ∃ user_id, auth_getUser w (Authorization req) =
                  Returns (mkUserReply (Some user_id) None) ∧
                isValidUUID user_id = false).
Proof.
  assert (∀ id, accepted w req id →
            ∀ st b, (handler w req store).1 = Responded (json st b) →
                    st = 200 ∨ st = 429 ∨ st = 500)
    as Hacc_st.
  { intros id Hacc st b. rewrite (handler_accepted w req id store Hacc).
    destruct (RateLimit.rateLimitCheck (Date_now w) id store) as [[] store'].
    - destruct (report_cases w id) as [(e & He & _)|[(reply & _ & _ & He)|(rows & _ & He)]];
        cbv zeta in He; rewrite He; simpl; intros [= <-]; tauto.
    - simpl. intros [= <-]. tauto. }
  assert (∀ st b, (handler w req store).1 = Responded (json st b) →
            st = 400 ∨ st = 401 ∨ st = 405 →
            (method req ≠ "OPTIONS" ∧ method req ≠ "GET" ∧ st = 405) ∨
            (method req = "GET" ∧ configured w ∧ st = 401 ∧
             ∃ reply, auth_getUser w (Authorization req) = Returns reply ∧
                      (is_Some (userError reply) ∨ user reply = None)) ∨
            (method req = "GET" ∧ configured w ∧ st = 400 ∧
             ∃ user_id, auth_getUser w (Authorization req) =
                          Returns (mkUserReply (Some user_id) None) ∧
                        isValidUUID user_id = false)) as Hfrom.
  { intros st b Hr Hst.
    destruct (handler_cases w req store)
      as [[Hm H]|[(Hm & Hg & H)|[(Hm & Hc & H)|[(Hm & Hc & e & Ha & H)|
           [(Hm & Hc & reply & Ha & He & H)|[(Hm & Hc & id & Ha & Hid & H)|[id Hacc]]]]]]];
      try (rewrite H in Hr; simpl in Hr; injection Hr; intros; subst st).
    - lia.
    - by left.
    - lia.
    - lia.
    - right. left. repeat split; try done; try apply Hc. by exists reply.
    - right. right. repeat split; try done; try apply Hc. by exists id.
    - apply (Hacc_st id Hacc) in Hr. lia. }
  split; [|split]; split.
  - intros Hr. apply Hfrom in Hr; [|tauto].
    destruct Hr as [(? & ? & _)|[(_ & _ & ? & _)|(_ & _ & ? & _)]]; done.
  - intros [Ho Hg]. unfold handler.
    by rewrite (bool_decide_false _ Ho), (bool_decide_false _ Hg).
  - intros Hr. apply Hfrom in Hr; [|tauto].
    destruct Hr as [(_ & _ & ?)|[(? & ? & _ & ?)|(_ & _ & ? & _)]]; done.
  - intros (Hm & [Hu Hk] & reply & Ha & He). unfold handler, try_block.
    rewrite Hm, Hu, Hk, Ha. simpl. destruct reply as [u [err|]]; [done|].
    destruct u as [id|]; [|done]. simpl in He. destruct He as [[? [=]]|[=]].
  - intros Hr. apply Hfrom in Hr; [|tauto].
    destruct Hr as [(_ & _ & ?)|[(_ & _ & ? & _)|(? & ? & _ & ?)]]; done.
  - intros (Hm & [Hu Hk] & id & Ha & Hid). unfold handler, try_block.
    rewrite Hm, Hu, Hk, Ha. simpl. by rewrite Hid.
Qed.


(** X8. The handler answers with status 200 and a report exactly when the
    request passes every check, the limiter admits it and the routine call
    comes back without an error; the report is the first row of the data,
    or the all-zero report when there is no row. *)
Theorem handler_success
    (w : World) (req : Request) (store : gmap string (list Z))
    (analytics : Edge.TaskAnalytics) :
  (handler w req store).1 = Responded (json 200 (AnalyticsJson analytics)) ↔
  ∃ user_id rows,
    accepted w req user_id ∧
    (RateLimit.rateLimitCheck (Date_now w) user_id store).1 = true ∧
    rpc_get_task_analytics w user_id (Date_now w) (nextWeek (Date_now w)) =
      Returns (mkRpcReply (Some rows) None) ∧
    analytics = default emptyAnalytics (head rows).
Proof.
  split.
  - intros Hr.
    destruct (handler_cases w req store)
      as [[Hm H]|[(Hm & Hg & H)|[(Hm & Hc & H)|[(Hm & Hc & e & Ha & H)|
           [(Hm & Hc & reply & Ha & He & H)|[(Hm & Hc & id & Ha & Hid & H)|[id Hacc]]]]]]];
      try (rewrite H in Hr; simpl in Hr; discriminate Hr).
    rewrite (handler_accepted w req id store Hacc) in Hr.
    destruct (RateLimit.rateLimitCheck (Date_now w) id store) as [[] store'] eqn:Hrl;
      [|discriminate Hr].
    destruct (report_cases w id) as [(e & He & _)|[(reply & _ & _ & He)|(rows & Hrpc & He)]];
      cbv zeta in He; rewrite He in Hr; simpl in Hr; try discriminate Hr.
    injection Hr as <-. exists id, rows. by rewrite Hrl.
  - intros (id & rows & Hacc & Hrl & Hrpc & ->).
    rewrite (handler_accepted w req id store Hacc).
    destruct (RateLimit.rateLimitCheck (Date_now w) id store) as [allowed store'].
    simpl in Hrl. subst allowed. unfold report. by rewrite Hrpc.
Qed.

End HandlerTable.

(** ** The reports read the rows of the owner *)

Section Isolation.

Lemma select_owned (userId : string) (filters : list (Task.t → bool)) (table : list Task.t) :
  Edge.select (Edge.eq_user_id userId :: filters) table =
  Edge.select filters (Spec.owned userId table).
Proof.
  unfold Edge.select, Spec.owned. rewrite <- filter_bool_decide, filter_filter_andb.
  apply List.filter_ext. intros t. reflexivity.
Qed.

(** X12. The report of the fallback path depends on the rows of the owner
    only. *)
Theorem fallback_reads_own_tasks
    (tasks tasks' : list Task.t) (userId : string) (now nextWeekISO : Z) (clock : Timestamp) :
  Spec.owned userId tasks = Spec.owned userId tasks' →
  Edge.fallback tasks userId now nextWeekISO clock =
  Edge.fallback tasks' userId now nextWeekISO clock.
Proof.
  intros Hown. unfold Edge.fallback, Edge.head_count, Edge.upcoming, Edge.rows.
  cbn [Edge.prepare Edge.lt_due_date Edge.gte_due_date].
  unfold Edge.count_exact, Edge.recentTasks.
  by rewrite !select_owned, Hown.
Qed.

Lemma fallback_reads_own_tasks_witness :
  let other :=
    Task.mk "o1" "9b2f6c1e-0d43-4c55-8a77-0f5e2d9c3b10" "Someone else's task" Done
      (Some (Extras.mk (Some ["ops"]) (Some Example.now) (Some "low")))
      (mkTimestamp 2023 11 1 0) in
  let tasks' := other :: Example.tasks ++ [other] in
  Spec.owned Example.userId Example.tasks = Spec.owned Example.userId tasks' ∧
  Edge.fallback Example.tasks Example.userId Example.now
    (Handler.nextWeek Example.now) Example.clock =
  Edge.fallback tasks' Example.userId Example.now
    (Handler.nextWeek Example.now) Example.clock.
Proof.
  cbv zeta. split; [reflexivity|].
  exact (fallback_reads_own_tasks Example.tasks _ Example.userId Example.now
           (Handler.nextWeek Example.now) Example.clock eq_refl).
Defined.

End Isolation.

Section CountsMore.

Lemma spec_status_partition (rows : list Task.t) :
  Spec.count (λ t, Task.status t = Pending) rows +
  Spec.count (λ t, Task.status t = InProgress) rows +
  Spec.count (λ t, Task.status t = Done) rows = Z.of_nat (length rows).
Proof.
  unfold Spec.count. induction rows as [|t rows IH]; [done|].
  rewrite !filter_cons. destruct (Task.status t) eqn:E;
    repeat case_decide; try done; simpl length; lia.
Qed.

(** X13. On the fallback path the pending, in-progress and completed
    counts add up to the total, and the overdue count lies between 0 and
    the number of tasks that are pending or in progress. *)
Theorem status_counts_partition
    (tasks : list Task.t) (userId : string) (now nextWeekISO : Z) (clock : Timestamp) :
  let e := Edge.fallback tasks userId now nextWeekISO clock in
  Edge.pendingTasks e + Edge.inProgressTasks e + Edge.completedTasks e = Edge.totalTasks e ∧
  0 <= Edge.overdueTasks e <= Edge.pendingTasks e + Edge.inProgressTasks e.
Proof.
  cbv zeta.
  destruct (edge_scalars tasks userId now nextWeekISO clock) as (-> & -> & -> & -> & -> & _).
  pose proof (spec_status_partition (Spec.owned userId tasks)) as Hpart.
  pose proof (count_bounds (λ t, Task.status t = Pending) (Spec.owned userId tasks)).
  pose proof (count_bounds (λ t, Task.status t = InProgress) (Spec.owned userId tasks)).
  unfold Spec.pending, Spec.inProgress, Spec.completed, Spec.total in *.
  lia.
Qed.

End CountsMore.

(** ** An owner whose tasks are all done *)

Section AllDone.

Lemma all_done_counts (rows : list Task.t) :
  Forall (λ t, Task.status t = Done) rows →
  Spec.count (λ t, Task.status t = Done) rows = Z.of_nat (length rows) ∧
  Spec.count (λ t, Task.status t = InProgress) rows = 0.
Proof.
  unfold Spec.count. induction 1 as [|t rows Ht _ IH]; [done|].
  rewrite !filter_cons.
  rewrite Ht. repeat case_decide; try done. simpl length. lia.
Qed.

Lemma all_done_checks_spec (count : nat) : ∀ lo n : Z,
  all_done_checks lo count = true → lo <= n < lo + Z.of_nat count →
  all_done_check n = true.
Proof.
  induction count as [|count IH]; intros lo n Hall Hn; [lia|].
  simpl in Hall. apply andb_prop in Hall as [Hlo Hrest].
  destruct (decide (n = lo)) as [->|Hne]; [done|].
  apply (IH (lo + 1)); [done|lia].
Qed.

(** The arithmetic, checked for each number of tasks from 1 to 10 000. *)
Lemma all_done_checked (n : Z) : 1 <= n <= 10000 → all_done_check n = true.
Proof.
  intros Hn.
  assert (all_done_checks 1 (Z.to_nat 10000) = true) as Hall
    by (vm_compute; reflexivity).
  apply (all_done_checks_spec _ 1 n Hall). lia.
Qed.

(** X14. For an owner who has between 1 and 10 000 tasks, all of them
    done, the fallback path reports a completion rate of 100, no overdue
    task, and the score [70 + 2 * min(10, total)], which is at most 90. *)
Theorem all_done_score
    (tasks : list Task.t) (userId : string) (now nextWeekISO : Z) (clock : Timestamp) :
  Spec.owned userId tasks ≠ [] →
  Spec.total userId tasks <= 10000 →
  Forall (λ t, Task.status t = Done) (Spec.owned userId tasks) →
  let e := Edge.fallback tasks userId now nextWeekISO clock in
  Edge.completionRate e = 100%float ∧
  Edge.overdueTasks e = 0 ∧
  Edge.productivityScore e = Edge.Number (70 + 2 * Z.min 10 (Edge.totalTasks e)) ∧
  70 + 2 * Z.min 10 (Edge.totalTasks e) <= 90.
Proof.
  intros Hne Hmax Hdone. cbv zeta.
  destruct (edge_scalars tasks userId now nextWeekISO clock)
    as (-> & _ & _ & _ & -> & -> & ->).
  destruct (all_done_counts _ Hdone) as (Hc & Hip).
  unfold Spec.completed, Spec.inProgress, Spec.total.
  rewrite Hc, Hip.
  set (n := Z.of_nat (length (Spec.owned userId tasks))).
  assert (1 <= n <= 10000) as Hn.
  { unfold Spec.total in Hmax. subst n.
    destruct (Spec.owned userId tasks); [done|]. simpl length in *. lia. }
  pose proof (all_done_checked n Hn) as Hcheck.
  unfold all_done_check in Hcheck. cbv zeta in Hcheck.
  apply andb_prop in Hcheck as [Hrate Hscore].
  apply Leibniz.eqb_spec in Hrate, Hscore.
  rewrite Hrate in Hscore |- *.
  repeat split; try done. lia.
Qed.

Lemma all_done_score_witness :
  let tasks := [Example.finished] in
  let userId := Example.userId in
  (Spec.owned userId tasks ≠ [] ∧
   Spec.total userId tasks <= 10000 ∧
   Forall (λ t, Task.status t = Done) (Spec.owned userId tasks)) ∧
  let e := Edge.fallback tasks userId Example.now (Handler.nextWeek Example.now)
             Example.clock in
  Edge.completionRate e = 100%float ∧
  Edge.overdueTasks e = 0 ∧
  Edge.productivityScore e = Edge.Number (70 + 2 * Z.min 10 (Edge.totalTasks e)) ∧
  70 + 2 * Z.min 10 (Edge.totalTasks e) <= 90.
Proof.
  assert (H1 : Spec.owned Example.userId [Example.finished] ≠ []) by discriminate.
  assert (H3 : Spec.total Example.userId [Example.finished] <= 10000)
    by (by vm_compute).
  assert (H2 : Forall (λ t, Task.status t = Done)
                 (Spec.owned Example.userId [Example.finished]))
    by (repeat constructor).
  split; [by repeat split|].
  exact (all_done_score [Example.finished] Example.userId Example.now
           (Handler.nextWeek Example.now) Example.clock H1 H3 H2).
Defined.

End AllDone.

(** ** The fallback path without assumptions on the day or the priorities *)

Section MonthsAnyDay.

(** [setMonth] lands in the month asked for, or, when the day does not fit
    into it, in the month after. *)
Lemma setMonth_month_any (date : Timestamp) (m : Z) :
  month_of (Edge.setMonth date m) = Spec.month_at (ts_year date * 12 + m) ∨
  (days_in_month (ts_year date + m / 12) (m mod 12 + 1) < ts_day date ∧
   month_of (Edge.setMonth date m) = Spec.month_at (ts_year date * 12 + m + 1)).
Proof.
  unfold Edge.setMonth, Spec.month_at, month_of.
  destruct (Z.leb_spec (ts_day date) (days_in_month (ts_year date + m / 12) (m mod 12 + 1))).
  - left. simpl. f_equal; Z.div_mod_to_equations; lia.
  - right. split; [done|].
    destruct (Z.eqb_spec (m mod 12 + 1) 12); simpl; f_equal; Z.div_mod_to_equations; lia.
Qed.

Lemma Map_set_keys {K V} `{EqDecision K} (k : K) (v : V) (m : list (K * V)) :
  (Edge.Map_set k v m).*1 = if decide (k ∈ m.*1) then m.*1 else m.*1 ++ [k].
Proof.
  induction m as [|[k' v'] m IH]; [done|].
  cbn [Edge.Map_set]. destruct (decide (k' = k)) as [->|Hne]; rewrite !fmap_cons; cbn [fst].
  - by rewrite decide_True by left.
  - rewrite IH. destruct (decide (k ∈ m.*1)) as [Hin|Hnin].
    + by rewrite decide_True by (by right).
    + rewrite decide_False; [done|]. intros Hin. apply elem_of_cons in Hin as [->|Hin]; done.
Qed.

Lemma Map_set_values {K V} `{EqDecision K} (P : V → Prop) (k : K) (v : V) (m : list (K * V)) :
  P v → Forall (λ e, P e.2) m → Forall (λ e, P e.2) (Edge.Map_set k v m).
Proof.
  intros Hv. induction 1 as [|[k' v'] m Hx Hm IH]; cbn [Edge.Map_set]; [by repeat constructor|].
  destruct (decide (k' = k)); by constructor.
Qed.

(** The buckets that are set up: every month of the list once, each empty. *)
Lemma add_month_foldl_any (months : list (Z * Z)) : ∀ acc : list (Z * Z * (Z * Z)),
  NoDup acc.*1 → Forall (λ e, e.2 = (0, 0)) acc →
  let md := foldl Edge.add_month acc months in
  NoDup md.*1 ∧ Forall (λ e, e.2 = (0, 0)) md ∧
  (∀ k, k ∈ md.*1 ↔ k ∈ acc.*1 ∨ k ∈ months) ∧
  (length md ≤ length acc + length months)%nat.
Proof.
  induction months as [|k months IH]; intros acc Hnd Hz; simpl.
  - repeat split; try done; [tauto|intros [?|H]; [done|by apply elem_of_nil in H]|lia].
  - assert (NoDup (Edge.add_month acc k).*1) as Hnd'.
    { unfold Edge.add_month. rewrite Map_set_keys. case_decide; [done|].
      apply NoDup_app. repeat split; [done| |apply NoDup_singleton].
      intros x Hx Hx'. apply list_elem_of_singleton in Hx'. by subst. }
    assert (Forall (λ e, e.2 = (0, 0)) (Edge.add_month acc k)) as Hz'.
    { by apply (Map_set_values (λ v, v = (0, 0))). }
    destruct (IH _ Hnd' Hz') as (H1 & H2 & H3 & H4). repeat split; try done.
    + intros Hk. apply H3 in Hk as [Hk|Hk]; [|right; by right].
      unfold Edge.add_month in Hk. rewrite Map_set_keys in Hk.
      case_decide; [by left|]. apply elem_of_app in Hk as [Hk|Hk]; [by left|].
      apply list_elem_of_singleton in Hk. subst. right. left.
    + intros Hk. apply H3. unfold Edge.add_month. rewrite Map_set_keys.
      destruct Hk as [Hk|Hk].
      * left. case_decide; [done|]. apply elem_of_app. by left.
      * apply elem_of_cons in Hk as [->|Hk]; [|by right].
        left. case_decide; [done|]. apply elem_of_app. right. left.
    + etrans; [exact H4|].
      assert (length (Edge.add_month acc k) ≤ S (length acc))%nat; [|lia].
      rewrite <- (length_fmap fst (Edge.add_month acc k)), <- (length_fmap fst acc).
      unfold Edge.add_month. rewrite Map_set_keys. case_decide; [lia|].
      rewrite length_app. simpl. lia.
Qed.

Lemma completed_le_created (k : Z * Z) (tasks : list Task.t) :
  0 <= Spec.completed_in k tasks <= Spec.created_in k tasks.
Proof.
  unfold Spec.completed_in, Spec.created_in, Spec.count.
  induction tasks as [|t tasks IH]; [done|].
  rewrite !filter_cons. repeat case_decide; simpl length; try lia. tauto.
Qed.

(** X18. On the fallback path, on any day of a month: [monthlyTrends] has
    between 1 and 6 entries, no month twice, one of them for the current
    month and each for a month at most 5 months back; an entry counts the
    processed tasks created in its month, and those of them that are
    done. *)
Theorem fallback_monthlyTrends_any_day
    (tasks : list Task.t) (userId : string) (now nextWeekISO : Z) (clock : Timestamp) :
  1 <= ts_month clock <= 12 →
  ts_day clock <= days_in_month (ts_year clock) (ts_month clock) →
  let sample := Edge.recentTasks tasks userId in
  let trends := Edge.monthlyTrends (Edge.fallback tasks userId now nextWeekISO clock) in
  (1 ≤ length trends ≤ 6)%nat ∧
  NoDup (month <$> trends) ∧
  month_of clock ∈ month <$> trends ∧
  ∀ en, en ∈ trends →
    (∃ i, 0 <= i <= 5 ∧ month en = Spec.month_at (month_index (month_of clock) - i)) ∧
    created en = Spec.created_in (month en) sample ∧
    completed en = Spec.completed_in (month en) sample ∧
    0 <= completed en <= created en.
Proof.
  intros Hmonth Hday sample trends.
  assert (trends = Edge.monthly sample clock) as -> by done.
  unfold Edge.monthly.
  destruct (add_month_foldl_any (Edge.last6Months clock) [] (NoDup_nil_2) (Forall_nil_2 _))
    as (Hnd & Hz & Hkeys & Hlen).
  set (md := foldl Edge.add_month [] (Edge.last6Months clock)) in *.
  rewrite (count_month_foldl sample md Hnd).
  rewrite <- list_fmap_compose.
  assert (∀ e, e ∈ md →
            (Edge.to_entry ∘ (λ e, (e.1, (e.2.1 + Spec.completed_in e.1 sample,
                                     e.2.2 + Spec.created_in e.1 sample)))) e =
            mkMonthEntry e.1 (Spec.completed_in e.1 sample) (Spec.created_in e.1 sample))
    as Hentry.
  { intros [k [c r]] He. rewrite Forall_forall in Hz. specialize (Hz _ He).
    simpl in Hz. injection Hz as -> ->. reflexivity. }
  assert (month <$> (Edge.to_entry ∘ (λ e, (e.1, (e.2.1 + Spec.completed_in e.1 sample,
                                               e.2.2 + Spec.created_in e.1 sample))) <$> md)
          = md.*1) as Hmonths.
  { rewrite <- list_fmap_compose. apply list_fmap_ext. by intros _ [k [c r]] _. }
  assert (month_of clock ∈ Edge.last6Months clock) as Hcur.
  { unfold Edge.last6Months. rewrite elem_of_reverse. apply list_elem_of_fmap.
    exists 0. split; [|left]. cbv zeta.
    unfold Edge.getMonth. rewrite Z.sub_0_r.
    destruct (setMonth_month_any clock (ts_month clock - 1)) as [->|[Hover _]].
    - unfold Spec.month_at, month_of. f_equal; Z.div_mod_to_equations; lia.
    - exfalso. revert Hover.
      replace (ts_year clock + (ts_month clock - 1) / 12) with (ts_year clock)
        by (Z.div_mod_to_equations; lia).
      replace ((ts_month clock - 1) mod 12 + 1) with (ts_month clock)
        by (Z.div_mod_to_equations; lia).
      lia. }
  assert (∀ k, k ∈ Edge.last6Months clock →
            ∃ i, 0 <= i <= 5 ∧ k = Spec.month_at (month_index (month_of clock) - i))
    as Hrange.
  { intros k Hk. unfold Edge.last6Months in Hk. rewrite elem_of_reverse in Hk.
    apply list_elem_of_fmap in Hk as (i & -> & Hi). cbv zeta.
    assert (0 <= i <= 5) as Hi'.
    { repeat (apply elem_of_cons in Hi as [->|Hi]; [lia|]). by apply elem_of_nil in Hi. }
    unfold month_index, Edge.getMonth, month_of at 2 3. simpl.
    destruct (setMonth_month_any clock (ts_month clock - 1 - i)) as [->|[Hover ->]].
    - exists i. split; [done|]. f_equal. lia.
    - destruct (decide (i = 0)) as [->|Hne].
      + exfalso. revert Hover. rewrite Z.sub_0_r.
        replace (ts_year clock + (ts_month clock - 1) / 12) with (ts_year clock)
          by (Z.div_mod_to_equations; lia).
        replace ((ts_month clock - 1) mod 12 + 1) with (ts_month clock)
          by (Z.div_mod_to_equations; lia).
        lia.
      + exists (i - 1). split; [lia|]. f_equal. lia. }
  split; [|split; [|split]].
  - rewrite length_fmap. split; [|by simpl in Hlen].
    assert (month_of clock ∈ md.*1) as Hin by (apply Hkeys; by right).
    destruct md; [by apply elem_of_nil in Hin|simpl; lia].
  - rewrite Hmonths. exact Hnd.
  - rewrite Hmonths. apply Hkeys. by right.
  - intros en Hen. apply list_elem_of_fmap in Hen as (e & -> & He).
    rewrite (Hentry e He). simpl. repeat split; try done.
    + apply Hrange. assert (e.1 ∈ md.*1) as Hk by (apply list_elem_of_fmap; by exists e).
      apply Hkeys in Hk as [Hk|Hk]; [by apply elem_of_nil in Hk|done].
    + apply completed_le_created.
    + apply completed_le_created.
Qed.


Lemma fallback_monthlyTrends_any_day_witness :
  let clock := mkTimestamp 2024 3 31 0 in
  let tasks := Example.tasks in
  let userId := Example.userId in
  (1 <= ts_month clock <= 12 ∧
   ts_day clock <= days_in_month (ts_year clock) (ts_month clock)) ∧
  let sample := Edge.recentTasks tasks userId in
  let trends :=
    Edge.monthlyTrends
      (Edge.fallback tasks userId Example.now (Handler.nextWeek Example.now) clock) in
  (1 ≤ length trends ≤ 6)%nat ∧
  NoDup (month <$> trends) ∧
  month_of clock ∈ month <$> trends ∧
  ∀ en, en ∈ trends →
    (∃ i, 0 <= i <= 5 ∧ month en = Spec.month_at (month_index (month_of clock) - i)) ∧
    created en = Spec.created_in (month en) sample ∧
    completed en = Spec.completed_in (month en) sample ∧
    0 <= completed en <= created en.
Proof.
  assert (H1 : 1 <= ts_month (mkTimestamp 2024 3 31 0) <= 12) by (simpl; lia).
  assert (H2 : ts_day (mkTimestamp 2024 3 31 0) <=
               days_in_month (ts_year (mkTimestamp 2024 3 31 0))
                 (ts_month (mkTimestamp 2024 3 31 0))) by (by vm_compute).
  split; [by split|].
  exact (fallback_monthlyTrends_any_day Example.tasks Example.userId Example.now
           (Handler.nextWeek Example.now) (mkTimestamp 2024 3 31 0) H1 H2).
Defined.

End MonthsAnyDay.

Section PriorityBuckets.

Lemma count_ext (P Q : Task.t → Prop) `{∀ t, Decision (P t)} `{∀ t, Decision (Q t)}
    (l : list Task.t) :
  (∀ t, P t ↔ Q t) → Spec.count P l = Spec.count Q l.
Proof.
  intros Hpq. unfold Spec.count. induction l as [|t l IH]; [done|].
  rewrite !filter_cons. pose proof (Hpq t).
  repeat case_decide; simpl length; try tauto; lia.
Qed.

Lemma or_string_medium (s : option string) :
  Edge.or_string s "medium" = "medium" ↔ s = None ∨ s = Some "" ∨ s = Some "medium".
Proof.
  destruct s as [[|c s]|]; simpl.
  - split; [tauto|done].
  - split; [intros <-; tauto|]. intros [?|[?|?]]; congruence.
  - split; [tauto|done].
Qed.

Lemma or_string_other (s : option string) (p : string) :
  p ≠ "medium" → (Edge.or_string s "medium" = p ↔ p ≠ "" ∧ s = Some p).
Proof.
  intros Hp. destruct s as [[|c s]|]; simpl.
  - split; [congruence|]. intros [? [=]]. congruence.
  - split; [intros <-; split; [done|done]|]. by intros [_ [= <-]].
  - split; [congruence|]. by intros [_ ?].
Qed.

Lemma count_medium (l : list Task.t) :
  Spec.count (λ t, Edge.or_string (priority_of t) "medium" = "medium") l =
  Spec.count (λ t, priority_of t = Some "medium") l +
  Spec.count (λ t, priority_of t = Some "") l +
  Spec.count (λ t, priority_of t = None) l.
Proof.
  unfold Spec.count. induction l as [|t l IH]; [done|].
  rewrite !filter_cons. pose proof (or_string_medium (priority_of t)) as Hm.
  destruct (priority_of t) as [[|c s]|] eqn:E; repeat case_decide;
    simpl length; try lia; try congruence; exfalso; tauto.
Qed.

Lemma count_empty_priority (l : list Task.t) :
  Spec.count (λ t, Edge.or_string (priority_of t) "medium" = "") l = 0.
Proof.
  unfold Spec.count. induction l as [|t l IH]; [done|].
  rewrite filter_cons, decide_False; [done|].
  by destruct (priority_of t) as [[|c s]|].
Qed.

(** X19. On the fallback path, whatever priorities are stored: [low] and
    [high] count the processed tasks that store them; [medium] counts those
    that store [medium], the empty string, or no priority; any other
    priority that a processed task stores becomes a key of its own that
    holds [NaN], and no other key is there.  ([__proto__], which is not an
    ordinary key of a JavaScript object, is left aside.) *)
Theorem fallback_priority_buckets
    (tasks : list Task.t) (userId : string) (now nextWeekISO : Z) (clock : Timestamp) :
  let sample := Edge.recentTasks tasks userId in
  let e := Edge.fallback tasks userId now nextWeekISO clock in
  let stored p := Spec.count (λ t, priority_of t = Some p) sample in
  Edge.tasksByPriority e !! "low" = Some (Edge.Num (stored "low")) ∧
  Edge.tasksByPriority e !! "high" = Some (Edge.Num (stored "high")) ∧
  Edge.tasksByPriority e !! "medium" =
    Some (Edge.Num (stored "medium" + stored "" +
                    Spec.count (λ t, priority_of t = None) sample)) ∧
  ∀ p, p ∉ ["low"; "medium"; "high"; "__proto__"] →
       Edge.tasksByPriority e !! p =
         if decide (p ≠ "" ∧ 0 < stored p) then Some Edge.NaN else None.
Proof.
  intros sample e stored.
  assert (∀ p, p ≠ "__proto__" → Edge.tasksByPriority e !! p =
    let c := Spec.count (λ t, Edge.or_string (priority_of t) "medium" = p) sample in
    match (<["high" := Edge.Num 0]> (<["medium" := Edge.Num 0]>
             (<["low" := Edge.Num 0]> (∅ : gmap string Edge.JsNumber)))) !! p with
    | Some (Edge.Num n) => Some (Edge.Num (n + c))
    | Some Edge.NaN => Some Edge.NaN
    | None => if c =? 0 then None else Some Edge.NaN
    end) as Hlookup.
  { intros p Hp. subst e. unfold Edge.fallback. cbn [Edge.tasksByPriority].
    fold sample. unfold Edge.count_priorities. by rewrite count_priority_foldl. }
  assert (∀ p, p ≠ "medium" →
            Spec.count (λ t, Edge.or_string (priority_of t) "medium" = p) sample =
            if decide (p = "") then 0 else stored p) as Hother.
  { intros p Hp. destruct (decide (p = "")) as [->|Hne].
    - apply count_empty_priority.
    - apply count_ext. intros t. rewrite or_string_other by done. tauto. }
  split; [|split; [|split]].
  - rewrite Hlookup by done. cbv zeta. rewrite Hother by done. by vm_compute (_ !! _).
  - rewrite Hlookup by done. cbv zeta. rewrite Hother by done. by vm_compute (_ !! _).
  - rewrite Hlookup by done. cbv zeta. rewrite count_medium. by vm_compute (_ !! _).
  - intros p Hp.
    rewrite !not_elem_of_cons in Hp. destruct Hp as (Hl & Hm & Hh & Hproto & _).
    rewrite Hlookup by done. cbv zeta.
    rewrite !lookup_insert_ne, lookup_empty by done.
    rewrite Hother by done.
    assert (0 <= stored p) as Hpos by (subst stored; unfold Spec.count; simpl; lia).
    destruct (decide (p = "")) as [->|Hne].
    + rewrite decide_False; [done|]. tauto.
    + destruct (Z.eqb_spec (stored p) 0) as [H0|H0].
      * rewrite decide_False; [done|]. lia.
      * rewrite decide_True; [done|]. split; [done|lia].
Qed.

End PriorityBuckets.

(** ** The client-side rate limiter *)

Section ClientRateLimiter.
Import RateLimiter.

Lemma isAllowed_fields now identifier this :
  maxRequests (isAllowed now identifier this).2 = maxRequests this ∧
  windowMs (isAllowed now identifier this).2 = windowMs this.
Proof. unfold isAllowed. by destruct (_ <=? _). Qed.

(** A call keeps every held list within the limit. *)
Lemma isAllowed_bounded now identifier this :
  map_Forall (λ _ l, Z.of_nat (length l) <= maxRequests this) (requests this) →
  map_Forall (λ _ l, Z.of_nat (length l) <= maxRequests this)
    (requests (isAllowed now identifier this).2).
Proof.
  intros Hinv. unfold isAllowed.
  destruct (Z.leb_spec (maxRequests this)
              (Z.of_nat (length (List.filter (λ time, now - windowMs this <? time)
                                   (default [] (requests this !! identifier))))));
    [done|].
  simpl. apply map_Forall_insert_2; [|done]. rewrite length_app. simpl. lia.
Qed.

Lemma run_bounded calls : ∀ this,
  map_Forall (λ _ l, Z.of_nat (length l) <= maxRequests this) (requests this) →
  maxRequests (run calls this) = maxRequests this ∧
  windowMs (run calls this) = windowMs this ∧
  map_Forall (λ _ l, Z.of_nat (length l) <= maxRequests this) (requests (run calls this)).
Proof.
  induction calls as [|[now id] calls IH]; intros this Hinv; [done|].
  unfold run. simpl. fold (run calls (isAllowed now id this).2).
  destruct (isAllowed_fields now id this) as [Hm Hw].
  destruct (IH (isAllowed now id this).2) as (H1 & H2 & H3).
  { rewrite Hm. by apply isAllowed_bounded. }
  rewrite H1, H2, Hm, Hw. rewrite Hm in H3. done.
Qed.

Lemma foldr_min_elem_of (x : Z) (l : list Z) : foldr Z.min x l ∈ x :: l.
Proof.
  induction l as [|y l IH]; simpl; [left|].
  destruct (Z.min_spec y (foldr Z.min x l)) as [[_ ->]|[_ ->]].
  - right. left.
  - apply elem_of_cons in IH as [->|IH]; [left|by do 2 right].
Qed.

Lemma ceil_thousandths (a : Z) : a <= 1000 * Math_ceil (inject_Z a / 1000).
Proof.
  unfold Math_ceil. pose proof (Qle_ceiling (inject_Z a / 1000)) as H.
  assert (inject_Z a <= inject_Z (1000 * Qceiling (inject_Z a / 1000)))%Q as H'.
  { rewrite inject_Z_mult. change (inject_Z 1000) with 1000%Q.
    apply (Qmult_le_l _ _ 1000) in H; [|done].
    eapply Qle_trans; [|exact H]. apply Qle_lteq. right. field. }
  by rewrite Zle_Qle.
Qed.

Lemma filter_drops (f : Z → bool) (x : Z) (l : list Z) :
  x ∈ l → f x = false → (length (List.filter f l) < length l)%nat.
Proof.
  intros Hin Hf. pose proof (List.filter_length_le f) as Hle.
  induction l as [|y l IH]; [by apply elem_of_nil in Hin|].
  simpl. apply elem_of_cons in Hin as [<-|Hin].
  - rewrite Hf. specialize (Hle l). lia.
  - specialize (IH Hin). destruct (f y); simpl; lia.
Qed.

(** X20. On a limiter that allows at least one request, after any
    sequence of [isAllowed] calls: [getRetryAfter] is not negative, a call
    made that many seconds later or later still is allowed, and when
    [isAllowed] says no, [getRetryAfter] names at least one second. *)
Theorem getRetryAfter_sound
    (maxRequests windowMs : Z) (calls : list (Z * string)) (now now' : Z)
    (identifier : string) :
  1 <= maxRequests →
  let this := run calls (new (Some maxRequests) (Some windowMs)) in
  let seconds := getRetryAfter now identifier this in
  0 <= seconds ∧
  (now + 1000 * seconds <= now' → (isAllowed now' identifier this).1 = true) ∧
  ((isAllowed now identifier this).1 = false → 1 <= seconds).
Proof.
  intros Hmax this seconds.
  destruct (run_bounded calls (new (Some maxRequests) (Some windowMs)))
    as (Hm & Hw & Hinv); [apply map_Forall_empty|].
  fold this in Hm, Hw, Hinv. simpl in Hm, Hw, Hinv.
  assert (Z.of_nat (length (default [] (requests this !! identifier))) <= maxRequests)
    as Hlen.
  { destruct (requests this !! identifier) as [l|] eqn:Hl; simpl; [|lia].
    by apply (Hinv identifier l). }
  subst seconds. unfold getRetryAfter, isAllowed. rewrite Hm, Hw.
  set (l := default [] (requests this !! identifier)) in *.
  destruct l as [|t ts] eqn:El.
  { split; [done|]. simpl. split.
    - intros _. destruct (Z.leb_spec maxRequests (Z.of_nat 0)); [lia|done].
    - destruct (Z.leb_spec maxRequests (Z.of_nat 0)); [lia|discriminate]. }
  cbv zeta. set (oldest := foldr Z.min t ts).
  assert (oldest ∈ t :: ts) as Hin by apply foldr_min_elem_of.
  pose proof (ceil_thousandths (oldest + windowMs - now)) as Hceil.
  split; [lia|]. split.
  - intros Hwait.
    assert ((now' - windowMs <? oldest) = false) as Hout by (apply Z.ltb_ge; lia).
    pose proof (filter_drops (λ time, now' - windowMs <? time) oldest (t :: ts) Hin Hout)
      as Hdrop.
    destruct (Z.leb_spec maxRequests
                (Z.of_nat (length (List.filter (λ time, now' - windowMs <? time) (t :: ts)))));
      [lia|done].
  - destruct (Z.leb_spec maxRequests
                (Z.of_nat (length (List.filter (λ time, now - windowMs <? time) (t :: ts)))))
      as [Hfull|]; [|discriminate].
    intros _.
    assert ((now - windowMs <? oldest) = true) as Hinside.
    { destruct (now - windowMs <? oldest) eqn:E; [done|].
      pose proof (filter_drops (λ time, now - windowMs <? time) oldest (t :: ts) Hin E).
      lia. }
    apply Z.ltb_lt in Hinside.
    assert (0 < Math_ceil (inject_Z (oldest + windowMs - now) / 1000)); [|lia].
    unfold Math_ceil. rewrite Zlt_Qlt. eapply Qlt_le_trans; [|apply Qle_ceiling].
    apply Qlt_shift_div_l; [done|]. rewrite Qmult_0_l.
    change 0%Q with (inject_Z 0). rewrite <- Zlt_Qlt. lia.
Qed.

Lemma getRetryAfter_sound_witness :
  let calls := [(1000, "signout"); (2500, "signout")] in
  let this := run calls (new (Some 2) (Some 60000)) in
  let seconds := getRetryAfter 3000 "signout" this in
  1 <= 2 ∧
  0 <= seconds ∧
  (3000 + 1000 * seconds <= 61000 → (isAllowed 61000 "signout" this).1 = true) ∧
  ((isAllowed 3000 "signout" this).1 = false → 1 <= seconds).
Proof.
  cbv zeta. split; [lia|].
  exact (getRetryAfter_sound 2 60000 [(1000, "signout"); (2500, "signout")] 3000 61000
           "signout" ltac:(lia)).
Defined.

End ClientRateLimiter.

(** ** The client-side cache *)

Section CacheProps.
Import Cache.
Context {T : Type}.
Implicit Types (this : Cache.t T) (m : list (string * CacheItem T)).

(** *** The insertion-ordered map *)

Lemma Map_get_set_eq {V} (key : string) (v : V) (m : list (string * V)) :
  Edge.Map_get key (Edge.Map_set key v m) = Some v.
Proof.
  induction m as [|[k' v'] m IH]; simpl.
  - by rewrite decide_True.
  - destruct (decide (k' = key)) as [->|Hne]; simpl.
    + by rewrite decide_True.
    + by rewrite decide_False.
Qed.

Lemma Map_delete_keys {V} (key : string) (m : list (string * V)) :
  (Map_delete key m).*1 = List.filter (λ k, negb (bool_decide (k = key))) m.*1.
Proof.
  unfold Map_delete. induction m as [|[k' v'] m IH]; [done|].
  rewrite fmap_cons. cbn [List.filter fst].
  destruct (bool_decide (k' = key)); cbn [negb]; rewrite ?fmap_cons; by rewrite IH.
Qed.

Lemma filter_keys_sublist {V} (f : string * V → bool) (m : list (string * V)) :
  sublist (List.filter f m).*1 m.*1.
Proof.
  induction m as [|e m IH]; simpl; [done|].
  destruct (f e); simpl; by constructor.
Qed.

Lemma Map_get_delete_eq {V} (key : string) (m : list (string * V)) :
  Edge.Map_get key (Map_delete key m) = None.
Proof.
  apply Map_get_None. rewrite Map_delete_keys, list_elem_of_In, List.filter_In.
  intros [_ H]. by rewrite bool_decide_true in H.
Qed.

(** With distinct keys, deleting the first key leaves the rest. *)
Lemma Map_delete_head {V} (key : string) (v : V) (m : list (string * V)) :
  NoDup ((key, v) :: m).*1 → Map_delete key ((key, v) :: m) = m.
Proof.
  rewrite fmap_cons. intros [Hnin _]%NoDup_cons. unfold Map_delete. simpl.
  rewrite bool_decide_true by done. simpl.
  induction m as [|[k' v'] m IH]; [done|].
  rewrite fmap_cons, not_elem_of_cons in Hnin. destruct Hnin as [Hne Hnin]. simpl in *.
  rewrite bool_decide_false by congruence. simpl. by rewrite IH.
Qed.


(** Reading a key that was just set. *)
Lemma get_after_set this (now_cleanup now now' : Z) (key : string) (d : T)
    (ttl : option Z) :
  let this' := set now_cleanup now key d ttl this in
  get now' key this' =
    if default 300000 ttl <? now' - now
    then (None, {| cache := Map_delete key (cache this'); maxSize := maxSize this' |})
    else (Some d, this').
Proof.
  intros this'.
  assert (Edge.Map_get key (cache this') = Some (mkItem d now (default 300000 ttl)))
    as Hget.
  { subst this'. unfold set. cbn [cache]. apply Map_get_set_eq. }
  unfold get. by rewrite Hget.
Qed.

(** X21. After [set(key, data, ttl)], [get(key)] returns the data and
    leaves the cache as it is for as long as no more than [ttl]
    milliseconds (300000 by default) have passed; later it returns [null],
    and from then on the key is gone. *)
Theorem cache_set_get this (now_cleanup now now' : Z) (key : string) (d : T)
    (ttl : option Z) :
  let life := default 300000 ttl in
  let this' := set now_cleanup now key d ttl this in
  (now' - now <= life → get now' key this' = (Some d, this')) ∧
  (life < now' - now →
     (get now' key this').1 = None ∧
     ∀ now'', (get now'' key (get now' key this').2).1 = None).
Proof.
  intros life this'. subst this'.
  rewrite (get_after_set this now_cleanup now now' key d ttl). fold life.
  split; intros Hlife.
  - by rewrite (proj2 (Z.ltb_ge _ _)) by lia.
  - rewrite (proj2 (Z.ltb_lt _ _)) by lia. split; [done|]. intros now''.
    unfold get. cbn [snd cache]. by rewrite Map_get_delete_eq.
Qed.

(** *** Capacity *)

Lemma within_filter (bound : Z) (f : string * CacheItem T → bool) this :
  within bound this →
  within bound {| cache := List.filter f (cache this); maxSize := maxSize this |}.
Proof.
  intros (Hm & Hnd & He & Hs). unfold within, keys, size in *. cbn [cache maxSize].
  pose proof (filter_keys_sublist f (cache this)) as Hsub.
  repeat split; try done.
  - by eapply sublist_NoDup.
  - intros Hin. apply He. by eapply elem_of_sublist.
  - pose proof (List.filter_length_le f (cache this)). lia.
Qed.

Lemma Map_set_length (key : string) (v : CacheItem T) m :
  length (Edge.Map_set key v m) =
  if decide (key ∈ m.*1) then length m else S (length m).
Proof.
  rewrite <- (length_fmap fst (Edge.Map_set key v m)), Map_set_keys.
  case_decide; [by rewrite length_fmap|]. rewrite length_app, length_fmap. simpl. lia.
Qed.

Lemma within_set (bound : Z) (now_cleanup now : Z) (key : string) (d : T)
    (ttl : option Z) this :
  1 <= bound → key ≠ "" → within bound this →
  within bound (set now_cleanup now key d ttl this).
Proof.
  intros Hb Hkey Hin. unfold set.
  set (c1 := if maxSize this <=? size this then cleanup now_cleanup this else this).
  assert (within bound c1) as H1.
  { subst c1. destruct (_ <=? _); [by apply within_filter|done]. }
  clearbody c1. clear Hin.
  set (c2 := if maxSize c1 <=? size c1 then _ else c1).
  assert (within bound c2 ∧ (size c2 < bound ∨ key ∈ keys c2 ∧ size c2 <= bound))
    as [H2 Hroom].
  { subst c2. destruct H1 as (Hm & Hnd & He & Hs).
    destruct (Z.leb_spec (maxSize c1) (size c1)) as [Hfull|Hfree].
    - destruct c1 as [[|[k0 v0] m] M]; unfold size, keys in *; cbn [cache maxSize] in *.
      { simpl in *. lia. }
      rewrite bool_decide_false.
      2: { intros ->. apply He. rewrite fmap_cons. left. }
      rewrite (Map_delete_head k0 v0 m Hnd). rewrite fmap_cons in Hnd, He.
      apply NoDup_cons in Hnd as [_ Hnd]. apply not_elem_of_cons in He as [_ He].
      split; [|left; simpl in *; lia].
      unfold within, size, keys. cbn [cache maxSize]. simpl in Hs.
      repeat split; try done. lia.
    - split; [by repeat split|]. left. lia. }
  clearbody c2. destruct H2 as (Hm & Hnd & He & Hs).
  unfold within, size, keys in *. cbn [cache maxSize].
  rewrite Map_set_keys, Map_set_length.
  repeat split; try done.
  - case_decide; [done|]. apply NoDup_app. repeat split; [done| |apply NoDup_singleton].
    intros x Hx Hx'. apply list_elem_of_singleton in Hx'. by subst.
  - case_decide; [done|]. rewrite elem_of_app, list_elem_of_singleton. intros [?|?]; done.
  - case_decide; [lia|]. destruct Hroom as [?|[? _]]; [lia|done].
Qed.

Lemma within_call (bound : Z) (c : Call T) this :
  1 <= bound → set_key c ≠ Some "" → within bound this → within bound (call this c).
Proof.
  intros Hb Hkey Hin. destruct c as [nc now key d ttl|now key|now key|key|]; simpl.
  - apply within_set; try done. intros ->. done.
  - unfold get. destruct (Edge.Map_get key (cache this)) as [item|]; [|done].
    destruct (expired now item); [by apply within_filter|done].
  - unfold has. destruct (Edge.Map_get key (cache this)) as [item|]; [|done].
    destruct (expired now item); [by apply within_filter|done].
  - by apply within_filter.
  - destruct Hin as (Hm & _). unfold within, clear, keys, size. cbn [cache maxSize].
    repeat split; try done; [apply NoDup_nil_2|apply not_elem_of_nil|simpl; lia].
Qed.

(** X22. A cache made with [maxSize >= 1], after any sequence of calls
    that never set the empty key: it holds at most [maxSize] entries. *)
Theorem cache_capacity (maxSize : Z) (calls : list (Call T)) :
  1 <= maxSize →
  Forall (λ c, set_key c ≠ Some "") calls →
  let this := foldl call (new (Some maxSize)) calls in
  size this <= maxSize ∧ NoDup (keys this).
Proof.
  intros Hb Hkeys this.
  assert (within maxSize this) as (_ & Hnd & _ & Hs); [|done].
  subst this.
  assert (within maxSize (new (Some maxSize) : Cache.t T)) as H0.
  { unfold within, new, keys, size. simpl.
    repeat split; [apply NoDup_nil_2|apply not_elem_of_nil|lia]. }
  revert H0. generalize (new (Some maxSize) : Cache.t T).
  induction Hkeys as [|c calls Hc _ IH]; intros this Hin; [done|].
  simpl. apply IH. by apply within_call.
Qed.


Lemma filter_all {A} (f : A → bool) (l : list A) :
  Forall (λ x, f x = true) l → List.filter f l = l.
Proof. induction 1 as [|x l Hx _ IH]; simpl; [done|]. by rewrite Hx, IH. Qed.

(** X23. On a full cache of which no entry has expired, setting a new key
    removes the entry whose key was set first, whether or not it was read
    since, and puts the new key last. *)
Theorem cache_evicts_first_inserted this (now_cleanup now : Z) (key : string) (d : T)
    (ttl : option Z) :
  NoDup (keys this) →
  maxSize this <= size this →
  Forall (λ entry, expired now_cleanup entry.2 = false) (cache this) →
  key ∉ keys this →
  head (keys this) ≠ Some "" →
  keys (set now_cleanup now key d ttl this) = tail (keys this) ++ [key].
Proof.
  intros Hnd Hfull Hlive Hnew Hfirst. unfold set.
  rewrite (proj2 (Z.leb_le _ _) Hfull).
  assert (cleanup now_cleanup this = this) as ->.
  { unfold cleanup. rewrite filter_all; [by destruct this|].
    eapply Forall_impl; [exact Hlive|]. simpl. by intros e ->. }
  rewrite (proj2 (Z.leb_le _ _) Hfull).
  destruct this as [[|[k0 v0] m] M]; unfold keys in *; cbn [cache maxSize] in *.
  - reflexivity.
  - rewrite fmap_cons in Hfirst, Hnew. cbn [fst head] in Hfirst.
    rewrite bool_decide_false by congruence. cbn [cache maxSize].
    rewrite (Map_delete_head k0 v0 m Hnd), Map_set_keys.
    apply not_elem_of_cons in Hnew as [_ Hnew]. by rewrite decide_False.
Qed.

Lemma prefix_spec (pattern key : string) :
  String.prefix pattern key = true ↔ ∃ b, key = pattern +:+ b.
Proof.
  revert key. induction pattern as [|c pattern IH]; intros [|c' key]; simpl.
  - split; [|done]. intros _. by exists "".
  - split; [|done]. intros _. by exists (String c' key).
  - split; [done|]. by intros [b ?].
  - destruct (Ascii.ascii_dec c c') as [->|Hne].
    + rewrite IH. split; intros [b Hb]; exists b; [by rewrite Hb|by injection Hb].
    + split; [done|]. intros [b Hb]. injection Hb as -> _. done.
Qed.

Lemma includes_spec (pattern key : string) :
  includes pattern key = true ↔ ∃ a b, key = a +:+ pattern +:+ b.
Proof.
  induction key as [|c key IH]; cbn [includes]; rewrite orb_true_iff, prefix_spec.
  - split.
    + intros [[b Hb]|?]; [|done]. by exists "", b.
    + intros (a & b & Hab). left. destruct a; [by exists b|done].
  - rewrite IH. split.
    + intros [[b Hb]|(a & b & ->)]; [by exists "", b|]. by exists (String c a), b.
    + intros (a & b & Hab). destruct a as [|c' a]; [left; by exists b|].
      right. injection Hab as -> ->. by exists a, b.
Qed.


Lemma Map_get_is_Some {V} (key : string) (m : list (string * V)) :
  is_Some (Edge.Map_get key m) ↔ key ∈ m.*1.
Proof.
  rewrite <- not_eq_None_Some, Map_get_None.
  destruct (decide (key ∈ m.*1)); tauto.
Qed.

Lemma delete_present (key : string) this :
  key ∈ keys this →
  delete key this =
    (true, {| cache := Map_delete key (cache this); maxSize := maxSize this |}).
Proof. intros Hin. unfold delete. by rewrite bool_decide_true by by apply Map_get_is_Some. Qed.

(** The loop of [clearCacheByPattern] over keys that are still in the
    cache. *)
Lemma clearCacheByPattern_loop (pattern : string) (ks : list string) : ∀ (n : Z) this,
  NoDup ks → (∀ k, k ∈ ks → k ∈ keys this) →
  foldl (λ '(cleared, cache) key,
           if includes pattern key then
             let '(deleted, cache) := delete key cache in
             if deleted then (cleared + 1, cache) else (cleared, cache)
           else (cleared, cache))
        (n, this) ks =
  (n + Z.of_nat (length (List.filter (includes pattern) ks)),
   {| cache := List.filter (λ e, negb (includes pattern e.1 && bool_decide (e.1 ∈ ks)))
                 (cache this);
      maxSize := maxSize this |}).
Proof.
  induction ks as [|k ks IH]; intros n this Hnd Hsub.
  - simpl. rewrite Z.add_0_r. f_equal. destruct this as [m M]. cbn [cache maxSize]. f_equal.
    symmetry. apply filter_all, Forall_forall. intros e _.
    by rewrite andb_false_r.
  - apply NoDup_cons in Hnd as [Hk Hnd]. cbn [foldl List.filter].
    destruct (includes pattern k) eqn:Hinc.
    + rewrite (delete_present k this) by (apply Hsub; left).
      rewrite IH; [|done|].
      2: { intros k' Hk'. unfold keys. cbn [cache]. rewrite Map_delete_keys.
           rewrite list_elem_of_In, List.filter_In, <- list_elem_of_In. split.
           - apply Hsub. by right.
           - rewrite bool_decide_false; [done|]. by intros ->. }
      cbn [cache maxSize length]. f_equal; [lia|]. f_equal.
      unfold Map_delete. rewrite filter_filter_andb.
      apply List.filter_ext. intros e.
      destruct (decide (e.1 = k)) as [->|Hne].
      * rewrite bool_decide_true by done. rewrite Hinc.
        rewrite (bool_decide_true (k ∈ k :: ks)) by left. done.
      * rewrite (bool_decide_false (e.1 = k)) by done. cbn [negb andb].
        do 2 f_equal. apply bool_decide_ext. rewrite elem_of_cons. tauto.
    + rewrite IH; [|done|intros k' Hk'; apply Hsub; by right].
      f_equal. f_equal. apply List.filter_ext. intros e.
      destruct (decide (e.1 = k)) as [->|Hne].
      * by rewrite Hinc.
      * do 2 f_equal. apply bool_decide_ext. rewrite elem_of_cons. tauto.
Qed.

(** X25. [clearCacheByPattern] removes exactly the entries whose key
    contains the pattern, keeps the others in their order, and returns the
    number of entries it removed. *)
Theorem clearCacheByPattern_clears (pattern : string) this :
  NoDup (keys this) →
  let cleared := (clearCacheByPattern pattern this).1 in
  let this' := (clearCacheByPattern pattern this).2 in
  cache this' = List.filter (λ entry, negb (includes pattern entry.1)) (cache this) ∧
  maxSize this' = maxSize this ∧
  cleared = size this - size this' ∧
  ∀ key, key ∈ keys this' ↔
         key ∈ keys this ∧ ¬ ∃ a b, key = a +:+ pattern +:+ b.
Proof.
  intros Hnd cleared this'. subst cleared this'. unfold clearCacheByPattern.
  rewrite (clearCacheByPattern_loop pattern (keys this) 0 this Hnd) by done.
  cbn [fst snd cache maxSize].
  assert (List.filter (λ e, negb (includes pattern e.1 && bool_decide (e.1 ∈ keys this)))
            (cache this) =
          List.filter (λ entry, negb (includes pattern entry.1)) (cache this)) as ->.
  { apply List.filter_ext_in. intros e He. rewrite bool_decide_true; [by rewrite andb_true_r|].
    unfold keys. apply list_elem_of_fmap. exists e. split; [done|]. by apply list_elem_of_In. }
  split; [done|]. split; [done|]. split.
  - unfold size, keys. cbn [cache]. clear Hnd.
    induction (cache this) as [|e m IH]; [done|].
    rewrite fmap_cons. cbn [List.filter fst].
    destruct (includes pattern e.1); cbn [negb length]; lia.
  - intros key. unfold keys. cbn [cache]. rewrite <- includes_spec.
    rewrite !list_elem_of_fmap. split.
    + intros (e & -> & He). apply list_elem_of_In, List.filter_In in He as [He Hinc].
      split; [exists e; split; [done|by apply list_elem_of_In]|].
      by destruct (includes pattern e.1).
    + intros [(e & -> & He) Hinc]. exists e. split; [done|].
      apply list_elem_of_In, List.filter_In. split; [by apply list_elem_of_In|].
      by destruct (includes pattern e.1).
Qed.

End CacheProps.

(** *** [withCache] *)

Section WithCache.
Import Cache.
Context {A : Type}.

(** X24. When [get] has nothing for the key (it is not in the cache, or
    its entry has expired) and the fetch succeeds with data that is not
    [null], [withCache] returns the fetched data, and every [withCache] of
    the key within the time to live returns the same data and leaves the
    cache alone, whatever its fetch would do.  Data that is [null] is
    handed back and stored as well, but it is never served: every later
    [withCache] of the key comes to what its own fetch comes to.  When the
    fetch fails, the error is passed on and the key is not in the cache
    afterwards. *)
Theorem withCache_memoizes (this : t (option A)) (now_get now_cleanup now_set : Z)
    (key : string) (d : A) (ttl : option Z) :
  (get now_get key this).1 = None →
  let life := default 300000 ttl in
  let first :=
    withCache now_get now_cleanup now_set key (Handler.Returns (Some d)) this ttl in
  first.1 = Handler.Returns (Some d) ∧
  (∀ now_get' now_cleanup' now_set' fetchFn' ttl',
     now_get' - now_set <= life →
     withCache now_get' now_cleanup' now_set' key fetchFn' first.2 ttl' =
       (Handler.Returns (Some d), first.2)) ∧
  (let null := withCache now_get now_cleanup now_set key (Handler.Returns None) this ttl in
   null.1 = Handler.Returns None ∧
   (∀ now', now' - now_set <= life → (get now' key null.2).1 = Some None) ∧
   ∀ now_get' now_cleanup' now_set' fetchFn' ttl',
     (withCache now_get' now_cleanup' now_set' key fetchFn' null.2 ttl').1 = fetchFn') ∧
  (∀ error,
     let failed := withCache now_get now_cleanup now_set key (Handler.Throws error) this ttl in
     failed.1 = Handler.Throws error ∧ ∀ now', (get now' key failed.2).1 = None).
Proof.
  intros Hmiss life first.
  destruct (get now_get key this) as [cached this1] eqn:Hget. simpl in Hmiss. subst cached.
  assert (first = (Handler.Returns (Some d), set now_cleanup now_set key (Some d) ttl this1))
    as ->.
  { subst first. unfold withCache. by rewrite Hget. }
  cbn [fst snd]. split; [done|]. split; [|split].
  - intros now_get' now_cleanup' now_set' fetchFn' ttl' Hlife. unfold withCache.
    rewrite (get_after_set this1 now_cleanup now_set now_get' key (Some d) ttl).
    by rewrite (proj2 (Z.ltb_ge _ _)) by (subst life; lia).
  - cbv zeta. unfold withCache at 1 2. rewrite Hget. cbn [fst snd].
    split; [done|]. split.
    + intros now' Hlife.
      rewrite (get_after_set this1 now_cleanup now_set now' key None ttl).
      by rewrite (proj2 (Z.ltb_ge _ _)) by (subst life; lia).
    + intros now_get' now_cleanup' now_set' fetchFn' ttl'. unfold withCache.
      rewrite Hget. cbn [snd].
      rewrite (get_after_set this1 now_cleanup now_set now_get' key None ttl).
      destruct (default 300000 ttl <? now_get' - now_set); by destruct fetchFn'.
  - intros error. cbv zeta. unfold withCache. rewrite Hget. cbn [fst snd].
    split; [done|]. intros now'.
    assert (Edge.Map_get key (cache this1) = None) as Hnone.
    { revert Hget. unfold get.
      destruct (Edge.Map_get key (cache this)) as [item|] eqn:Hitem.
      - destruct (expired now_get item); [|discriminate].
        intros [= <-]. cbn [cache]. apply Map_get_delete_eq.
      - by intros [= <-]. }
    unfold get. by rewrite Hnone.
Qed.

End WithCache.

Section CacheWitnesses.
Import Cache.

Lemma cache_capacity_witness :
  (1 <= 2 ∧ Forall (λ c, set_key c ≠ Some "") CacheExample.calls) ∧
  let this := foldl call (new (Some 2)) CacheExample.calls in
  size this <= 2 ∧ NoDup (keys this).
Proof.
  assert (H1 : 1 <= 2) by lia.
  assert (H2 : Forall (λ c : Call string, set_key c ≠ Some "") CacheExample.calls)
    by (repeat constructor; discriminate).
  split; [by split|].
  exact (cache_capacity 2 CacheExample.calls H1 H2).
Defined.

Lemma cache_evicts_first_inserted_witness :
  let this := CacheExample.full in
  (NoDup (keys this) ∧
   maxSize this <= size this ∧
   Forall (λ entry, expired 3000 entry.2 = false) (cache this) ∧
   ("tasks:u2:0:50:false" ∉ keys this) ∧
   head (keys this) ≠ Some "") ∧
  keys (set 3000 3000 "tasks:u2:0:50:false" "other page" None this) =
    tail (keys this) ++ ["tasks:u2:0:50:false"].
Proof.
  assert (H1 : NoDup (keys CacheExample.full)).
  { apply (bool_decide_unpack _). by vm_compute. }
  assert (H2 : maxSize CacheExample.full <= size CacheExample.full) by (by vm_compute).
  assert (H3 : Forall (λ entry, expired 3000 entry.2 = false) (cache CacheExample.full))
    by (repeat constructor).
  assert (H4 : "tasks:u2:0:50:false" ∉ keys CacheExample.full).
  { apply (bool_decide_unpack _). by vm_compute. }
  assert (H5 : head (keys CacheExample.full) ≠ Some "") by discriminate.
  split; [by repeat split|].
  exact (cache_evicts_first_inserted CacheExample.full 3000 3000 "tasks:u2:0:50:false"
           "other page" None H1 H2 H3 H4 H5).
Defined.

Lemma withCache_memoizes_witness :
  let this := CacheExample.reports in
  (get 3000 "analytics:u2" this).1 = None ∧
  let life := default 300000 (Some 300000) in
  let first :=
    withCache 3000 3000 3100 "analytics:u2" (Handler.Returns (Some "fresh")) this
              (Some 300000) in
  first.1 = Handler.Returns (Some "fresh") ∧
  (∀ now_get' now_cleanup' now_set' fetchFn' ttl',
     now_get' - 3100 <= life →
     withCache now_get' now_cleanup' now_set' "analytics:u2" fetchFn' first.2 ttl' =
       (Handler.Returns (Some "fresh"), first.2)) ∧
  (let null :=
     withCache 3000 3000 3100 "analytics:u2" (Handler.Returns None) this (Some 300000) in
   null.1 = Handler.Returns None ∧
   (∀ now', now' - 3100 <= life → (get now' "analytics:u2" null.2).1 = Some None) ∧
   ∀ now_get' now_cleanup' now_set' fetchFn' ttl',
     (withCache now_get' now_cleanup' now_set' "analytics:u2" fetchFn' null.2 ttl').1 =
     fetchFn') ∧
  (∀ error,
     let failed :=
       withCache 3000 3000 3100 "analytics:u2" (Handler.Throws error) this (Some 300000) in
     failed.1 = Handler.Throws error ∧ ∀ now', (get now' "analytics:u2" failed.2).1 = None).
Proof.
  assert (H : (get 3000 "analytics:u2" CacheExample.reports).1 = None) by reflexivity.
  split; [exact H|].
  exact (withCache_memoizes CacheExample.reports 3000 3000 3100 "analytics:u2" "fresh"
           (Some 300000) H).
Defined.

Lemma clearCacheByPattern_clears_witness :
  let this := CacheExample.full in
  NoDup (keys this) ∧
  let cleared := (clearCacheByPattern "tasks:u1" this).1 in
  let this' := (clearCacheByPattern "tasks:u1" this).2 in
  cache this' = List.filter (λ entry, negb (includes "tasks:u1" entry.1)) (cache this) ∧
  maxSize this' = maxSize this ∧
  cleared = size this - size this' ∧
  ∀ key, key ∈ keys this' ↔
         key ∈ keys this ∧ ¬ ∃ a b, key = a +:+ "tasks:u1" +:+ b.
Proof.
  assert (H : NoDup (keys CacheExample.full)).
  { apply (bool_decide_unpack _). by vm_compute. }
  split; [exact H|].
  exact (clearCacheByPattern_clears "tasks:u1" CacheExample.full H).
Defined.

End CacheWitnesses.
